(** * hashmal: chainparams-driven transaction codec and script templates

    A shallow embedding of [hashmal_lib/core/transaction.py],
    [hashmal_lib/core/chainparams.py],
    [hashmal_lib/plugins/script_gen.py], [hashmal_lib/plugin_handler.py]
    and the dock order of [hashmal_lib/main_window.py], together with
    the parts of
    Python's [struct] module and of python-bitcoinlib's
    [bitcoin.core.serialize] that [transaction.py] calls.

    Python objects that the code only reads are Rocq values.  The lists
    of field tuples that the code shares by reference
    ([transaction.transaction_fields], [Transaction.fields]) live in an
    explicit store of list objects; module globals are components of
    that store.  Exceptions are the [Raise] constructor of [result]. *)

From Stdlib Require Import ZArith Lia Ascii String.
From Stdlib.Strings Require Byte.
From stdpp Require Import base option list gmap strings fin_maps pretty.

Local Open Scope Z_scope.

(** ** Exceptions and results *)

(** The exception classes that the modelled code can raise. *)
Inductive exn : Set :=
  | KeyError
  | ValueError
  | TypeError
  | AttributeError
  | AssertionError
  | struct_error                   (* struct.error *)
  | SerializationError             (* bitcoin.core.serialize *)
  | SerializationTruncationError.  (* subclass raised when the stream ends early *)

Inductive result (A : Type) : Type :=
  | Ok (a : A)
  | Raise (e : exn).
Arguments Ok {A} a.
Arguments Raise {A} e.

#[global] Instance result_ret : MRet result := fun _ a => Ok a.
#[global] Instance result_bind : MBind result := fun _ _ k r =>
  match r with
  | Ok a => k a
  | Raise e => Raise e
  end.

(** ** Bytes *)

Abbreviation byte := Byte.byte.

Definition Z_of_byte (b : byte) : Z := Z.of_N (Byte.to_N b).

Definition byte_of_Z (z : Z) : byte :=
  match Byte.of_N (Z.to_N (z mod 256)) with
  | Some b => b
  | None => Byte.x00
  end.

(** Little-endian two's-complement digits of [z], [w] bytes wide. *)
Fixpoint le_bytes (w : nat) (z : Z) : list byte :=
  match w with
  | O => []
  | S w' => byte_of_Z z :: le_bytes w' (z / 256)
  end.

Fixpoint le_value (bs : list byte) : Z :=
  match bs with
  | [] => 0
  | b :: bs' => Z_of_byte b + 256 * le_value bs'
  end.

(** ** Python's [struct] module, for a single little-endian integer code

    [struct.pack(fmt, v)] raises [struct.error] when [v] does not fit the
    code; [struct.unpack(fmt, s)] raises it unless [len(s)] is exactly
    [struct.calcsize(fmt)]. *)
Module struct.

Inductive code : Set :=
  | b_ | B_      (* '<b' '<B' *)
  | h_ | H_      (* '<h' '<H' *)
  | i_ | I_      (* '<i' '<I' *)
  | q_ | Q_.     (* '<q' '<Q' *)

Definition calcsize (c : code) : Z :=
  match c with
  | b_ | B_ => 1
  | h_ | H_ => 2
  | i_ | I_ => 4
  | q_ | Q_ => 8
  end.

Definition signed (c : code) : bool :=
  match c with
  | b_ | h_ | i_ | q_ => true
  | B_ | H_ | I_ | Q_ => false
  end.

Definition modulus (c : code) : Z := 2 ^ (8 * calcsize c).

Definition lo (c : code) : Z := if signed c then - (modulus c / 2) else 0.
Definition hi (c : code) : Z := if signed c then modulus c / 2 else modulus c.

Definition in_range (c : code) (v : Z) : bool :=
  (lo c <=? v) && (v <? hi c).

Definition pack (c : code) (v : Z) : result (list byte) :=
  if in_range c v then Ok (le_bytes (Z.to_nat (calcsize c)) v)
  else Raise struct_error.

Definition unpack (c : code) (s : list byte) : result Z :=
  if Z.of_nat (length s) =? calcsize c then
    let u := le_value s in
    Ok (if signed c && (modulus c / 2 <=? u) then u - modulus c else u)
  else Raise struct_error.

End struct.

(** ** python-bitcoinlib: [bitcoin.core.serialize] and the tx parts

    A stream being read is the list of bytes still unread; a read
    returns its value and the rest.  A stream being written is the list
    of bytes written so far; a write returns the bytes it appends. *)

Definition MAX_SIZE : Z := 0x02000000.

Definition reader (A : Type) : Type := list byte → result (A * list byte).

(** [ser_read(f, n)]:
<<
    if n > MAX_SIZE: raise SerializationError(...)
    r = f.read(n)
    if len(r) < n: raise SerializationTruncationError(...)
    return r
>>
    [f.read(n)] with a negative [n] returns everything that is left. *)
Definition ser_read (n : Z) : reader (list byte) := fun f =>
  if MAX_SIZE <? n then Raise SerializationError
  else if n <? 0 then Ok (f, [])
  else if Z.of_nat (length f) <? n then Raise SerializationTruncationError
  else Ok (take (Z.to_nat n) f, drop (Z.to_nat n) f).

(** [struct.unpack(code, ser_read(f, size))[0]] *)
Definition read_struct (c : struct.code) (n : Z) : reader Z := fun f =>
  '(s, f) ← ser_read n f;
  v ← struct.unpack c s;
  Ok (v, f).

Module VarIntSerializer.

Definition stream_serialize (i : Z) : result (list byte) :=
  if i <? 0 then Raise ValueError
  else if i <? 0xfd then Ok [byte_of_Z i]
  else if i <=? 0xffff then
    s ← struct.pack struct.H_ i; Ok (byte_of_Z 0xfd :: s)
  else if i <=? 0xffffffff then
    s ← struct.pack struct.I_ i; Ok (byte_of_Z 0xfe :: s)
  else
    s ← struct.pack struct.Q_ i; Ok (byte_of_Z 0xff :: s).

Definition stream_deserialize : reader Z := fun f =>
  '(s, f) ← ser_read 1 f;
  let r := le_value s in      (* _bord of the one byte read *)
  if r <? 0xfd then Ok (r, f)
  else if r =? 0xfd then read_struct struct.H_ 2 f
  else if r =? 0xfe then read_struct struct.I_ 4 f
  else read_struct struct.Q_ 8 f.

End VarIntSerializer.

Module BytesSerializer.

Definition stream_serialize (b : list byte) : result (list byte) :=
  l ← VarIntSerializer.stream_serialize (Z.of_nat (length b));
  Ok (l ++ b).

Definition stream_deserialize : reader (list byte) := fun f =>
  '(l, f) ← VarIntSerializer.stream_deserialize f;
  ser_read l f.

End BytesSerializer.

Module VectorSerializer.
Section inner_cls.
Context {A : Type}.
Variable inner_serialize : A → result (list byte).
Variable inner_deserialize : reader A.

Fixpoint serialize_each (objs : list A) : result (list byte) :=
  match objs with
  | [] => Ok []
  | obj :: objs' =>
      s ← inner_serialize obj;
      r ← serialize_each objs';
      Ok (s ++ r)
  end.

Definition stream_serialize (objs : list A) : result (list byte) :=
  l ← VarIntSerializer.stream_serialize (Z.of_nat (length objs));
  r ← serialize_each objs;
  Ok (l ++ r).

(** [for i in range(n): r.append(inner_cls.stream_deserialize(f))].
    Under Python 2 [range(n)] builds the list of its [n] indices before
    the first item is read, and raises [MemoryError] or [OverflowError]
    when it cannot, which depends on the machine and happens for a
    count such as 0xffffffff.  Here [range(n)] gives its indices, which
    is what the code does for the counts that [range] builds a list
    for, among them the counts up to 0xffff that at most four bytes
    hold; what is proved about the kind of exception that a short input
    raises is proved for these counts. *)
Fixpoint deserialize_each (n : nat) : reader (list A) := fun f =>
  match n with
  | O => Ok ([], f)
  | S n' =>
      '(obj, f) ← inner_deserialize f;
      '(r, f) ← deserialize_each n' f;
      Ok (obj :: r, f)
  end.

Definition stream_deserialize : reader (list A) := fun f =>
  '(n, f) ← VarIntSerializer.stream_deserialize f;
  deserialize_each (Z.to_nat n) f.
End inner_cls.
End VectorSerializer.

Module COutPoint.

Record t : Type := mk { hash : list byte; n : Z }.

Definition stream_serialize (self : t) : result (list byte) :=
  if Z.of_nat (length (hash self)) =? 32 then
    s ← struct.pack struct.I_ (n self);
    Ok (hash self ++ s)
  else Raise AssertionError.

Definition stream_deserialize : reader t := fun f =>
  '(h, f) ← ser_read 32 f;
  '(i, f) ← read_struct struct.I_ 4 f;
  Ok (mk h i, f).

End COutPoint.

Module CTxIn.

Record t : Type := mk { prevout : COutPoint.t; scriptSig : list byte; nSequence : Z }.

Definition stream_serialize (self : t) : result (list byte) :=
  p ← COutPoint.stream_serialize (prevout self);
  s ← BytesSerializer.stream_serialize (scriptSig self);
  q ← struct.pack struct.I_ (nSequence self);
  Ok (p ++ s ++ q).

Definition stream_deserialize : reader t := fun f =>
  '(p, f) ← COutPoint.stream_deserialize f;
  '(s, f) ← BytesSerializer.stream_deserialize f;
  '(q, f) ← read_struct struct.I_ 4 f;
  Ok (mk p s q, f).

End CTxIn.

Module CTxOut.

Record t : Type := mk { nValue : Z; scriptPubKey : list byte }.

Definition stream_serialize (self : t) : result (list byte) :=
  v ← struct.pack struct.q_ (nValue self);
  s ← BytesSerializer.stream_serialize (scriptPubKey self);
  Ok (v ++ s).

Definition stream_deserialize : reader t := fun f =>
  '(v, f) ← read_struct struct.q_ 8 f;
  '(s, f) ← BytesSerializer.stream_deserialize f;
  Ok (mk v s, f).

End CTxOut.

(** ** Values, field tuples and the store *)

(** The Python values that occur as attributes of a transaction. *)
Inductive pyval : Type :=
  | PNone
  | PInt (z : Z)
  | PBytes (b : list byte)
  | PTxIns (l : list CTxIn.t)
  | PTxOuts (l : list CTxOut.t).

(** The second component of a field tuple: a [struct] format string, or
    one of the special strings ['inputs'], ['outputs'], ['bytes'],
    ['vectortx']. *)
Inductive fmt : Set :=
  | fmt_struct (c : struct.code)
  | inputs
  | outputs
  | bytes
  | vectortx.

(** A field tuple [(attribute_name, fmt, num_bytes, default)]. *)
Module Field.
Record t : Type := mk {
  name : string;
  format : fmt;
  num_bytes : option Z;
  default : pyval
}.
End Field.

(** Modelled from the spec: the functions of [opcodes.py] that execute
    an opcode are not part of the sources at hand.  A handler is known
    by what it is: the base table's handler for an opcode value, or the
    Clams override [opcodes.clams_checklocktimeverify]. *)
Inductive handler : Set :=
  | base_handler (value : Z)
  | clams_checklocktimeverify.

Abbreviation loc := positive.

(** The list objects and the module globals that refer to them. *)
Record store : Type := mk_store {
  lists : gmap loc (list Field.t);
  transaction_fields : loc;          (* transaction.transaction_fields *)
  block_header_fields : loc;         (* block.block_header_fields *)
  block_fields : loc;                (* block.block_fields *)
  overridden_opcodes : gmap Z (string * handler)  (* opcodes.overridden_opcodes *)
}.

(** The list a reference points to. *)
Definition deref (σ : store) (r : loc) : list Field.t :=
  default [] (lists σ !! r).

(** [list(l)]: a new list object with the items of [l]. *)
Definition new_list (l : list Field.t) (σ : store) : loc * store :=
  let r := fresh (dom (lists σ)) in
  (r, mk_store (<[r := l]> (lists σ)) (transaction_fields σ)
        (block_header_fields σ) (block_fields σ) (overridden_opcodes σ)).

(** ** transaction.py *)
Module Transaction.

(** An instance: [self.fields] and the other instance attributes.
    [attrs] holds the attributes of the names that are ordinary
    ([ordinary_name] below): an attribute called [fields] would be
    [self.fields] itself, one called as a method of the class would hide
    the method from the instance, and Python refuses values for some of
    its special names. *)
Record t : Type := mk { fields : loc; attrs : gmap string pyval }.

(** The names that [Transaction] itself binds on an instance or in the
    class. *)
Definition reserved_names : list string :=
  [ "fields"; "set_serialization"; "stream_deserialize"; "stream_serialize";
    "from_tx"; "as_hex" ].

(** A name that [setattr] can bind on an instance without changing
    anything but that attribute: none of [reserved_names], and none of
    Python's special names such as [__class__] and [__dict__]. *)
Definition ordinary_name (k : string) : bool :=
  negb (existsb (String.eqb k) reserved_names) && negb (String.prefix "__" k).

Definition getattr (a : gmap string pyval) (k : string) : result pyval :=
  match a !! k with
  | Some v => Ok v
  | None => Raise AttributeError
  end.

(** [CMutableTransaction.__init__(vin, vout, nLockTime, nVersion)] *)
Definition CMutableTransaction_init (vin : option (list CTxIn.t))
    (vout : option (list CTxOut.t)) (nLockTime nVersion : Z)
    : result (gmap string pyval) :=
  if (0 <=? nLockTime) && (nLockTime <=? 0xffffffff) then
    Ok (<["nVersion" := PInt nVersion]>
        (<["vout" := PTxOuts (default [] vout)]>
         (<["vin" := PTxIns (default [] vin)]>
          (<["nLockTime" := PInt nLockTime]> ∅))))
  else Raise ValueError.

(** The loop of [set_serialization] and of [from_tx]:
<<
    for name, _, _, default in fields:
        try: getattr(self, name)
        except AttributeError: setattr(self, name, default)
>> *)
Definition fill_defaults (flds : list Field.t) (a : gmap string pyval)
    : gmap string pyval :=
  foldl (fun a fld =>
           match a !! Field.name fld with
           | Some _ => a
           | None => <[Field.name fld := Field.default fld]> a
           end) a flds.

(** [self.set_serialization(fields)], where [self] is given by its
    instance attributes other than [fields]: with [fields=None] the
    instance gets [list(transaction_fields)], a list of its own. *)
Definition set_serialization (fields : option loc) (self : gmap string pyval)
    (σ : store) : t * store :=
  let '(r, σ) :=
    match fields with
    | None => new_list (deref σ (transaction_fields σ)) σ
    | Some r => (r, σ)
    end in
  (mk r (fill_defaults (deref σ r) self), σ).

(** [Transaction(vin, vout, locktime, version, fields, kwfields)] *)
Definition init (vin : option (list CTxIn.t)) (vout : option (list CTxOut.t))
    (locktime version : Z) (fields : option loc)
    (kwfields : gmap string pyval) (σ : store) : result t * store :=
  match CMutableTransaction_init vin vout locktime version with
  | Raise e => (Raise e, σ)
  | Ok a =>
      (* for k, v in kwfields.items(): setattr(self, k, v) *)
      let '(self, σ) := set_serialization fields (kwfields ∪ a) σ in
      (Ok self, σ)
  end.

(** [ser_read(f, num_bytes)] as [stream_deserialize] calls it, where
    [num_bytes] may be [None]: under Python 2 [None > MAX_SIZE] and
    [len(r) < None] are false and [f.read(None)] reads to the end. *)
Definition ser_read_num_bytes (num_bytes : option Z) : reader (list byte) :=
  match num_bytes with
  | Some n => ser_read n
  | None => fun f => Ok (f, [])
  end.

Definition deserialize_field (fld : Field.t) (a : gmap string pyval)
    : reader (gmap string pyval) := fun f =>
  match Field.format fld with
  | fmt_struct c =>
      '(s, f) ← ser_read_num_bytes (Field.num_bytes fld) f;
      v ← struct.unpack c s;
      Ok (<[Field.name fld := PInt v]> a, f)
  | vectortx =>
      (* not in ['inputs', 'outputs', 'bytes']: handed to struct.unpack,
         which rejects the format string *)
      '(s, f) ← ser_read_num_bytes (Field.num_bytes fld) f;
      Raise struct_error
  | inputs =>
      '(v, f) ← VectorSerializer.stream_deserialize CTxIn.stream_deserialize f;
      Ok (<[Field.name fld := PTxIns v]> a, f)
  | outputs =>
      '(v, f) ← VectorSerializer.stream_deserialize CTxOut.stream_deserialize f;
      Ok (<[Field.name fld := PTxOuts v]> a, f)
  | bytes =>
      '(v, f) ← BytesSerializer.stream_deserialize f;
      Ok (<[Field.name fld := PBytes v]> a, f)
  end.

Fixpoint deserialize_fields (flds : list Field.t) (a : gmap string pyval)
    : reader (gmap string pyval) := fun f =>
  match flds with
  | [] => Ok (a, f)
  | fld :: flds' =>
      '(a, f) ← deserialize_field fld a f;
      deserialize_fields flds' a f
  end.

(** [Transaction.stream_deserialize(f)]: the instance read and the
    unread rest of [f]. *)
Definition stream_deserialize (f : list byte) (σ : store)
    : result (t * list byte) * store :=
  match init None None 0 1 None ∅ σ with
  | (Raise e, σ) => (Raise e, σ)
  | (Ok self, σ) =>
      ('(a, f) ← deserialize_fields (deref σ (fields self)) (attrs self) f;
       Ok (mk (fields self) a, f), σ)
  end.

(** The items of the value handed to [VectorSerializer.stream_serialize]
    where a list of [CTxIn] is expected.  An empty sequence has no item
    to go wrong; [len] of [None] or of an integer raises [TypeError];
    for an item of another class Python 2 refuses the call of the
    unbound method [CTxIn.stream_serialize] with [TypeError]. *)
Definition as_txins (v : pyval) : result (list CTxIn.t) :=
  match v with
  | PTxIns l => Ok l
  | PTxOuts [] | PBytes [] => Ok []
  | PNone | PInt _ => Raise TypeError
  | PTxOuts (_ :: _) | PBytes (_ :: _) => Raise TypeError
  end.

Definition as_txouts (v : pyval) : result (list CTxOut.t) :=
  match v with
  | PTxOuts l => Ok l
  | PTxIns [] | PBytes [] => Ok []
  | PNone | PInt _ => Raise TypeError
  | PTxIns (_ :: _) | PBytes (_ :: _) => Raise TypeError
  end.

Definition serialize_field (a : gmap string pyval) (fld : Field.t)
    : result (list byte) :=
  match Field.format fld with
  | fmt_struct c =>
      v ← getattr a (Field.name fld);
      match v with
      | PInt z => struct.pack c z
      | _ => Raise struct_error
      end
  | vectortx =>
      v ← getattr a (Field.name fld);
      Raise struct_error
  | inputs =>
      v ← getattr a "vin";
      l ← as_txins v;
      VectorSerializer.stream_serialize CTxIn.stream_serialize l
  | outputs =>
      v ← getattr a "vout";
      l ← as_txouts v;
      VectorSerializer.stream_serialize CTxOut.stream_serialize l
  | bytes =>
      v ← getattr a (Field.name fld);
      match v with
      | PBytes b => BytesSerializer.stream_serialize b
      | _ => Raise TypeError
      end
  end.

Fixpoint serialize_fields (a : gmap string pyval) (flds : list Field.t)
    : result (list byte) :=
  match flds with
  | [] => Ok []
  | fld :: flds' =>
      s ← serialize_field a fld;
      r ← serialize_fields a flds';
      Ok (s ++ r)
  end.

(** [self.stream_serialize(f)]: the bytes written to [f]. *)
Definition stream_serialize (σ : store) (self : t) : result (list byte) :=
  serialize_fields (attrs self) (deref σ (fields self)).

(** The argument of [from_tx]: an instance of another transaction
    class of python-bitcoinlib, or a [Transaction]. *)
Inductive tx_arg : Type :=
  | CTransaction (vin : list CTxIn.t) (vout : list CTxOut.t) (nLockTime nVersion : Z)
  | this (tx : t).

Definition from_tx (tx : tx_arg) (σ : store) : result t * store :=
  match tx with
  | CTransaction vin vout nLockTime nVersion =>
      (* CMutableTransaction.from_tx: cls(vin, vout, tx.nLockTime, tx.nVersion) *)
      init (Some vin) (Some vout) nLockTime nVersion None ∅ σ
  | this tx =>
      (Ok (mk (fields tx)
              (fill_defaults (deref σ (transaction_fields σ)) (attrs tx))), σ)
  end.

End Transaction.

(** ** opcodes.py, as far as chainparams.py uses it *)
Module opcodes.

(** Modelled from the spec: [opcodes.set_overridden_opcodes(ops)] is
    not part of the sources at hand.  The override table is set from
    the triples [(value, name, func)] of [ops], keyed by opcode value;
    the table that was there before is replaced, so that an opcode
    the new list does not name goes back to the base table. *)
Definition set_overridden_opcodes (ops : list (Z * string * handler))
    (σ : store) : store :=
  mk_store (lists σ) (transaction_fields σ) (block_header_fields σ)
    (block_fields σ)
    (foldl (fun m '(value, name, func) => <[value := (name, func)]> m) ∅ ops).

(** Modelled from the spec: the handler that executing opcode [value]
    dispatches to: the active table is the base table with the entries
    of the override table replacing those of the same opcode value. *)
Definition active_handler (σ : store) (value : Z) : handler :=
  match overridden_opcodes σ !! value with
  | Some (_, func) => func
  | None => base_handler value
  end.

End opcodes.

(** ** chainparams.py *)
Module ParamsPreset.
Record t : Type := mk {
  name : string;
  tx_fields : list Field.t;
  block_header_fields : list Field.t;
  block_fields : list Field.t;
  opcode_overrides : list (Z * string * handler)
}.
End ParamsPreset.

Module chainparams.

Definition _bitcoin_header_fields : list Field.t :=
  [ Field.mk "nVersion" (fmt_struct struct.i_) (Some 4) (PInt 1);
    Field.mk "hashPrevBlock" bytes (Some 32) (PBytes (replicate 32 Byte.x00));
    Field.mk "hashMerkleRoot" bytes (Some 32) (PBytes (replicate 32 Byte.x00));
    Field.mk "nTime" (fmt_struct struct.I_) (Some 4) (PInt 0);
    Field.mk "nBits" (fmt_struct struct.I_) (Some 4) (PInt 0);
    Field.mk "nNonce" (fmt_struct struct.I_) (Some 4) (PInt 0) ].

Definition _bitcoin_block_fields : list Field.t :=
  [ Field.mk "vtx" vectortx None PNone ].

Definition _bitcoin_opcode_overrides : list (Z * string * handler) := [].

(** [ParamsPreset(name=..., tx_fields=..., ...)]: a keyword that is not
    given keeps the value that [__init__] sets first. *)
Definition ParamsPreset_init (name : option string)
    (tx_fields block_header_fields block_fields : option (list Field.t))
    (opcode_overrides : option (list (Z * string * handler)))
    : ParamsPreset.t :=
  ParamsPreset.mk (default EmptyString name) (default [] tx_fields)
    (default _bitcoin_header_fields block_header_fields)
    (default _bitcoin_block_fields block_fields)
    (default _bitcoin_opcode_overrides opcode_overrides).

Definition BitcoinPreset : ParamsPreset.t :=
  ParamsPreset_init (Some "Bitcoin")
    (Some [ Field.mk "nVersion" (fmt_struct struct.i_) (Some 4) (PInt 1);
            Field.mk "vin" inputs None PNone;
            Field.mk "vout" outputs None PNone;
            Field.mk "nLockTime" (fmt_struct struct.I_) (Some 4) (PInt 0) ])
    None None None.

Definition ClamsPreset : ParamsPreset.t :=
  ParamsPreset_init (Some "Clams")
    (Some [ Field.mk "nVersion" (fmt_struct struct.i_) (Some 4) (PInt 1);
            Field.mk "Timestamp" (fmt_struct struct.i_) (Some 4) (PInt 0);
            Field.mk "vin" inputs None PNone;
            Field.mk "vout" outputs None PNone;
            Field.mk "nLockTime" (fmt_struct struct.I_) (Some 4) (PInt 0);
            Field.mk "ClamSpeech" bytes None (PBytes []) ])
    None
    (Some (_bitcoin_block_fields ++ [ Field.mk "blockSig" bytes None PNone ]))
    (Some [ (0xb0, "OP_CHECKLOCKTIMEVERIFY", clams_checklocktimeverify) ]).

Definition FreicoinPreset : ParamsPreset.t :=
  ParamsPreset_init (Some "Freicoin")
    (Some [ Field.mk "nVersion" (fmt_struct struct.i_) (Some 4) (PInt 1);
            Field.mk "vin" inputs None PNone;
            Field.mk "vout" outputs None PNone;
            Field.mk "nLockTime" (fmt_struct struct.I_) (Some 4) (PInt 0);
            Field.mk "RefHeight" (fmt_struct struct.i_) (Some 4) (PInt 0) ])
    None None None.

Definition PeercoinPreset : ParamsPreset.t :=
  ParamsPreset_init (Some "Peercoin")
    (Some [ Field.mk "nVersion" (fmt_struct struct.i_) (Some 4) (PInt 1);
            Field.mk "Timestamp" (fmt_struct struct.i_) (Some 4) (PInt 0);
            Field.mk "vin" inputs None PNone;
            Field.mk "vout" outputs None PNone;
            Field.mk "nLockTime" (fmt_struct struct.I_) (Some 4) (PInt 0) ])
    None None None.

Definition presets_list : list ParamsPreset.t :=
  [ BitcoinPreset; ClamsPreset; FreicoinPreset; PeercoinPreset ].

(** [dict((i.name, i) for i in presets_list)] *)
Definition presets : gmap string ParamsPreset.t :=
  foldl (fun m i => <[ParamsPreset.name i := i]> m) ∅ presets_list.

Definition get_tx_fields (σ : store) : loc := transaction_fields σ.

Definition set_tx_fields (fields : list Field.t) (σ : store) : store :=
  let '(r, σ) := new_list fields σ in
  mk_store (lists σ) r (block_header_fields σ) (block_fields σ)
    (overridden_opcodes σ).

Definition get_block_header_fields (σ : store) : loc := block_header_fields σ.

Definition set_block_header_fields (fields : list Field.t) (σ : store) : store :=
  let '(r, σ) := new_list fields σ in
  mk_store (lists σ) (transaction_fields σ) r (block_fields σ)
    (overridden_opcodes σ).

Definition get_block_fields (σ : store) : loc := block_fields σ.

Definition set_block_fields (fields : list Field.t) (σ : store) : store :=
  let '(r, σ) := new_list fields σ in
  mk_store (lists σ) (transaction_fields σ) (block_header_fields σ) r
    (overridden_opcodes σ).

Definition get_opcode_overrides (σ : store) : gmap Z (string * handler) :=
  overridden_opcodes σ.

Definition set_opcode_overrides (ops : list (Z * string * handler))
    (σ : store) : store :=
  opcodes.set_overridden_opcodes ops σ.

(** [presets[name]] raises [KeyError] when [name] is not a preset. *)
Definition set_to_preset (name : string) (σ : store) : result unit * store :=
  match presets !! name with
  | None => (Raise KeyError, σ)
  | Some params =>
      let σ := set_tx_fields (ParamsPreset.tx_fields params) σ in
      let σ := set_block_header_fields (ParamsPreset.block_header_fields params) σ in
      let σ := set_block_fields (ParamsPreset.block_fields params) σ in
      let σ := set_opcode_overrides (ParamsPreset.opcode_overrides params) σ in
      (Ok (), σ)
  end.

End chainparams.

(** ** plugins/script_gen.py *)
Module script_gen.

(** [ScriptTemplate = namedtuple('ScriptTemplate', ('name', 'text', 'variables'))] *)
Record ScriptTemplate : Type := mk_template {
  name : string;
  text : string;
  variables : gmap string string
}.

(** *** The string operations of Python that the module uses *)

Definition isspace (c : ascii) : bool :=
  let k := nat_of_ascii c in
  Nat.eqb k 32 || (Nat.leb 9 k && Nat.leb k 13).

(** [s.split()]: the maximal runs of characters that are not white space. *)
Fixpoint split_from (cur : string) (s : string) : list string :=
  match s with
  | EmptyString => if String.eqb cur EmptyString then [] else [cur]
  | String c s' =>
      if isspace c then
        if String.eqb cur EmptyString then split_from EmptyString s' else cur :: split_from EmptyString s'
      else split_from (cur +:+ String c EmptyString) s'
  end.

Definition split (s : string) : list string := split_from EmptyString s.

Definition startswith (s : string) (c : ascii) : bool :=
  match s with
  | String c' _ => Ascii.eqb c' c
  | EmptyString => false
  end.

Fixpoint endswith (s : string) (c : ascii) : bool :=
  match s with
  | EmptyString => false
  | String c' EmptyString => Ascii.eqb c' c
  | String _ s' => endswith s' c
  end.

Fixpoint drop_last (s : string) : string :=
  match s with
  | EmptyString => EmptyString
  | String _ EmptyString => EmptyString
  | String c s' => String c (drop_last s')
  end.

(** [s[1:-1]] *)
Definition slice_1_m1 (s : string) : string :=
  match s with
  | EmptyString => EmptyString
  | String _ s' => drop_last s'
  end.

(** [txt.startswith('<') and txt.endswith('>')] *)
Definition is_variable (txt : string) : bool :=
  startswith txt "<" && endswith txt ">".

Definition contains (l : list string) (i : string) : bool :=
  existsb (String.eqb i) l.

Section script_gen.

(** [hashmal_lib.core.Script] and [hashmal_lib.core.utils] are not
    part of the sources at hand; what this module uses of them is
    taken as given:
    - [human_iter script]: the tokens that [script.human_iter()] yields,
      which it is taken to yield without raising;
    - [from_human data]: [Script.from_human(data)], [None] when it raises;
    - [format_hex_string value with_prefix]: [None] is Python's [None]. *)
Context {Script : Type}.
Variable human_iter : Script → list string.
Variable from_human : string → option Script.
Variable format_hex_string : string → bool → option string.

(** [len(None)] raises [TypeError]. *)
Definition is_valid_variable_value (value variable_type : string)
    : result bool :=
  if String.eqb variable_type "address" then
    match format_hex_string value false with
    | None => Raise TypeError
    | Some v => if Nat.eqb (String.length v) 40 then Ok true else Ok false
    end
  else Ok false.

(** The [while 1] loop of [is_template_script]: [None] when it
    returns [False], [Some used_variables] when it ends with
    [break] on [StopIteration]. *)
Fixpoint match_tokens (template : ScriptTemplate) (text : list string)
    (iterator : list string) (index : nat) (used_variables : list string)
    : option (list string) :=
  match iterator with
  | [] => Some used_variables
  | s :: iterator' =>
      match text !! index with
      | None => None                         (* IndexError *)
      | Some txt =>
          if is_variable txt then
            match variables template !! slice_1_m1 txt with
            | None => None                   (* KeyError *)
            | Some var_type =>
                match is_valid_variable_value s var_type with
                | Ok true =>
                    match_tokens template text iterator' (S index)
                      (used_variables ++ [slice_1_m1 txt])
                | Ok false => None
                | Raise _ => None
                end
            end
          else if negb (String.eqb s txt) then None
          else match_tokens template text iterator' (S index) used_variables
      end
  end.

Definition is_template_script (script : Script) (template : ScriptTemplate)
    : bool :=
  match match_tokens template (split (text template)) (human_iter script) 0%nat [] with
  | None => false
  | Some used_variables =>
      forallb (contains used_variables) (map_to_list (variables template)).*1
  end.

(** A [ScriptTemplateItem]: [self.value], [self.template] and
    [self.variables]. *)
Record ScriptTemplateItem : Type := mk_item {
  value : Script;
  template : ScriptTemplate;
  item_variables : gmap string string
}.

(** The loop of [ScriptTemplateItem.__init__] that populates the
    variables dict; it ends on any exception, [StopIteration] and
    [IndexError] alike. *)
Fixpoint populate (text : list string) (iterator : list string)
    (index : nat) (vars : gmap string string) : gmap string string :=
  match iterator with
  | [] => vars
  | s :: iterator' =>
      match text !! index with
      | None => vars
      | Some txt =>
          populate text iterator' (S index)
            (if is_variable txt then <[slice_1_m1 txt := s]> vars else vars)
      end
  end.

Definition ScriptTemplateItem_init (value : Script) (template : ScriptTemplate)
    : ScriptTemplateItem :=
  mk_item value template
    (populate (split (text template)) (human_iter value) 0%nat ∅).

Definition recipient (self : ScriptTemplateItem) : option string :=
  item_variables self !! "recipient".

(** The argument of [coerce_item]: a [Script], or anything else,
    which [Script.from_human] is tried on. *)
Inductive coerce_arg : Type :=
  | is_script (s : Script)
  | other (data : string).

(** [known] is the list that the module global [known_templates]
    holds when [coerce_item] runs. *)
Definition coerce_item (known : list ScriptTemplate) (data : coerce_arg)
    : option ScriptTemplateItem :=
  data ← match data with
         | is_script s => Some s
         | other d => from_human d
         end;
  i ← List.find (is_template_script data) known;
  Some (ScriptTemplateItem_init data i).

End script_gen.

(** Standard output scripts by default. *)
Definition known_templates : list ScriptTemplate :=
  [ mk_template "Pay-To-Public-Key-Hash Output"
      "OP_DUP OP_HASH160 <recipient> OP_EQUALVERIFY OP_CHECKSIG"
      {[ "recipient" := "address" ]};
    mk_template "Pay-To-Script-Hash Output"
      "OP_HASH160 <recipient> OP_EQUAL"
      {[ "recipient" := "address" ]};
    mk_template "Null Output"
      "OP_RETURN <text>"
      {[ "text" := "text" ]} ].

End script_gen.

(** ** Entities that can be written: syntactically valid values

    A value is valid for a format when the writer of that format
    accepts it and the reader accepts what was written: integers within
    the range of their [struct] code, byte strings no longer than
    [MAX_SIZE], outpoint hashes of 32 bytes, counts that fit 8 bytes. *)

Definition valid_bytes (b : list byte) : bool :=
  Z.of_nat (length b) <=? MAX_SIZE.

Definition valid_count {A} (l : list A) : bool :=
  Z.of_nat (length l) <=? 0xffffffffffffffff.

Definition valid_outpoint (p : COutPoint.t) : bool :=
  (Z.of_nat (length (COutPoint.hash p)) =? 32)
  && struct.in_range struct.I_ (COutPoint.n p).

Definition valid_txin (i : CTxIn.t) : bool :=
  valid_outpoint (CTxIn.prevout i)
  && valid_bytes (CTxIn.scriptSig i)
  && struct.in_range struct.I_ (CTxIn.nSequence i).

Definition valid_txout (o : CTxOut.t) : bool :=
  struct.in_range struct.q_ (CTxOut.nValue o)
  && valid_bytes (CTxOut.scriptPubKey o).

Definition valid_value (f : fmt) (v : pyval) : bool :=
  match f, v with
  | fmt_struct c, PInt z => struct.in_range c z
  | inputs, PTxIns l => valid_count l && forallb valid_txin l
  | outputs, PTxOuts l => valid_count l && forallb valid_txout l
  | bytes, PBytes b => valid_bytes b
  | _, _ => false
  end.

(** Every field of the schema has a valid value in the attributes. *)
Definition valid_entity (flds : list Field.t) (a : gmap string pyval) : bool :=
  forallb (fun fld =>
             match a !! Field.name fld with
             | Some v => valid_value (Field.format fld) v
             | None => false
             end) flds.

(** A schema whose integer fields declare the size of their format and
    whose vectors are the attributes that [stream_serialize] writes
    ([self.vin], [self.vout]). *)
Definition consistent_field (fld : Field.t) : bool :=
  match Field.format fld with
  | fmt_struct c =>
      match Field.num_bytes fld with
      | Some n => n =? struct.calcsize c
      | None => false
      end
  | inputs => String.eqb (Field.name fld) "vin"
  | outputs => String.eqb (Field.name fld) "vout"
  | bytes => true
  | vectortx => false
  end.

Definition consistent_schema (flds : list Field.t) : bool :=
  forallb consistent_field flds.

(** A writer and a reader agree on [x]: the writer accepts [x], and the
    reader gets [x] back from what was written, leaving what follows. *)
Definition roundtrips {A} (ser : A → result (list byte)) (de : reader A) (x : A)
    : Prop :=
  ∃ s, ser x = Ok s ∧ ∀ rest, de (s ++ rest) = Ok (x, rest).

(** The attributes that [CMutableTransaction.__init__] sets when
    [Transaction()] is called without arguments. *)
Definition init_attrs : gmap string pyval :=
  <["nVersion" := PInt 1]>
    (<["vout" := PTxOuts []]>
       (<["vin" := PTxIns []]> (<["nLockTime" := PInt 0]> ∅))).

(** The ten bytes [01000000 00 00 00000000]. *)
Definition empty_tx_bytes : list byte :=
  [ Byte.x01; Byte.x00; Byte.x00; Byte.x00; Byte.x00; Byte.x00;
    Byte.x00; Byte.x00; Byte.x00; Byte.x00 ].

(** A store to run examples in: no list object yet. *)
Definition empty_store : store :=
  mk_store ∅ 1%positive 1%positive 1%positive ∅.

(** The store once the Clams preset is set, and a transaction on the
    list of fields that is then active, with a timestamp and a speech. *)
Definition clams_store : store :=
  (chainparams.set_to_preset "Clams" empty_store).2.

Definition clams_tx : Transaction.t :=
  Transaction.mk (chainparams.get_tx_fields clams_store)
    (<["ClamSpeech" := PBytes [Byte.x68; Byte.x69]]>
       (<["Timestamp" := PInt 7]> init_attrs)).





(** A schema whose first field declares 2 bytes for a 4-byte format. *)
Definition mismatched_schema : list Field.t :=
  [ Field.mk "a" (fmt_struct struct.i_) (Some 2) (PInt 0);
    Field.mk "b" (fmt_struct struct.i_) (Some 4) (PInt 0) ].

(** ** Script templates: a script that agrees with a template text *)

(** Token [s] of a script agrees with token [txt] of a template text:
    it is a valid value of the variable when [txt] is [<variable>], and
    the very same token otherwise. *)
Definition token_matches (format_hex_string : string → bool → option string)
    (template : script_gen.ScriptTemplate) (s txt : string) : Prop :=
  if script_gen.is_variable txt then
    ∃ var_type,
      script_gen.variables template !! script_gen.slice_1_m1 txt = Some var_type
      ∧ script_gen.is_valid_variable_value format_hex_string s var_type = Ok true
  else s = txt.

(** The names of the variables among the tokens of a template text. *)
Definition variable_names (text : list string) : list string :=
  script_gen.slice_1_m1 <$> filter (fun txt => script_gen.is_variable txt = true) text.

(** For examples: scripts that are their own token lists, and a
    [format_hex_string] that takes a leading [0x] off when asked to. *)
Definition tokens_of (script : list string) : list string := script.

Definition strip_0x (value : string) (with_prefix : bool) : option string :=
  Some (match value with
        | String "0" (String "x" digits) => if with_prefix then value else digits
        | _ => value
        end).

Definition example_hash160 : string :=
  "0x00112233445566778899aabbccddeeff00112233".

(** ** main_window.py

    The order of the docks that [HashmalMain] remembers in
    [dock_orders], and what it asks of Qt about them.  A dock is a Qt
    object; [Dock] is the type of their identities. *)
Module main_window.

(** The exceptions that this part of the code can raise. *)
Inductive error : Set :=
  | ValueError        (* [list.index]: the element is not in the list *)
  | IndexError        (* a list index out of range *)
  | AttributeError.   (* an attribute of [None] *)

(** [Qt.DockWidgetArea] *)
Definition NoDockWidgetArea : Z := 0.
Definition LeftDockWidgetArea : Z := 1.
Definition RightDockWidgetArea : Z := 2.
Definition TopDockWidgetArea : Z := 4.
Definition BottomDockWidgetArea : Z := 8.

Section docks.
Context {Dock : Type} `{EqDecision Dock}.

(** Of the main window: [self.dock_orders], and the state that Qt
    keeps and the code reads, the area of each dock
    ([QMainWindow.dockWidgetArea]) and whether it is visible
    ([QWidget.isVisible]). *)
Record t : Type := mk {
  dock_orders : gmap Z (list Dock);
  dockWidgetArea : Dock → Z;
  isVisible : Dock → bool
}.

(** [self.dock_orders[area]]: [dock_orders] is a [defaultdict(list)],
    which makes the entry, an empty list, when it is missing. *)
Definition dock_order (self : t) (area : Z) : list Dock * t :=
  match dock_orders self !! area with
  | Some docks => (docks, self)
  | None =>
      ([], mk (<[area := []]> (dock_orders self)) (dockWidgetArea self)
             (isVisible self))
  end.

(** [docks.index(w)] *)
Fixpoint index (docks : list Dock) (w : Dock) : error + Z :=
  match docks with
  | [] => inl ValueError
  | dock :: docks' =>
      if decide (dock = w) then inr 0
      else match index docks' w with
           | inl e => inl e
           | inr i => inr (i + 1)
           end
  end.

(** [docks[i]], where a negative [i] counts from the end. *)
Definition getitem (docks : list Dock) (i : Z) : error + Dock :=
  let i := if i <? 0 then i + Z.of_nat (length docks) else i in
  if i <? 0 then inl IndexError
  else match docks !! Z.to_nat i with
       | Some dock => inr dock
       | None => inl IndexError
       end.

(** [move_one_dock(reverse)]: [active] is what [get_active_dock()]
    returns; the result is the dock whose [needsFocus] is emitted. *)
Definition move_one_dock (active : option Dock) (reverse : bool) (self : t)
    : (error + option Dock) * t :=
  match active with
  | None => (inr None, self)
  | Some w =>
      let '(order, self) := dock_order self (dockWidgetArea self w) in
      let docks := List.filter (isVisible self) order in
      match index docks w with
      | inl e => (inl e, self)
      | inr index =>
          let target :=
            if reverse then
              let index := if index =? 0 then Z.of_nat (length docks) else index in
              getitem docks (index - 1)
            else
              let index :=
                if index >=? Z.of_nat (length docks) - 1 then -1 else index in
              getitem docks (index + 1) in
          match target with
          | inl e => (inl e, self)
          | inr dock => (inr (Some dock), self)
          end
      end
  end.

(** [QMainWindow.addDockWidget(area, dock)], which [HashmalMain] does
    not override: Qt puts the dock in the area. *)
Definition addDockWidget (area : Z) (dock : Dock) (self : t) : t :=
  mk (dock_orders self)
    (fun d => if decide (d = dock) then area else dockWidgetArea self d)
    (isVisible self).

(** [dock.setVisible(visible)] *)
Definition setVisible (dock : Dock) (visible : bool) (self : t) : t :=
  mk (dock_orders self) (dockWidgetArea self)
    (fun d => if decide (d = dock) then visible else isVisible self d).

(** [docks.insert(i, top)] for [0 <= i]; past the end it appends. *)
Definition insert (docks : list Dock) (i : Z) (top : Dock) : list Dock :=
  take (Z.to_nat i) docks ++ top :: drop (Z.to_nat i) docks.

(** [tabifyDockWidget(bottom, top)]: the exception raised, if any, and
    the window afterwards.  [QMainWindow.tabifyDockWidget] moves [top]
    into the area of [bottom]. *)
Definition tabifyDockWidget (bottom top : Dock) (self : t) : option error * t :=
  let area := dockWidgetArea self bottom in
  let '(docks, self) := dock_order self area in
  let docks := if Nat.eqb (length docks) 0 then docks ++ [bottom] else docks in
  let self :=
    mk (<[area := docks]> (dock_orders self))
      (fun d => if decide (d = top) then area else dockWidgetArea self d)
      (isVisible self) in
  match index docks bottom with
  | inl e => (Some e, self)
  | inr idx =>
      (None,
       mk (<[area := insert docks (idx + 1) top]> (dock_orders self))
         (dockWidgetArea self) (isVisible self))
  end.

End docks.

End main_window.

(** ** Stores in which the module globals refer to list objects *)

(** Every module global refers to an existing list object, as it does
    once the modules are imported. *)
Definition wf_store (σ : store) : Prop :=
  is_Some (lists σ !! transaction_fields σ)
  ∧ is_Some (lists σ !! block_header_fields σ)
  ∧ is_Some (lists σ !! block_fields σ).

(** What a reader returns is valid. *)
Definition reads_valid {A} (de : reader A) (valid : A → bool) : Prop :=
  ∀ f v f', de f = Ok (v, f') → valid v = true.

(** ** plugin_handler.py

    The handler's own state is modelled; what it does to plugins and to
    Qt objects is recorded, call by call, in a trace. *)
Module plugin_handler.

(** What the handler reads and sets of a plugin and of its dock
    ([plugins/base.py] is not among the sources at hand). *)
Record Plugin : Type := mk_plugin {
  name : string;               (* plugin.name *)
  has_gui : bool;              (* plugin.has_gui *)
  augmenters : list string;    (* the hook names in plugin.augmenters() *)
  ui : nat;                    (* plugin.ui: the dock, by its identity *)
  ui_class : string;           (* plugin.ui.__class__.__name__ *)
  ui_is_enabled : bool;        (* plugin.ui.is_enabled *)
  ui_is_large : bool           (* plugin.ui.is_large *)
}.

Definition contains (l : list string) (i : string) : bool :=
  existsb (String.eqb i) l.

(** [l.index(i)] for an [i] that is in [l]. *)
Fixpoint index (l : list string) (i : string) : nat :=
  match l with
  | [] => 0
  | x :: l' => if String.eqb x i then 0 else S (index l' i)
  end.

(** The first element that [P] holds of, changed by [f]: the object
    that a search returned, modified in place. *)
Fixpoint alter_first {A} (P : A → bool) (f : A → A) (l : list A) : list A :=
  match l with
  | [] => []
  | x :: l' => if P x then f x :: l' else x :: alter_first P f l'
  end.

Section handler.

(** [Data] and [Callback] are the objects passed along with a hook;
    [==] on them is decidable.  [required_plugins] and [default_plugins]
    are the lists of [gui_utils], which is not among the sources at
    hand. *)
Context {Data Callback : Type} `{EqDecision Data, EqDecision Callback}.
Variable required_plugins : list string.
Variable default_plugins : list string.

(** An [Augmentation].  Of the plugin that has the augmenter it keeps
    the name and the class of the dock, neither of which changes once
    the plugin is loaded. *)
Record Augmentation : Type := mk_augmentation {
  augmenter_plugin : string;       (* augmenter_plugin.name *)
  augmenter_class : string;        (* augmenter_plugin.ui.__class__.__name__ *)
  hook_name : string;
  requester : option string;
  data : Data;
  callback : option Callback;
  has_run : bool;
  is_enabled : bool
}.

Definition Augmentation_init (plugin : Plugin) (hook_name : string)
    (requester : option string) (data : Data) (callback : option Callback)
    : Augmentation :=
  mk_augmentation (name plugin) (ui_class plugin) hook_name requester data
    callback false true.

(** Calls that leave the handler. *)
Inductive event : Type :=
  | augmenter_called (plugin hook : string) (data : Data)
      (* augmenter_plugin.get_augmenter(hook_name)(data) *)
  | callback_called (plugin hook : string) (callback : Callback)
      (* callback(what the augmenter returned) *)
  | dock_signals (plugin : string) (do_connect : bool)   (* set_dock_signals *)
  | dock_visible (plugin : string) (visible : bool)      (* ui.setVisible *)
  | action_set (plugin : string) (shortcut : string) (enabled : bool).
      (* toggleViewAction(): setShortcut, setEnabled, setVisible *)

(** *** [Augmentations] *)

Definition is_key (plugin_name hook : string) (i : Augmentation) : bool :=
  String.eqb (augmenter_plugin i) plugin_name && String.eqb (hook_name i) hook.

Definition get (self : list Augmentation) (plugin_name hook_name : string)
    : option Augmentation :=
  List.find (is_key plugin_name hook_name) self.

Definition for_plugin (self : list Augmentation) (plugin_name : string)
    : list Augmentation :=
  List.filter (fun i => String.eqb (augmenter_plugin i) plugin_name) self.

Definition disabled (self : list Augmentation) : list Augmentation :=
  List.filter (fun i => negb (is_enabled i)) self.

(** *** [PluginHandler] *)

(** [config] holds the options that are lists of names; [Config] is
    not among the sources at hand: [get_option(key, default)] is taken
    to return what is stored under [key], and [default] when nothing
    is. *)
Record t : Type := mk {
  loaded_plugins : list Plugin;
  plugins_loaded : bool;
  waiting_augmentations : list (string * string * Data * option Callback);
  augmentations : list Augmentation;
  config : gmap string (list string);
  trace : list event
}.

Definition get_option (self : t) (key : string) (default : list string)
    : list string :=
  match config self !! key with
  | Some v => v
  | None => default
  end.

(** [PluginHandler(main_window)] *)
Definition init (config : gmap string (list string)) : t :=
  mk [] false [] [] config [].

Definition get_plugin (self : t) (plugin_name : string) : option Plugin :=
  List.find (fun plugin => String.eqb (name plugin) plugin_name)
    (loaded_plugins self).

(** [do_augment(augmentation)]: the augmentation afterwards and the
    calls made.  The augmenter and the callback are taken to return,
    and not to call the handler themselves. *)
Definition do_augment (augmentation : Augmentation) : Augmentation * list event :=
  if has_run augmentation
     || negb (is_enabled augmentation)
     || bool_decide (requester augmentation = Some (augmenter_class augmentation))
  then (augmentation, [])
  else
    (mk_augmentation (augmenter_plugin augmentation) (augmenter_class augmentation)
       (hook_name augmentation) (requester augmentation) (data augmentation)
       (callback augmentation) true (is_enabled augmentation),
     augmenter_called (augmenter_plugin augmentation) (hook_name augmentation)
       (data augmentation)
     :: match callback augmentation with
        | Some c => [callback_called (augmenter_plugin augmentation)
                       (hook_name augmentation) c]
        | None => []
        end).

Definition set_is_enabled (b : bool) (i : Augmentation) : Augmentation :=
  mk_augmentation (augmenter_plugin i) (augmenter_class i) (hook_name i)
    (requester i) (data i) (callback i) (has_run i) b.

(** One round of the loop of [do_augment_hook], for one plugin. *)
Definition hook_plugin (class_name hook_name : string) (data : Data)
    (callback : option Callback) (enabled_plugins : list string)
    (st : list Augmentation * list event) (plugin : Plugin)
    : list Augmentation * list event :=
  let '(augs, tr) := st in
  if contains (augmenters plugin) hook_name then
    let augs :=
      match get augs (name plugin) hook_name with
      | None =>
          augs ++ [Augmentation_init plugin hook_name (Some class_name) data callback]
      | Some _ => augs
      end in
    match get augs (name plugin) hook_name with
    | None => (augs, tr)
    | Some augmentation =>
        if negb (contains enabled_plugins (name plugin)) then
          (alter_first (is_key (name plugin) hook_name) (set_is_enabled false) augs, tr)
        else
          let '(a, ev) := do_augment augmentation in
          (alter_first (is_key (name plugin) hook_name) (fun _ => a) augs, tr ++ ev)
    end
  else (augs, tr).

Definition do_augment_hook (class_name hook_name : string) (data : Data)
    (callback : option Callback) (self : t) : t :=
  if negb (plugins_loaded self) then
    let augmentation := (class_name, hook_name, data, callback) in
    if bool_decide (augmentation ∈ waiting_augmentations self) then self
    else mk (loaded_plugins self) (plugins_loaded self)
           (waiting_augmentations self ++ [augmentation])
           (augmentations self) (config self) (trace self)
  else
    let '(augs, tr) :=
      foldl (hook_plugin class_name hook_name data callback
               (get_option self "enabled_plugins" default_plugins))
        (augmentations self, trace self) (loaded_plugins self) in
    mk (loaded_plugins self) (plugins_loaded self) (waiting_augmentations self)
      augs (config self) tr.

(** The loop of [set_plugin_enabled] over
    [self.augmentations.disabled().for_plugin(plugin.name)]. *)
Fixpoint run_disabled (plugin_name : string) (augs : list Augmentation)
    : list Augmentation * list event :=
  match augs with
  | [] => ([], [])
  | i :: rest =>
      let '(i, ev) :=
        if negb (is_enabled i) && String.eqb (augmenter_plugin i) plugin_name then
          if negb (has_run i) then do_augment (set_is_enabled true i) else (i, [])
        else (i, []) in
      let '(rest, ev') := run_disabled plugin_name rest in
      (i :: rest, ev ++ ev')
  end.

(** The calls of [assign_dock_shortcuts]. *)
Definition assign_dock_shortcuts (self : t) : list event :=
  let favorites := get_option self "favorite_plugins" [] in
  omap (fun plugin =>
          if negb (has_gui plugin) then None
          else
            let shortcut :=
              if contains favorites (name plugin)
              then "Alt+" +:+ pretty (1 + index favorites (name plugin))%nat
              else EmptyString in
            Some (action_set (name plugin) shortcut (ui_is_enabled plugin)))
    (loaded_plugins self).

Definition set_ui_is_enabled (b : bool) (plugin : Plugin) : Plugin :=
  mk_plugin (name plugin) (has_gui plugin) (augmenters plugin) (ui plugin)
    (ui_class plugin) b (ui_is_large plugin).

Definition set_plugin_enabled (plugin_name : string) (is_enabled : bool)
    (self : t) : t :=
  match get_plugin self plugin_name with
  | None => self
  | Some plugin =>
      if negb is_enabled && contains required_plugins plugin_name then self
      else
        let plugins :=
          alter_first (fun p => String.eqb (name p) plugin_name)
            (set_ui_is_enabled is_enabled) (loaded_plugins self) in
        let ev1 :=
          if has_gui plugin then
            dock_signals (name plugin) is_enabled
            :: (if negb is_enabled then [dock_visible (name plugin) false] else [])
          else [] in
        let '(augs, ev2) :=
          if is_enabled then run_disabled (name plugin) (augmentations self)
          else (augmentations self, []) in
        let self :=
          mk plugins (plugins_loaded self) (waiting_augmentations self) augs
            (config self) (trace self ++ ev1 ++ ev2) in
        mk (loaded_plugins self) (plugins_loaded self) (waiting_augmentations self)
          (augmentations self) (config self)
          (trace self ++ assign_dock_shortcuts self)
  end.

(** [update_enabled_plugins()] *)
Definition update_enabled_plugins (self : t) : t :=
  let enabled_plugins := get_option self "enabled_plugins" default_plugins in
  foldl (fun self plugin_name =>
           set_plugin_enabled plugin_name (contains enabled_plugins plugin_name) self)
    self (name <$> loaded_plugins self).

(** The loop of [do_default_layout]: the exception raised, if any, and
    the main window afterwards. *)
Fixpoint layout_docks (plugins : list Plugin) (last_small last_large : option nat)
    (gui : @main_window.t nat) : option main_window.error * @main_window.t nat :=
  match plugins with
  | [] => (None, gui)
  | plugin :: plugins' =>
      if negb (has_gui plugin) then layout_docks plugins' last_small last_large gui
      else
        let dock := ui plugin in
        if ui_is_large plugin then
          let gui := main_window.addDockWidget main_window.BottomDockWidgetArea dock gui in
          let '(e, gui) :=
            match last_large with
            | Some last => main_window.tabifyDockWidget last dock gui
            | None => (None, gui)
            end in
          match e with
          | Some e => (Some e, gui)
          | None =>
              layout_docks plugins' last_small (Some dock)
                (main_window.setVisible dock false gui)
          end
        else
          let gui := main_window.addDockWidget main_window.RightDockWidgetArea dock gui in
          let '(e, gui) :=
            match last_small with
            | Some last => main_window.tabifyDockWidget last dock gui
            | None => (None, gui)
            end in
          match e with
          | Some e => (Some e, gui)
          | None =>
              layout_docks plugins' (Some dock) last_large
                (main_window.setVisible dock false gui)
          end
  end.

(** [do_default_layout()]; [gui] is the main window, [self.gui]. *)
Definition do_default_layout (self : t) (gui : @main_window.t nat)
    : option main_window.error * @main_window.t nat :=
  match layout_docks (loaded_plugins self) None None gui with
  | (Some e, gui) => (Some e, gui)
  | (None, gui) =>
      match get_plugin self "Variables" with
      | None => (Some main_window.AttributeError, gui)
      | Some variables =>
          let gui := main_window.setVisible (ui variables) true gui in
          match get_plugin self "Stack Evaluator" with
          | None => (Some main_window.AttributeError, gui)
          | Some stack_evaluator =>
              (None, main_window.setVisible (ui stack_evaluator) true gui)
          end
      end
  end.

End handler.

End plugin_handler.

(** ** The plugin handler over a sequence of calls *)

Section handler_calls.
Context {Data Callback : Type} `{EqDecision Data, EqDecision Callback}.
Variable required_plugins : list string.
Variable default_plugins : list string.

(** What identifies an augmentation: the plugin's name and the hook. *)
Definition augmentation_key (i : @plugin_handler.Augmentation Data Callback)
    : string * string :=
  (plugin_handler.augmenter_plugin i, plugin_handler.hook_name i).

(** The (plugin, hook) pairs whose augmenter was called, in order. *)
Definition called (tr : list (@plugin_handler.event Data Callback))
    : list (string * string) :=
  omap (fun e =>
          match e with
          | plugin_handler.augmenter_called p h _ => Some (p, h)
          | _ => None
          end) tr.

(** No two augmentations for the same plugin and hook, no augmenter
    called twice, and every augmenter that was called belongs to an
    augmentation marked as run. *)
Definition run_once_inv (augs : list (@plugin_handler.Augmentation Data Callback))
    (tr : list (@plugin_handler.event Data Callback)) : Prop :=
  NoDup (augmentation_key <$> augs)
  ∧ NoDup (called tr)
  ∧ ∀ k, k ∈ called tr →
      ∃ i, i ∈ augs ∧ augmentation_key i = k ∧ plugin_handler.has_run i = true.

(** The calls to the handler that touch augmentations and plugins. *)
Inductive handler_call : Type :=
  | call_do_augment_hook (class_name hook_name : string) (data : Data)
      (callback : option Callback)
  | call_set_plugin_enabled (plugin_name : string) (is_enabled : bool)
  | call_update_enabled_plugins.

Definition run_call (self : @plugin_handler.t Data Callback) (c : handler_call)
    : @plugin_handler.t Data Callback :=
  match c with
  | call_do_augment_hook class_name hook_name data callback =>
      plugin_handler.do_augment_hook default_plugins class_name hook_name data
        callback self
  | call_set_plugin_enabled plugin_name is_enabled =>
      plugin_handler.set_plugin_enabled required_plugins plugin_name is_enabled self
  | call_update_enabled_plugins =>
      plugin_handler.update_enabled_plugins required_plugins default_plugins self
  end.

Definition run_calls (self : @plugin_handler.t Data Callback)
    (calls : list handler_call) : @plugin_handler.t Data Callback :=
  foldl run_call self calls.

(** The dock of every loaded plugin that is required is enabled. *)
Definition required_enabled (self : @plugin_handler.t Data Callback) : Prop :=
  ∀ p, p ∈ plugin_handler.loaded_plugins self →
       plugin_handler.name p ∈ required_plugins →
       plugin_handler.ui_is_enabled p = true.

End handler_calls.

(** For examples: two plugins, of which Item Types augments the hook
    item_types, and a handler that has loaded them. *)
Definition example_plugins : list plugin_handler.Plugin :=
  [ plugin_handler.mk_plugin "Script Generator" true ["item_types"; "item_actions"]
      0 "ScriptGenerator" true false;
    plugin_handler.mk_plugin "Item Types" true ["script_templates"]
      1 "ItemsPlugin" true false ].

Definition example_handler : @plugin_handler.t string string :=
  plugin_handler.mk example_plugins true [] [] ∅ [].

(** The place that [move_one_dock] moves to from place [n] among [len]
    docks: the next one, or the one before when [reverse], going round
    at the ends. *)
Definition next_place (len n : nat) (reverse : bool) : nat :=
  if reverse then ((n + len - 1) `mod` len)%nat else ((n + 1) `mod` len)%nat.

(** The docks that [do_default_layout] puts in one area: those of the
    plugins with a dock that is large, or not, in the order of loading. *)
Definition docks_of (large : bool) (plugins : list plugin_handler.Plugin) : list nat :=
  plugin_handler.ui
  <$> List.filter (fun p => plugin_handler.has_gui p
                            && Bool.eqb (plugin_handler.ui_is_large p) large) plugins.

(** What the main window holds of an area once the docks [done] were put
    there one after the other: their order, remembered from the second
    dock on; their area; and that they are hidden.  [last_dock] is the
    last of them. *)
Definition area_laid_out (gui : @main_window.t nat) (area : Z) (done : list nat)
    (last_dock : option nat) : Prop :=
  last_dock = last done
  ∧ default [] (main_window.dock_orders gui !! area)
    = (if decide (2 ≤ length done)%nat then done else [])
  ∧ ∀ d, d ∈ done →
      main_window.dockWidgetArea gui d = area ∧ main_window.isVisible gui d = false.

(** For examples: a main window that remembers an order for the bottom
    area, where the dock 1 is hidden. *)
Definition example_window : @main_window.t nat :=
  main_window.mk {[ main_window.BottomDockWidgetArea := [0; 1; 2]%nat ]}
    (fun _ => main_window.BottomDockWidgetArea)
    (fun d => negb (Nat.eqb d 1)).

(** For examples: four plugins with docks, of which only that of Stack
    Evaluator is large, and one without. *)
Definition example_layout_handler : @plugin_handler.t string string :=
  plugin_handler.mk
    [ plugin_handler.mk_plugin "Variables" true [] 0 "Variables" true false;
      plugin_handler.mk_plugin "Stack Evaluator" true [] 1 "StackEval" true true;
      plugin_handler.mk_plugin "Script Generator" true ["item_types"; "item_actions"]
        2 "ScriptGenerator" true false;
      plugin_handler.mk_plugin "Wallet RPC" false [] 4 "WalletRPC" true false;
      plugin_handler.mk_plugin "Item Types" true ["script_templates"]
        3 "ItemsPlugin" true false ]
    true [] [] ∅ [].

(** ** script_gen.py: the widgets of the script generator *)

(** [TemplateWidget]: the template, and for each variable name of
    [variable_widgets] the text of its input widget.  An input widget
    belongs to one name, and a new [QLineEdit] is empty. *)
Module TemplateWidget.

Record t : Type := mk {
  template : script_gen.ScriptTemplate;
  variable_widgets : gmap string string
}.

(** [create_layout()]: a new input for every variable of the template. *)
Definition create_layout (self : t) : t :=
  mk (template self)
    (foldl (fun widgets var_name => <[var_name := EmptyString]> widgets)
       (variable_widgets self)
       (map_to_list (script_gen.variables (template self))).*1).

(** [set_template(template)] *)
Definition set_template (template : script_gen.ScriptTemplate) (self : t) : t :=
  let var_values := map_to_list (variable_widgets self) in
  let self := create_layout (mk template ∅) in
  foldl (fun self '(name, value) =>
           match variable_widgets self !! name with
           | Some w => mk (TemplateWidget.template self)
                         (<[name := value]> (variable_widgets self))
           | None => self
           end)
    self var_values.

End TemplateWidget.

(** [ScriptGenerator]: the template widget and the text of
    [script_output]. *)
Module ScriptGenerator.

Record t : Type := mk {
  template_widget : TemplateWidget.t;
  script_output : string
}.

(** The template that the loop of [change_template] ends with. *)
Fixpoint find_template (known : list script_gen.ScriptTemplate) (name : string)
    (template : script_gen.ScriptTemplate) : script_gen.ScriptTemplate :=
  match known with
  | [] => template
  | i :: known' =>
      find_template known' name
        (if String.eqb (script_gen.name i) name then i else template)
  end.

(** [change_template(index)], where [name] is the current text of
    [template_combo] and [known] is [known_templates]; [None] when
    [known_templates[0]] raises [IndexError]. *)
Definition change_template (known : list script_gen.ScriptTemplate) (name : string)
    (self : t) : option t :=
  match known with
  | [] => None
  | template :: _ =>
      let template := find_template known name template in
      Some (mk (TemplateWidget.set_template template (template_widget self))
              (script_gen.text template))
  end.

End ScriptGenerator.

(** * Proofs *)

(** Membership in a list that is written out. *)
Ltac in_list := repeat (apply elem_of_cons; first [by left | right]).

(** ** Bytes and little-endian integers *)

#[local] Arguments ser_read : simpl never.
#[local] Arguments read_struct : simpl never.
#[local] Arguments struct.pack : simpl never.
#[local] Arguments struct.unpack : simpl never.
#[local] Arguments byte_of_Z : simpl never.
#[local] Arguments Z_of_byte : simpl never.
#[local] Arguments VarIntSerializer.stream_serialize : simpl never.
#[local] Arguments VarIntSerializer.stream_deserialize : simpl never.

Lemma Z_of_byte_range (b : byte) : 0 ≤ Z_of_byte b < 256.
Proof.
  unfold Z_of_byte. pose proof (Byte.to_N_bounded b). lia.
Qed.

Lemma Z_of_byte_of_Z (z : Z) : Z_of_byte (byte_of_Z z) = z mod 256.
Proof.
  unfold Z_of_byte, byte_of_Z.
  pose proof (Z.mod_pos_bound z 256 ltac:(lia)) as Hz.
  destruct (Byte.of_N (Z.to_N (z mod 256))) as [b|] eqn:Hb.
  - apply Byte.to_of_N in Hb. rewrite Hb. lia.
  - apply Byte.of_N_None_iff in Hb. lia.
Qed.

Lemma length_le_bytes (w : nat) (z : Z) : length (le_bytes w z) = w.
Proof. revert z. induction w as [|w IH]; intros z; simpl; [done | by rewrite IH]. Qed.

Lemma le_value_le_bytes (w : nat) (z : Z) :
  le_value (le_bytes w z) = z mod 2 ^ (8 * Z.of_nat w).
Proof.
  revert z. induction w as [|w IH]; intros z.
  - simpl. by rewrite Z.mod_1_r.
  - cbn [le_bytes le_value]. rewrite Z_of_byte_of_Z, IH.
    replace (8 * Z.of_nat (S w)) with (8 + 8 * Z.of_nat w) by lia.
    rewrite Z.pow_add_r by lia. change (2 ^ 8) with 256.
    rewrite (Z.rem_mul_r z 256) by lia. lia.
Qed.

(** ** [struct] *)

Lemma calcsize_pos (c : struct.code) : 1 ≤ struct.calcsize c ≤ 8.
Proof. destruct c; simpl; lia. Qed.

Lemma pack_length (c : struct.code) (v : Z) (s : list byte) :
  struct.pack c v = Ok s → Z.of_nat (length s) = struct.calcsize c.
Proof.
  unfold struct.pack. destruct (struct.in_range c v); [|done].
  intros [= <-]. rewrite length_le_bytes. pose proof (calcsize_pos c). lia.
Qed.

Lemma pack_in_range (c : struct.code) (v : Z) :
  struct.in_range c v = true →
  struct.pack c v = Ok (le_bytes (Z.to_nat (struct.calcsize c)) v).
Proof. unfold struct.pack. by intros ->. Qed.

Lemma unpack_pack (c : struct.code) (v : Z) (s : list byte) :
  struct.pack c v = Ok s → struct.unpack c s = Ok v.
Proof.
  intros Hp. pose proof (pack_length _ _ _ Hp) as Hl. revert Hp.
  unfold struct.pack, struct.unpack. rewrite Hl, Z.eqb_refl.
  destruct (struct.in_range c v) eqn:Hr; [|done]. intros [= <-].
  f_equal. rewrite le_value_le_bytes.
  unfold struct.in_range, struct.lo, struct.hi in Hr.
  apply andb_true_iff in Hr as [Hlo Hhi].
  apply Z.leb_le in Hlo. apply Z.ltb_lt in Hhi.
  rewrite Z2Nat.id by (pose proof (calcsize_pos c); lia).
  fold (struct.modulus c).
  assert (struct.modulus c = 2 * (struct.modulus c / 2) ∧ 0 < struct.modulus c / 2)
    as [Hm Hm2] by (destruct c; vm_compute; split; congruence).
  destruct (struct.signed c); simpl.
  - destruct (Z.leb_spec (struct.modulus c / 2) (v mod struct.modulus c)) as [Hge|Hlt].
    + destruct (Z.lt_ge_cases v 0) as [Hneg|Hpos].
      * rewrite <- (Z.mod_unique v (struct.modulus c) (-1) (v + struct.modulus c));
          [lia | left; lia | lia].
      * rewrite Z.mod_small in Hge by lia. lia.
    + destruct (Z.lt_ge_cases v 0) as [Hneg|Hpos].
      * rewrite <- (Z.mod_unique v (struct.modulus c) (-1) (v + struct.modulus c)) in Hlt;
          [lia | left; lia | lia].
      * apply Z.mod_small. lia.
  - apply Z.mod_small. lia.
Qed.

(** ** Readers of [bitcoin.core.serialize] undo its writers *)

Lemma ser_read_app (n : Z) (s rest : list byte) :
  Z.of_nat (length s) = n → n ≤ MAX_SIZE →
  ser_read n (s ++ rest) = Ok (s, rest).
Proof.
  intros Hn Hmax. unfold ser_read.
  destruct (Z.ltb_spec MAX_SIZE n); [lia|].
  destruct (Z.ltb_spec n 0); [lia|].
  rewrite length_app.
  destruct (Z.ltb_spec (Z.of_nat (length s + length rest)) n); [lia|].
  replace (Z.to_nat n) with (length s) by lia.
  by rewrite take_app_length, drop_app_length.
Qed.

Lemma read_struct_pack (c : struct.code) (v : Z) (s rest : list byte) :
  struct.pack c v = Ok s →
  read_struct c (struct.calcsize c) (s ++ rest) = Ok (v, rest).
Proof.
  intros Hp. unfold read_struct.
  rewrite ser_read_app;
    [| by apply pack_length in Hp | pose proof (calcsize_pos c); unfold MAX_SIZE; lia].
  simpl. by rewrite (unpack_pack _ _ _ Hp).
Qed.

Lemma varint_roundtrip (i : Z) (s rest : list byte) :
  VarIntSerializer.stream_serialize i = Ok s →
  VarIntSerializer.stream_deserialize (s ++ rest) = Ok (i, rest).
Proof.
  unfold VarIntSerializer.stream_serialize, VarIntSerializer.stream_deserialize.
  destruct (Z.ltb_spec i 0); [done|].
  assert (∀ z r, ser_read 1 (byte_of_Z z :: r) = Ok ([byte_of_Z z], r)) as Hone
    by (intros z r; apply (ser_read_app 1 [_] r); [done | unfold MAX_SIZE; lia]).
  assert (∀ z, le_value [byte_of_Z z] = z mod 256) as Hval
    by (intros z; simpl; rewrite Z_of_byte_of_Z; lia).
  destruct (Z.ltb_spec i 0xfd).
  { intros [= <-]. simpl. rewrite Hone. simpl. rewrite Z_of_byte_of_Z.
    rewrite Z.add_0_r, Z.mod_small by lia.
    by destruct (Z.ltb_spec i 253); [|lia]. }
  destruct (Z.leb_spec i 0xffff).
  { destruct (struct.pack struct.H_ i) as [p|] eqn:Hp; [|done].
    intros [= <-]. simpl. rewrite Hone. unfold mbind, result_bind.
    rewrite !Hval. change (253 `mod` 256) with 253. simpl.
    exact (read_struct_pack struct.H_ i p rest Hp). }
  destruct (Z.leb_spec i 0xffffffff).
  { destruct (struct.pack struct.I_ i) as [p|] eqn:Hp; [|done].
    intros [= <-]. simpl. rewrite Hone. unfold mbind, result_bind.
    rewrite !Hval. change (254 `mod` 256) with 254. simpl.
    exact (read_struct_pack struct.I_ i p rest Hp). }
  destruct (struct.pack struct.Q_ i) as [p|] eqn:Hp; [|done].
  intros [= <-]. simpl. rewrite Hone. unfold mbind, result_bind.
  rewrite !Hval. change (255 `mod` 256) with 255. simpl.
  exact (read_struct_pack struct.Q_ i p rest Hp).
Qed.

Lemma in_range_H (v : Z) : 0 ≤ v ≤ 0xffff → struct.in_range struct.H_ v = true.
Proof.
  intros Hv. unfold struct.in_range.
  change (struct.lo struct.H_) with 0. change (struct.hi struct.H_) with 0x10000.
  apply andb_true_iff. split; [apply Z.leb_le | apply Z.ltb_lt]; lia.
Qed.

Lemma in_range_I (v : Z) : 0 ≤ v ≤ 0xffffffff → struct.in_range struct.I_ v = true.
Proof.
  intros Hv. unfold struct.in_range.
  change (struct.lo struct.I_) with 0. change (struct.hi struct.I_) with 0x100000000.
  apply andb_true_iff. split; [apply Z.leb_le | apply Z.ltb_lt]; lia.
Qed.

Lemma in_range_Q (v : Z) :
  0 ≤ v ≤ 0xffffffffffffffff → struct.in_range struct.Q_ v = true.
Proof.
  intros Hv. unfold struct.in_range.
  change (struct.lo struct.Q_) with 0.
  change (struct.hi struct.Q_) with 0x10000000000000000.
  apply andb_true_iff. split; [apply Z.leb_le | apply Z.ltb_lt]; lia.
Qed.

Lemma varint_serialize_ok (i : Z) :
  0 ≤ i ≤ 0xffffffffffffffff → ∃ s, VarIntSerializer.stream_serialize i = Ok s.
Proof.
  intros Hi. unfold VarIntSerializer.stream_serialize.
  destruct (Z.ltb_spec i 0); [lia|].
  destruct (Z.ltb_spec i 0xfd); [eauto|].
  destruct (Z.leb_spec i 0xffff).
  { rewrite pack_in_range by (apply in_range_H; lia). simpl. eauto. }
  destruct (Z.leb_spec i 0xffffffff).
  { rewrite pack_in_range by (apply in_range_I; lia). simpl. eauto. }
  rewrite pack_in_range by (apply in_range_Q; lia). simpl. eauto.
Qed.

Lemma varint_roundtrips (i : Z) :
  0 ≤ i ≤ 0xffffffffffffffff →
  roundtrips VarIntSerializer.stream_serialize VarIntSerializer.stream_deserialize i.
Proof.
  intros Hi. destruct (varint_serialize_ok i Hi) as [s Hs].
  exists s. split; [done|]. intros rest. by apply varint_roundtrip.
Qed.

Lemma struct_roundtrips (c : struct.code) (v : Z) :
  struct.in_range c v = true →
  roundtrips (struct.pack c) (read_struct c (struct.calcsize c)) v.
Proof.
  intros Hr. eexists. split; [by apply pack_in_range|].
  intros rest. apply read_struct_pack. by apply pack_in_range.
Qed.

Lemma bytes_roundtrips (b : list byte) :
  valid_bytes b = true →
  roundtrips BytesSerializer.stream_serialize BytesSerializer.stream_deserialize b.
Proof.
  intros Hb. apply Z.leb_le in Hb.
  destruct (varint_roundtrips (Z.of_nat (length b))) as (l & Hl & Hd).
  { unfold MAX_SIZE in Hb. lia. }
  exists (l ++ b). unfold BytesSerializer.stream_serialize, BytesSerializer.stream_deserialize.
  rewrite Hl. split; [done|]. intros rest.
  rewrite <- app_assoc, Hd. simpl. by apply ser_read_app.
Qed.

Section vector.
Context {A : Type}.
Variable ser : A → result (list byte).
Variable de : reader A.

Lemma each_roundtrips (objs : list A) :
  Forall (roundtrips ser de) objs →
  ∃ s, VectorSerializer.serialize_each ser objs = Ok s
       ∧ ∀ rest, VectorSerializer.deserialize_each de (length objs) (s ++ rest)
                 = Ok (objs, rest).
Proof.
  induction 1 as [|x objs (s & Hs & Hd) _ (r & Hr & IH)].
  - exists []. by split.
  - exists (s ++ r). simpl. rewrite Hs, Hr. split; [done|].
    intros rest. rewrite <- app_assoc, Hd. simpl. by rewrite IH.
Qed.

Lemma vector_roundtrips (objs : list A) :
  valid_count objs = true →
  Forall (roundtrips ser de) objs →
  roundtrips (VectorSerializer.stream_serialize ser)
             (VectorSerializer.stream_deserialize de) objs.
Proof.
  intros Hn Hall. apply Z.leb_le in Hn.
  destruct (varint_roundtrips (Z.of_nat (length objs))) as (l & Hl & Hd); [lia|].
  destruct (each_roundtrips objs Hall) as (r & Hr & Hdr).
  exists (l ++ r).
  unfold VectorSerializer.stream_serialize, VectorSerializer.stream_deserialize.
  rewrite Hl. simpl. rewrite Hr. split; [done|]. intros rest.
  rewrite <- app_assoc, Hd. simpl. by rewrite Nat2Z.id.
Qed.
End vector.

Lemma outpoint_roundtrips (p : COutPoint.t) :
  valid_outpoint p = true →
  roundtrips COutPoint.stream_serialize COutPoint.stream_deserialize p.
Proof.
  intros [Hh Hn]%andb_true_iff.
  destruct (struct_roundtrips _ _ Hn) as (s & Hs & Hd).
  exists (COutPoint.hash p ++ s).
  unfold COutPoint.stream_serialize, COutPoint.stream_deserialize.
  rewrite Hh, Hs. split; [done|]. intros rest. apply Z.eqb_eq in Hh.
  rewrite <- app_assoc, ser_read_app; [| done | unfold MAX_SIZE; lia].
  simpl. change 4 with (struct.calcsize struct.I_). rewrite Hd. simpl.
  by destruct p.
Qed.

Lemma txin_roundtrips (i : CTxIn.t) :
  valid_txin i = true →
  roundtrips CTxIn.stream_serialize CTxIn.stream_deserialize i.
Proof.
  intros [[Hp Hs]%andb_true_iff Hq]%andb_true_iff.
  destruct (outpoint_roundtrips _ Hp) as (p & Hp1 & Hp2).
  destruct (bytes_roundtrips _ Hs) as (s & Hs1 & Hs2).
  destruct (struct_roundtrips _ _ Hq) as (q & Hq1 & Hq2).
  exists (p ++ s ++ q). unfold CTxIn.stream_serialize, CTxIn.stream_deserialize.
  rewrite Hp1. simpl. rewrite Hs1. simpl. rewrite Hq1. split; [done|].
  intros rest. rewrite <- !app_assoc, Hp2. simpl. rewrite Hs2. simpl.
  change 4 with (struct.calcsize struct.I_). rewrite Hq2. simpl.
  by destruct i.
Qed.

Lemma txout_roundtrips (o : CTxOut.t) :
  valid_txout o = true →
  roundtrips CTxOut.stream_serialize CTxOut.stream_deserialize o.
Proof.
  intros [Hv Hs]%andb_true_iff.
  destruct (struct_roundtrips _ _ Hv) as (v & Hv1 & Hv2).
  destruct (bytes_roundtrips _ Hs) as (s & Hs1 & Hs2).
  exists (v ++ s). unfold CTxOut.stream_serialize, CTxOut.stream_deserialize.
  rewrite Hv1. simpl. rewrite Hs1. split; [done|].
  intros rest. rewrite <- !app_assoc.
  change 8 with (struct.calcsize struct.q_). rewrite Hv2. simpl. rewrite Hs2.
  simpl. by destruct o.
Qed.

(** ** The store: allocation only adds list objects *)

Lemma new_list_fresh (l : list Field.t) (σ : store) :
  lists σ !! (new_list l σ).1 = None.
Proof. simpl. apply not_elem_of_dom, is_fresh. Qed.

Lemma deref_new_list (l : list Field.t) (σ : store) :
  deref (new_list l σ).2 (new_list l σ).1 = l.
Proof. unfold deref. simpl. by rewrite lookup_insert_eq. Qed.

Lemma new_list_keeps (l x : list Field.t) (σ : store) (r : loc) :
  lists σ !! r = Some x → lists (new_list l σ).2 !! r = Some x.
Proof.
  intros Hr. simpl. rewrite lookup_insert_ne; [done|].
  intros <-. pose proof (new_list_fresh l σ) as Hf. simpl in Hf. congruence.
Qed.

Lemma deref_keeps (σ σ' : store) (r : loc) (x : list Field.t) :
  (∀ r x, lists σ !! r = Some x → lists σ' !! r = Some x) →
  lists σ !! r = Some x → deref σ' r = x.
Proof. intros Hk Hr. unfold deref. by rewrite (Hk _ _ Hr). Qed.

Lemma set_tx_fields_keeps (l x : list Field.t) (σ : store) (r : loc) :
  lists σ !! r = Some x → lists (chainparams.set_tx_fields l σ) !! r = Some x.
Proof. apply new_list_keeps. Qed.

Lemma set_block_header_fields_keeps (l x : list Field.t) (σ : store) (r : loc) :
  lists σ !! r = Some x → lists (chainparams.set_block_header_fields l σ) !! r = Some x.
Proof. apply new_list_keeps. Qed.

Lemma set_block_fields_keeps (l x : list Field.t) (σ : store) (r : loc) :
  lists σ !! r = Some x → lists (chainparams.set_block_fields l σ) !! r = Some x.
Proof. apply new_list_keeps. Qed.

Lemma set_tx_fields_new (l : list Field.t) (σ : store) :
  lists (chainparams.set_tx_fields l σ)
    !! transaction_fields (chainparams.set_tx_fields l σ) = Some l.
Proof. simpl. by rewrite lookup_insert_eq. Qed.

Lemma set_block_header_fields_new (l : list Field.t) (σ : store) :
  lists (chainparams.set_block_header_fields l σ)
    !! block_header_fields (chainparams.set_block_header_fields l σ) = Some l.
Proof. simpl. by rewrite lookup_insert_eq. Qed.

Lemma set_block_fields_new (l : list Field.t) (σ : store) :
  lists (chainparams.set_block_fields l σ)
    !! block_fields (chainparams.set_block_fields l σ) = Some l.
Proof. simpl. by rewrite lookup_insert_eq. Qed.

Lemma set_to_preset_keeps (name : string) (σ : store) (r : loc) (x : list Field.t) :
  lists σ !! r = Some x → lists (chainparams.set_to_preset name σ).2 !! r = Some x.
Proof.
  intros Hr. unfold chainparams.set_to_preset.
  destruct (chainparams.presets !! name) as [p|]; [|done].
  by apply set_block_fields_keeps, set_block_header_fields_keeps, set_tx_fields_keeps.
Qed.

(** What a successful [set_to_preset] leaves in the store. *)
Lemma set_to_preset_sets (name : string) (p : ParamsPreset.t) (σ : store) :
  chainparams.presets !! name = Some p →
  ∃ σ', chainparams.set_to_preset name σ = (Ok (), σ')
    ∧ deref σ' (transaction_fields σ') = ParamsPreset.tx_fields p
    ∧ deref σ' (block_header_fields σ') = ParamsPreset.block_header_fields p
    ∧ deref σ' (block_fields σ') = ParamsPreset.block_fields p
    ∧ overridden_opcodes σ'
      = foldl (fun m '(value, name, func) => <[value := (name, func)]> m) ∅
          (ParamsPreset.opcode_overrides p).
Proof.
  intros Hp. unfold chainparams.set_to_preset. rewrite Hp.
  eexists. split; [reflexivity|].
  set (σ1 := chainparams.set_tx_fields _ σ).
  set (σ2 := chainparams.set_block_header_fields _ σ1).
  set (σ3 := chainparams.set_block_fields _ σ2).
  repeat split.
  - apply (deref_keeps σ1); [|apply set_tx_fields_new].
    intros r x Hr. by apply set_block_fields_keeps, set_block_header_fields_keeps.
  - apply (deref_keeps σ2); [|apply set_block_header_fields_new].
    intros r x Hr. by apply set_block_fields_keeps.
  - apply (deref_keeps σ3); [done | apply set_block_fields_new].
Qed.

Lemma presets_of_list (p : ParamsPreset.t) :
  p ∈ chainparams.presets_list →
  chainparams.presets !! ParamsPreset.name p = Some p.
Proof.
  unfold chainparams.presets_list. intros Hp.
  repeat (apply elem_of_cons in Hp as [->|Hp]; [by vm_compute|]).
  by apply elem_of_nil in Hp.
Qed.

Lemma presets_lookup_Some (name : string) (p : ParamsPreset.t) :
  chainparams.presets !! name = Some p →
  p ∈ chainparams.presets_list ∧ ParamsPreset.name p = name.
Proof.
  unfold chainparams.presets, chainparams.presets_list. cbn [foldl]. intros Hp.
  repeat (apply lookup_insert_Some in Hp as [[<- <-]|[_ Hp]];
          [split; [set_solver | reflexivity]|]).
  by rewrite lookup_empty in Hp.
Qed.

(** ** [Transaction]: construction and the schema an instance reads *)

Lemma init_fields_None vin vout locktime version kwfields (σ σ' : store)
    (A : Transaction.t) :
  Transaction.init vin vout locktime version None kwfields σ = (Ok A, σ') →
  lists σ' !! Transaction.fields A = Some (deref σ (transaction_fields σ))
  ∧ ∀ r x, lists σ !! r = Some x → lists σ' !! r = Some x.
Proof.
  unfold Transaction.init.
  destruct (Transaction.CMutableTransaction_init _ _ _ _) as [a|]; [|done].
  unfold Transaction.set_serialization.
  destruct (new_list (deref σ (transaction_fields σ)) σ) as [r σ1] eqn:Hn.
  intros [= <- <-]. simpl.
  pose proof (deref_new_list (deref σ (transaction_fields σ)) σ) as Hd.
  pose proof (new_list_keeps (deref σ (transaction_fields σ))) as Hk.
  rewrite Hn in Hd. simpl in Hd. split.
  - assert (r = (new_list (deref σ (transaction_fields σ)) σ).1) as -> by by rewrite Hn.
    assert (σ1 = (new_list (deref σ (transaction_fields σ)) σ).2) as -> by by rewrite Hn.
    simpl. by rewrite lookup_insert_eq.
  - intros r' x Hr. specialize (Hk x σ r' Hr). by rewrite Hn in Hk.
Qed.

Lemma init_fields_Some vin vout locktime version r kwfields (σ σ' : store)
    (A : Transaction.t) :
  Transaction.init vin vout locktime version (Some r) kwfields σ = (Ok A, σ') →
  Transaction.fields A = r ∧ σ' = σ.
Proof.
  unfold Transaction.init.
  destruct (Transaction.CMutableTransaction_init _ _ _ _) as [a|]; [|done].
  simpl. by intros [= <- <-].
Qed.

Lemma stream_deserialize_unfold (f : list byte) (σ : store) :
  Transaction.stream_deserialize f σ =
    (let flds := deref σ (transaction_fields σ) in
     (('(a, f) ← Transaction.deserialize_fields flds
                   (Transaction.fill_defaults flds init_attrs) f;
       Ok (Transaction.mk (new_list flds σ).1 a, f)),
      (new_list flds σ).2)).
Proof.
  unfold Transaction.stream_deserialize, Transaction.init.
  change (Transaction.CMutableTransaction_init None None 0 1) with (Ok init_attrs).
  unfold Transaction.set_serialization.
  pose proof (deref_new_list (deref σ (transaction_fields σ)) σ) as Hd.
  destruct (new_list (deref σ (transaction_fields σ)) σ) as [r σ1] eqn:Hn.
  cbn [Transaction.fields Transaction.attrs fst snd] in *.
  rewrite Hd. by rewrite (left_id_L ∅ (∪)).
Qed.

(** ** Presets *)

(** C4: [set_to_preset name] either raises [KeyError] (what the
    specification calls UnknownPresetError), which it does exactly when
    [name] is not the name of a registered preset and which leaves the
    whole store as it was (the three active schemas and the opcode-override
    table included), or it succeeds and has set the transaction schema, the
    block header schema, the block body schema and the opcode-override
    table to those of the preset of that name. *)
Theorem set_to_preset_unknown_or_all (name : string) (σ : store) :
  ((name ∉ (ParamsPreset.name <$> chainparams.presets_list))
   ∧ chainparams.set_to_preset name σ = (Raise KeyError, σ))
  ∨ (∃ p σ',
        p ∈ chainparams.presets_list ∧ ParamsPreset.name p = name
        ∧ chainparams.set_to_preset name σ = (Ok (), σ')
        ∧ deref σ' (transaction_fields σ') = ParamsPreset.tx_fields p
        ∧ deref σ' (block_header_fields σ') = ParamsPreset.block_header_fields p
        ∧ deref σ' (block_fields σ') = ParamsPreset.block_fields p
        ∧ overridden_opcodes σ'
          = foldl (fun m '(value, name, func) => <[value := (name, func)]> m) ∅
              (ParamsPreset.opcode_overrides p)).
Proof.
  destruct (chainparams.presets !! name) as [p|] eqn:Hp.
  - right. destruct (presets_lookup_Some _ _ Hp) as [Hin Hname].
    destruct (set_to_preset_sets _ _ σ Hp) as (σ' & Hs).
    exists p, σ'. by repeat split; try apply Hs.
  - left. split.
    + intros (p & -> & Hin)%list_elem_of_fmap.
      rewrite (presets_of_list p Hin) in Hp. done.
    + unfold chainparams.set_to_preset. by rewrite Hp.
Qed.

(** C7: with the Clams preset set, the override table maps opcode
    value 0xb0 to OP_CHECKLOCKTIMEVERIFY with the Clams handler, which is
    the handler that executing 0xb0 dispatches to; once the Bitcoin preset
    is set, executing 0xb0 dispatches to the base table's handler. *)
Theorem clams_override_scoped (σ : store) :
  let σ1 := (chainparams.set_to_preset "Clams" σ).2 in
  let σ2 := (chainparams.set_to_preset "Bitcoin" σ1).2 in
  overridden_opcodes σ1 !! 0xb0
    = Some ("OP_CHECKLOCKTIMEVERIFY"%string, clams_checklocktimeverify)
  ∧ opcodes.active_handler σ1 0xb0 = clams_checklocktimeverify
  ∧ opcodes.active_handler σ2 0xb0 = base_handler 0xb0.
Proof.
  intros σ1 σ2.
  destruct (set_to_preset_sets "Clams" chainparams.ClamsPreset σ) as (τ1 & H1 & _ & _ & _ & Ho1);
    [by vm_compute|].
  destruct (set_to_preset_sets "Bitcoin" chainparams.BitcoinPreset σ1) as (τ2 & H2 & _ & _ & _ & Ho2);
    [by vm_compute|].
  subst σ2. rewrite H2. subst σ1. rewrite H1. cbn [snd].
  unfold opcodes.active_handler. rewrite Ho1, Ho2.
  change (ParamsPreset.opcode_overrides chainparams.ClamsPreset)
    with [(0xb0, "OP_CHECKLOCKTIMEVERIFY"%string, clams_checklocktimeverify)].
  change (ParamsPreset.opcode_overrides chainparams.BitcoinPreset)
    with (@nil (Z * string * handler)).
  cbn [foldl]. by rewrite lookup_insert_eq, lookup_empty.
Qed.

(** C2: an entity constructed while preset [P1] is active keeps the
    list of fields it captured: after [set_to_preset P2], whatever [P2]
    is, its serialized bytes are what they were before, the schema it
    reads is unchanged and, when it was constructed without an explicit
    [fields] argument, is still the transaction schema of [P1]. *)
Theorem schema_isolation (σ σ1 σ2 : store) (P1 P2 : string)
    (vin : option (list CTxIn.t)) (vout : option (list CTxOut.t))
    (locktime version : Z) (fields : option loc)
    (kwfields : gmap string pyval) (A : Transaction.t) :
  chainparams.set_to_preset P1 σ = (Ok (), σ1) →
  (∀ r, fields = Some r → is_Some (lists σ1 !! r)) →
  Transaction.init vin vout locktime version fields kwfields σ1 = (Ok A, σ2) →
  let σ3 := (chainparams.set_to_preset P2 σ2).2 in
  Transaction.stream_serialize σ3 A = Transaction.stream_serialize σ2 A
  ∧ deref σ3 (Transaction.fields A) = deref σ2 (Transaction.fields A)
  ∧ (fields = None → ∀ p, chainparams.presets !! P1 = Some p →
       deref σ3 (Transaction.fields A) = ParamsPreset.tx_fields p).
Proof.
  intros H1 Hf HA σ3.
  assert (∃ x, lists σ2 !! Transaction.fields A = Some x
               ∧ (fields = None → x = deref σ1 (transaction_fields σ1)))
    as (x & Hx & Hx1).
  { destruct fields as [r|].
    - apply init_fields_Some in HA as [-> ->].
      destruct (Hf r eq_refl) as [x Hx]. by exists x.
    - apply init_fields_None in HA as [HA _]. eauto. }
  assert (deref σ3 (Transaction.fields A) = deref σ2 (Transaction.fields A)) as Hd.
  { unfold deref at 2. rewrite Hx. simpl.
    apply (deref_keeps σ2); [|done]. intros r y. apply set_to_preset_keeps. }
  split; [|split]; [| done |].
  - unfold Transaction.stream_serialize. by rewrite Hd.
  - intros Hnone p Hp. rewrite Hd. unfold deref at 1. rewrite Hx. simpl.
    rewrite (Hx1 Hnone).
    destruct (set_to_preset_sets _ _ σ Hp) as (τ & Hτ & Htx & _).
    rewrite H1 in Hτ. by injection Hτ as <-.
Qed.

Lemma schema_isolation_witness :
  ∃ σ1 σ2 A,
    chainparams.set_to_preset "Bitcoin" empty_store = (Ok (), σ1)
    ∧ Transaction.init None None 0 1 None ∅ σ1 = (Ok A, σ2)
    ∧ Transaction.stream_serialize (chainparams.set_to_preset "Clams" σ2).2 A
      = Transaction.stream_serialize σ2 A.
Proof.
  eexists _, _, _. split; [by vm_compute|]. split; [by vm_compute|].
  eapply (schema_isolation empty_store _ _ "Bitcoin" "Clams" None None 0 1 None ∅).
  - by vm_compute.
  - intros r [=].
  - by vm_compute.
Defined.

(** C3: with the Bitcoin preset active, whose transaction schema is
    nVersion ('<i', 4 bytes), vin, vout, nLockTime ('<I', 4 bytes),
    the bytes 01000000 00 00 00000000 deserialize, with nothing left
    over, to a transaction whose attributes are exactly nVersion = 1,
    vin = [], vout = [], nLockTime = 0, and that transaction serializes
    to the same ten bytes. *)
Theorem bitcoin_empty_tx (σ : store) :
  let σ1 := (chainparams.set_to_preset "Bitcoin" σ).2 in
  deref σ1 (transaction_fields σ1)
  = [ Field.mk "nVersion" (fmt_struct struct.i_) (Some 4) (PInt 1);
      Field.mk "vin" inputs None PNone;
      Field.mk "vout" outputs None PNone;
      Field.mk "nLockTime" (fmt_struct struct.I_) (Some 4) (PInt 0) ]
  ∧ ∃ tx σ2,
      Transaction.stream_deserialize empty_tx_bytes σ1 = (Ok (tx, []), σ2)
      ∧ Transaction.attrs tx
        = <["nVersion" := PInt 1]>
            (<["vin" := PTxIns []]>
               (<["vout" := PTxOuts []]> (<["nLockTime" := PInt 0]> ∅)))
      ∧ Transaction.stream_serialize σ2 tx = Ok empty_tx_bytes.
Proof.
  intros σ1.
  destruct (set_to_preset_sets "Bitcoin" chainparams.BitcoinPreset σ)
    as (τ & Hτ & Htx & _); [by vm_compute|].
  subst σ1. rewrite Hτ. cbn [snd]. split; [exact Htx|].
  rewrite stream_deserialize_unfold. cbv zeta. rewrite Htx.
  assert (Transaction.deserialize_fields
            (ParamsPreset.tx_fields chainparams.BitcoinPreset)
            (Transaction.fill_defaults
               (ParamsPreset.tx_fields chainparams.BitcoinPreset) init_attrs)
            empty_tx_bytes
          = Ok (<["nVersion" := PInt 1]>
                  (<["vin" := PTxIns []]>
                     (<["vout" := PTxOuts []]> (<["nLockTime" := PInt 0]> ∅))), []))
    as Hd by (vm_compute; reflexivity).
  rewrite Hd. cbn [mbind result_bind].
  eexists _, _. split; [reflexivity|]. split; [reflexivity|].
  unfold Transaction.stream_serialize. cbn [Transaction.fields Transaction.attrs].
  rewrite deref_new_list. by vm_compute.
Qed.

(** ** Fields: reading what was written *)

Lemma deserialize_struct_field (nm : string) (c : struct.code) (n : Z)
    (d : pyval) (a : gmap string pyval) (f : list byte) :
  Transaction.deserialize_field (Field.mk nm (fmt_struct c) (Some n) d) a f
  = '(v, f) ← read_struct c n f; Ok (<[nm := PInt v]> a, f).
Proof.
  unfold Transaction.deserialize_field, read_struct. simpl.
  destruct (ser_read n f) as [[s f']|]; [|done]. simpl.
  by destruct (struct.unpack c s).
Qed.

Lemma field_roundtrip (fld : Field.t) (a a0 : gmap string pyval) (v : pyval) :
  consistent_field fld = true →
  a !! Field.name fld = Some v →
  valid_value (Field.format fld) v = true →
  ∃ s, Transaction.serialize_field a fld = Ok s
       ∧ ∀ rest, Transaction.deserialize_field fld a0 (s ++ rest)
                 = Ok (<[Field.name fld := v]> a0, rest).
Proof.
  destruct fld as [nm f nb d]. unfold consistent_field. cbn [Field.name Field.format Field.num_bytes].
  intros Hc Ha Hv. destruct f as [c| | | |]; [| | | |done].
  - destruct nb as [n|]; [|done]. apply Z.eqb_eq in Hc as ->.
    destruct v as [|z| | |]; try done. simpl in Hv.
    destruct (struct_roundtrips c z Hv) as (s & Hs & Hd).
    exists s. unfold Transaction.serialize_field, Transaction.getattr. simpl.
    rewrite Ha. split; [done|]. intros rest.
    by rewrite deserialize_struct_field, Hd.
  - apply String.eqb_eq in Hc as ->.
    destruct v as [| | |l|]; try done. simpl in Hv.
    apply andb_true_iff in Hv as [Hn Hall].
    destruct (vector_roundtrips CTxIn.stream_serialize CTxIn.stream_deserialize l Hn)
      as (s & Hs & Hd).
    { apply Forall_forall. intros i Hi. apply txin_roundtrips.
      rewrite forallb_forall in Hall. by apply Hall, list_elem_of_In. }
    exists s. unfold Transaction.serialize_field, Transaction.deserialize_field,
      Transaction.getattr. simpl. rewrite Ha. split; [done|]. intros rest.
    by rewrite Hd.
  - apply String.eqb_eq in Hc as ->.
    destruct v as [| | | |l]; try done. simpl in Hv.
    apply andb_true_iff in Hv as [Hn Hall].
    destruct (vector_roundtrips CTxOut.stream_serialize CTxOut.stream_deserialize l Hn)
      as (s & Hs & Hd).
    { apply Forall_forall. intros i Hi. apply txout_roundtrips.
      rewrite forallb_forall in Hall. by apply Hall, list_elem_of_In. }
    exists s. unfold Transaction.serialize_field, Transaction.deserialize_field,
      Transaction.getattr. simpl. rewrite Ha. split; [done|]. intros rest.
    by rewrite Hd.
  - destruct v as [| |b| |]; try done. simpl in Hv.
    destruct (bytes_roundtrips b Hv) as (s & Hs & Hd).
    exists s. unfold Transaction.serialize_field, Transaction.deserialize_field,
      Transaction.getattr. simpl. rewrite Ha. split; [done|]. intros rest.
    by rewrite Hd.
Qed.

Lemma fields_roundtrip (flds : list Field.t) (a : gmap string pyval) :
  consistent_schema flds = true →
  valid_entity flds a = true →
  ∃ s, Transaction.serialize_fields a flds = Ok s
       ∧ ∀ a0 rest, ∃ a',
           Transaction.deserialize_fields flds a0 (s ++ rest) = Ok (a', rest)
           ∧ ∀ k, a' !! k = if bool_decide (k ∈ Field.name <$> flds)
                            then a !! k else a0 !! k.
Proof.
  induction flds as [|fld flds IH]; intros Hc Hv.
  - exists []. split; [done|]. intros a0 rest. exists a0. split; [done|].
    intros k. rewrite bool_decide_eq_false_2; [done|]. apply not_elem_of_nil.
  - simpl in Hc, Hv. apply andb_true_iff in Hc as [Hc Hcs].
    apply andb_true_iff in Hv as [Hv Hvs].
    destruct (a !! Field.name fld) as [v|] eqn:Ha; [|done].
    destruct (IH Hcs Hvs) as (r & Hr & Hd).
    destruct (field_roundtrip fld a a v Hc Ha Hv) as (s & Hs & _).
    exists (s ++ r). simpl. rewrite Hs. simpl. rewrite Hr. split; [done|].
    intros a0 rest.
    destruct (field_roundtrip fld a a0 v Hc Ha Hv) as (s' & Hs' & Hd').
    rewrite Hs in Hs'. injection Hs' as <-.
    rewrite <- app_assoc, Hd'. simpl.
    destruct (Hd (<[Field.name fld := v]> a0) rest) as (a' & Ha' & Hk).
    exists a'. split; [done|]. intros k. rewrite Hk.
    change (Field.name <$> fld :: flds)
      with (Field.name fld :: (Field.name <$> flds)).
    destruct (decide (k = Field.name fld)) as [->|Hne].
    + rewrite (bool_decide_eq_true_2 (_ ∈ _ :: _)) by (apply elem_of_cons; by left).
      case_bool_decide; [done|]. by rewrite lookup_insert_eq.
    + rewrite lookup_insert_ne by done.
      case_bool_decide as H1; case_bool_decide as H2; try done.
      * exfalso. apply H2, elem_of_cons. by right.
      * exfalso. apply elem_of_cons in H2 as [?|?]; done.
Qed.

Lemma fill_defaults_other (flds : list Field.t) (a : gmap string pyval) (k : string) :
  k ∉ (Field.name <$> flds) → Transaction.fill_defaults flds a !! k = a !! k.
Proof.
  unfold Transaction.fill_defaults. revert a.
  induction flds as [|fld flds IH]; intros a Hk; [done|].
  change (Field.name <$> fld :: flds)
    with (Field.name fld :: (Field.name <$> flds)) in Hk.
  apply not_elem_of_cons in Hk as [Hne Hk].
  simpl. rewrite IH by done.
  destruct (a !! Field.name fld); [done|]. by rewrite lookup_insert_ne.
Qed.

Lemma init_attrs_other (names : list string) (k : string) :
  "nVersion"%string ∈ names → "vin"%string ∈ names → "vout"%string ∈ names →
  "nLockTime"%string ∈ names → k ∉ names → init_attrs !! k = None.
Proof.
  intros H1 H2 H3 H4 Hk. unfold init_attrs.
  rewrite !lookup_insert_ne by (intros <-; done). apply lookup_empty.
Qed.

Lemma builtin_schema (p : ParamsPreset.t) :
  p ∈ chainparams.presets_list →
  consistent_schema (ParamsPreset.tx_fields p) = true
  ∧ ∀ k, k ∉ (Field.name <$> ParamsPreset.tx_fields p) → init_attrs !! k = None.
Proof.
  unfold chainparams.presets_list. intros Hp.
  repeat (apply elem_of_cons in Hp as [->|Hp];
          [split; [reflexivity|];
           intros k; apply init_attrs_other; simpl; set_solver|]).
  by apply elem_of_nil in Hp.
Qed.

(** ** Round trip *)

(** C1, as the code has it: for each of the four built-in presets,
    when the preset's transaction schema is the active one, a
    syntactically valid entity built on that schema (integers within
    the range of their formats, byte strings of at most [MAX_SIZE]
    bytes, outpoint hashes of 32 bytes) serializes, and deserializing
    the bytes yields,
    with nothing left over, an entity on the same schema whose every
    schema field has the value it has in the original; the entity read
    has no other attributes. *)
Theorem roundtrip_builtin_presets (p : ParamsPreset.t) (σ : store)
    (tx : Transaction.t) :
  p ∈ chainparams.presets_list →
  deref σ (transaction_fields σ) = ParamsPreset.tx_fields p →
  deref σ (Transaction.fields tx) = ParamsPreset.tx_fields p →
  valid_entity (ParamsPreset.tx_fields p) (Transaction.attrs tx) = true →
  ∃ s tx' σ',
    Transaction.stream_serialize σ tx = Ok s
    ∧ Transaction.stream_deserialize s σ = (Ok (tx', []), σ')
    ∧ deref σ' (Transaction.fields tx') = ParamsPreset.tx_fields p
    ∧ (∀ fld, fld ∈ ParamsPreset.tx_fields p →
         Transaction.attrs tx' !! Field.name fld
         = Transaction.attrs tx !! Field.name fld)
    ∧ (∀ k, k ∉ (Field.name <$> ParamsPreset.tx_fields p) →
         Transaction.attrs tx' !! k = None).
Proof.
  intros Hp Hact Htx Hv.
  destruct (builtin_schema p Hp) as [Hc Hbase].
  destruct (fields_roundtrip _ _ Hc Hv) as (s & Hs & Hd).
  destruct (Hd (Transaction.fill_defaults (ParamsPreset.tx_fields p) init_attrs) [])
    as (a' & Ha' & Hk).
  rewrite app_nil_r in Ha'.
  exists s. eexists _, _. split; [|split; [|split; [|split]]].
  - unfold Transaction.stream_serialize. by rewrite Htx.
  - rewrite stream_deserialize_unfold. cbv zeta. rewrite Hact, Ha'. reflexivity.
  - cbn [Transaction.fields]. apply deref_new_list.
  - intros fld Hfld. cbn [Transaction.attrs]. rewrite Hk.
    rewrite bool_decide_eq_true_2; [done|]. by apply list_elem_of_fmap_2.
  - intros k Hnot. cbn [Transaction.attrs]. rewrite Hk.
    rewrite bool_decide_eq_false_2 by done.
    rewrite fill_defaults_other by done. by apply Hbase.
Qed.

Lemma roundtrip_builtin_presets_witness :
  chainparams.ClamsPreset ∈ chainparams.presets_list
  ∧ deref clams_store (transaction_fields clams_store)
    = ParamsPreset.tx_fields chainparams.ClamsPreset
  ∧ deref clams_store (Transaction.fields clams_tx)
    = ParamsPreset.tx_fields chainparams.ClamsPreset
  ∧ valid_entity (ParamsPreset.tx_fields chainparams.ClamsPreset)
      (Transaction.attrs clams_tx) = true
  ∧ ∃ s tx' σ',
      Transaction.stream_serialize clams_store clams_tx = Ok s
      ∧ Transaction.stream_deserialize s clams_store = (Ok (tx', []), σ')
      ∧ Transaction.attrs tx' !! "ClamSpeech"%string
        = Some (PBytes [Byte.x68; Byte.x69])
      ∧ Transaction.attrs tx' !! "Timestamp"%string = Some (PInt 7).
Proof.
  assert (chainparams.ClamsPreset ∈ chainparams.presets_list) as Hin
    by (unfold chainparams.presets_list; in_list).
  split; [exact Hin|].
  split; [by vm_compute|]. split; [by vm_compute|]. split; [by vm_compute|].
  destruct (roundtrip_builtin_presets chainparams.ClamsPreset clams_store clams_tx)
    as (s & tx' & σ' & Hs & Hd & _ & Hf & _);
    [exact Hin | by vm_compute | by vm_compute | by vm_compute |].
  exists s, tx', σ'. split; [done|]. split; [done|]. split.
  - assert (Field.mk "ClamSpeech" bytes None (PBytes [])
            ∈ ParamsPreset.tx_fields chainparams.ClamsPreset) as Hfld
      by (unfold chainparams.ClamsPreset; simpl; in_list).
    apply Hf in Hfld. cbn [Field.name] in Hfld. rewrite Hfld. by vm_compute.
  - assert (Field.mk "Timestamp" (fmt_struct struct.i_) (Some 4) (PInt 0)
            ∈ ParamsPreset.tx_fields chainparams.ClamsPreset) as Hfld
      by (unfold chainparams.ClamsPreset; simpl; in_list).
    apply Hf in Hfld. cbn [Field.name] in Hfld. rewrite Hfld. by vm_compute.
Defined.

(** A byte string longer than [MAX_SIZE] is written, and refused when
    read back. *)
Lemma bytes_refused (b : list byte) :
  MAX_SIZE < Z.of_nat (length b) ≤ 0xffffffffffffffff →
  ∃ s, BytesSerializer.stream_serialize b = Ok s
       ∧ ∀ rest, BytesSerializer.stream_deserialize (s ++ rest)
                 = Raise SerializationError.
Proof.
  intros [Hlo Hhi].
  destruct (varint_serialize_ok (Z.of_nat (length b))) as [l Hl]; [lia|].
  exists (l ++ b). unfold BytesSerializer.stream_serialize, BytesSerializer.stream_deserialize.
  rewrite Hl. split; [done|]. intros rest. rewrite <- app_assoc.
  rewrite (varint_roundtrip _ _ _ Hl). cbn [mbind result_bind].
  unfold ser_read. by rewrite (proj2 (Z.ltb_lt _ _) Hlo).
Qed.

Lemma txin_refused (i : CTxIn.t) :
  valid_outpoint (CTxIn.prevout i) = true →
  MAX_SIZE < Z.of_nat (length (CTxIn.scriptSig i)) ≤ 0xffffffffffffffff →
  struct.in_range struct.I_ (CTxIn.nSequence i) = true →
  ∃ s, CTxIn.stream_serialize i = Ok s
       ∧ ∀ rest, CTxIn.stream_deserialize (s ++ rest) = Raise SerializationError.
Proof.
  intros Hp Hb Hq.
  destruct (outpoint_roundtrips _ Hp) as (p & Hps & Hpd).
  destruct (bytes_refused _ Hb) as (s & Hss & Hsd).
  exists (p ++ s ++ le_bytes (Z.to_nat (struct.calcsize struct.I_)) (CTxIn.nSequence i)).
  unfold CTxIn.stream_serialize, CTxIn.stream_deserialize.
  rewrite Hps, Hss, (pack_in_range _ _ Hq). split; [done|].
  intros rest. rewrite <- app_assoc, Hpd. cbn [mbind result_bind].
  by rewrite <- app_assoc, Hsd.
Qed.

Lemma inputs_field_refused (nm : string) (nb : option Z) (d : pyval)
    (a a0 : gmap string pyval) (i : CTxIn.t) :
  a !! "vin"%string = Some (PTxIns [i]) →
  valid_outpoint (CTxIn.prevout i) = true →
  MAX_SIZE < Z.of_nat (length (CTxIn.scriptSig i)) ≤ 0xffffffffffffffff →
  struct.in_range struct.I_ (CTxIn.nSequence i) = true →
  ∃ s, Transaction.serialize_field a (Field.mk nm inputs nb d) = Ok s
       ∧ ∀ rest, Transaction.deserialize_field (Field.mk nm inputs nb d) a0 (s ++ rest)
                 = Raise SerializationError.
Proof.
  intros Ha Hp Hb Hq. destruct (txin_refused i Hp Hb Hq) as (s & Hs & Hd).
  destruct (varint_serialize_ok 1) as [l Hl]; [lia|].
  exists (l ++ s ++ []).
  unfold Transaction.serialize_field, Transaction.deserialize_field, Transaction.getattr.
  cbn [Field.format Field.name]. rewrite Ha. cbn [mbind result_bind Transaction.as_txins].
  unfold VectorSerializer.stream_serialize, VectorSerializer.stream_deserialize.
  change (Z.of_nat (length [i])) with 1. cbn [VectorSerializer.serialize_each].
  rewrite Hl, Hs. cbn [mbind result_bind]. split; [done|].
  intros rest. rewrite <- app_assoc, (varint_roundtrip _ _ _ Hl).
  cbn [mbind result_bind]. change (Z.to_nat 1) with 1%nat.
  cbn [VectorSerializer.deserialize_each]. by rewrite <- app_assoc, Hd.
Qed.

(** On the Bitcoin schema: an entity whose one input has a script
    longer than [MAX_SIZE] is written, and reading the bytes back
    raises [SerializationError]. *)
Lemma bitcoin_oversized_script (i : CTxIn.t) :
  valid_outpoint (CTxIn.prevout i) = true →
  MAX_SIZE < Z.of_nat (length (CTxIn.scriptSig i)) ≤ 0xffffffffffffffff →
  struct.in_range struct.I_ (CTxIn.nSequence i) = true →
  ∃ s, Transaction.serialize_fields (<["vin" := PTxIns [i]]> init_attrs)
         (ParamsPreset.tx_fields chainparams.BitcoinPreset) = Ok s
       ∧ ∀ a0 rest,
           Transaction.deserialize_fields
             (ParamsPreset.tx_fields chainparams.BitcoinPreset) a0 (s ++ rest)
           = Raise SerializationError.
Proof.
  intros Hp Hb Hq. set (a := <["vin" := PTxIns [i]]> init_attrs).
  change (ParamsPreset.tx_fields chainparams.BitcoinPreset)
    with [ Field.mk "nVersion" (fmt_struct struct.i_) (Some 4) (PInt 1);
           Field.mk "vin" inputs None PNone;
           Field.mk "vout" outputs None PNone;
           Field.mk "nLockTime" (fmt_struct struct.I_) (Some 4) (PInt 0) ].
  destruct (field_roundtrip (Field.mk "nVersion" (fmt_struct struct.i_) (Some 4) (PInt 1))
              a ∅ (PInt 1)) as (s1 & Hs1 & _); [done | | done |].
  { unfold a. by rewrite lookup_insert_ne. }
  destruct (inputs_field_refused "vin" None PNone a ∅ i) as (s2 & Hs2 & _);
    [by unfold a; rewrite lookup_insert_eq | done | done | done |].
  destruct (field_roundtrip (Field.mk "vout" outputs None PNone) a ∅ (PTxOuts []))
    as (s3 & Hs3 & _); [done | | done |].
  { unfold a. by rewrite lookup_insert_ne. }
  destruct (field_roundtrip (Field.mk "nLockTime" (fmt_struct struct.I_) (Some 4) (PInt 0))
              a ∅ (PInt 0)) as (s4 & Hs4 & _); [done | | done |].
  { unfold a. by rewrite lookup_insert_ne. }
  exists (s1 ++ s2 ++ s3 ++ s4 ++ []).
  cbn [Transaction.serialize_fields]. rewrite Hs1, Hs2, Hs3, Hs4.
  split; [done|]. intros a0 rest. cbn [Transaction.deserialize_fields].
  destruct (field_roundtrip (Field.mk "nVersion" (fmt_struct struct.i_) (Some 4) (PInt 1))
              a a0 (PInt 1)) as (s1' & Hs1' & Hd1); [done | | done |].
  { unfold a. by rewrite lookup_insert_ne. }
  assert (s1' = s1) as -> by congruence.
  rewrite <- app_assoc, Hd1. cbn [mbind result_bind].
  destruct (inputs_field_refused "vin" None PNone a
              (<["nVersion" := PInt 1]> a0) i) as (s2' & Hs2' & Hd2);
    [by unfold a; rewrite lookup_insert_eq | done | done | done |].
  assert (s2' = s2) as -> by congruence.
  by rewrite <- app_assoc, Hd2.
Qed.

Lemma init_one_input (i : CTxIn.t) :
  let σ := (chainparams.set_to_preset "Bitcoin" empty_store).2 in
  Transaction.init (Some [i]) None 0 1 None ∅ σ
  = (Ok (Transaction.mk (new_list (deref σ (transaction_fields σ)) σ).1
           (<["vin" := PTxIns [i]]> init_attrs)),
     (new_list (deref σ (transaction_fields σ)) σ).2).
Proof. intros σ. by vm_compute. Qed.

(** Under the Bitcoin preset, the transaction constructed with one
    input whose script is longer than [MAX_SIZE] is written, and the
    bytes written are refused. *)
Lemma oversized_script_refused (i : CTxIn.t) :
  valid_outpoint (CTxIn.prevout i) = true →
  MAX_SIZE < Z.of_nat (length (CTxIn.scriptSig i)) ≤ 0xffffffffffffffff →
  struct.in_range struct.I_ (CTxIn.nSequence i) = true →
  let σ := (chainparams.set_to_preset "Bitcoin" empty_store).2 in
  ∃ tx σ1,
    Transaction.init (Some [i]) None 0 1 None ∅ σ = (Ok tx, σ1)
    ∧ deref σ1 (transaction_fields σ1)
      = ParamsPreset.tx_fields chainparams.BitcoinPreset
    ∧ deref σ1 (Transaction.fields tx)
      = ParamsPreset.tx_fields chainparams.BitcoinPreset
    ∧ ∃ s σ2,
        Transaction.stream_serialize σ1 tx = Ok s
        ∧ Transaction.stream_deserialize s σ1 = (Raise SerializationError, σ2).
Proof.
  intros Hp Hb Hq σ. eexists _, _. split; [apply init_one_input|].
  fold σ. set (σ1 := (new_list (deref σ (transaction_fields σ)) σ).2).
  assert (deref σ1 (transaction_fields σ1)
          = ParamsPreset.tx_fields chainparams.BitcoinPreset) as Hact by (by vm_compute).
  assert (deref σ1 (new_list (deref σ (transaction_fields σ)) σ).1
          = ParamsPreset.tx_fields chainparams.BitcoinPreset) as Hown by (by vm_compute).
  split; [exact Hact|]. cbn [Transaction.fields]. split; [exact Hown|].
  destruct (bitcoin_oversized_script i Hp Hb Hq) as (s & Hs & Hd).
  exists s. eexists. split.
  - unfold Transaction.stream_serialize. cbn [Transaction.fields Transaction.attrs].
    rewrite Hown. exact Hs.
  - rewrite stream_deserialize_unfold. cbv zeta. rewrite Hact.
    rewrite <- (app_nil_r s), Hd. reflexivity.
Qed.

(** C1, as stated, fails: under the Bitcoin preset, the transaction
    constructed with one input whose script has [MAX_SIZE] + 1 bytes is
    an entity on the preset's schema that [stream_serialize] writes,
    and [stream_deserialize] refuses the bytes written with
    [SerializationError]: [ser_read] reads no more than [MAX_SIZE]
    bytes at once, and nothing checks the length when writing. *)
Lemma roundtrip_fails_oversized_script :
  let σ := (chainparams.set_to_preset "Bitcoin" empty_store).2 in
  let script := replicate (Z.to_nat (MAX_SIZE + 1)) Byte.x00 in
  let txin := CTxIn.mk (COutPoint.mk (replicate 32 Byte.x00) 0) script 0xffffffff in
  chainparams.BitcoinPreset ∈ chainparams.presets_list
  ∧ ∃ tx σ1,
      Transaction.init (Some [txin]) None 0 1 None ∅ σ = (Ok tx, σ1)
      ∧ deref σ1 (transaction_fields σ1)
        = ParamsPreset.tx_fields chainparams.BitcoinPreset
      ∧ deref σ1 (Transaction.fields tx)
        = ParamsPreset.tx_fields chainparams.BitcoinPreset
      ∧ ∃ s σ2,
          Transaction.stream_serialize σ1 tx = Ok s
          ∧ Transaction.stream_deserialize s σ1 = (Raise SerializationError, σ2).
Proof.
  intros σ script txin. split; [unfold chainparams.presets_list; in_list|].
  apply (oversized_script_refused txin).
  - reflexivity.
  - unfold txin, script. cbn [CTxIn.scriptSig].
    rewrite length_replicate, Z2Nat.id by (unfold MAX_SIZE; lia).
    unfold MAX_SIZE. lia.
  - reflexivity.
Qed.


(** ** [from_tx] and [set_serialization]: filling in defaults *)

Lemma fill_defaults_lookup (flds : list Field.t) (a : gmap string pyval) (k : string) :
  Transaction.fill_defaults flds a !! k
  = match a !! k with
    | Some v => Some v
    | None => Field.default <$> List.find (fun f => String.eqb (Field.name f) k) flds
    end.
Proof.
  unfold Transaction.fill_defaults. revert a.
  induction flds as [|fld flds IH]; intros a; [simpl; by destruct (a !! k)|].
  cbn [foldl List.find]. rewrite IH.
  destruct (String.eqb_spec (Field.name fld) k) as [<-|Hne].
  - destruct (a !! Field.name fld) as [v|] eqn:Ha; [by rewrite Ha|].
    by rewrite lookup_insert_eq.
  - destruct (a !! Field.name fld) as [v|] eqn:Ha; [done|].
    by rewrite lookup_insert_ne.
Qed.

(** [set_serialization(fields)] is the method that rebinds: the
    instance reads [fields] afterwards, and the attributes it lacked are
    filled in the same way. *)
Lemma set_serialization_rebinds (r : loc) (a : gmap string pyval) (σ : store) :
  ∃ tx', Transaction.set_serialization (Some r) a σ = (tx', σ)
    ∧ Transaction.fields tx' = r
    ∧ ∀ k, Transaction.attrs tx' !! k
           = match a !! k with
             | Some v => Some v
             | None => Field.default
                         <$> List.find (fun f => String.eqb (Field.name f) k) (deref σ r)
             end.
Proof.
  eexists. split; [reflexivity|]. split; [reflexivity|].
  intros k. apply fill_defaults_lookup.
Qed.

(** ** Short input *)

Lemma ser_read_length (n : Z) (f s f' : list byte) :
  ser_read n f = Ok (s, f') →
  (length f' ≤ length f)%nat
  ∧ Z.of_nat (length f) = Z.of_nat (length s) + Z.of_nat (length f')
  ∧ (0 ≤ n → Z.of_nat (length s) = n).
Proof.
  unfold ser_read. destruct (MAX_SIZE <? n); [done|].
  destruct (Z.ltb_spec n 0).
  { intros [= <- <-]. simpl. lia. }
  destruct (Z.ltb_spec (Z.of_nat (length f)) n); [done|].
  intros [= <- <-]. rewrite length_take, length_drop. lia.
Qed.

Lemma ser_read_short (n : Z) (f : list byte) :
  0 ≤ n ≤ MAX_SIZE → Z.of_nat (length f) < n →
  ser_read n f = Raise SerializationTruncationError.
Proof.
  intros Hn Hf. unfold ser_read.
  destruct (Z.ltb_spec MAX_SIZE n); [lia|].
  destruct (Z.ltb_spec n 0); [lia|].
  by destruct (Z.ltb_spec (Z.of_nat (length f)) n); [|lia].
Qed.

Lemma calcsize_MAX (c : struct.code) : 0 ≤ struct.calcsize c ≤ MAX_SIZE.
Proof. pose proof (calcsize_pos c). unfold MAX_SIZE. lia. Qed.

Lemma read_struct_short (c : struct.code) (f : list byte) :
  Z.of_nat (length f) < struct.calcsize c →
  read_struct c (struct.calcsize c) f = Raise SerializationTruncationError.
Proof.
  intros Hf. unfold read_struct.
  by rewrite ser_read_short; [| apply calcsize_MAX |].
Qed.
















(** ** Rebinding *)

(** C5, as the code has it: [from_tx] applied to a [Transaction] after
    a chainparams change returns that transaction with the list of
    fields it had (it is not rebound to the active schema); every
    attribute it had keeps its value, and every attribute it lacked gets
    the default that the active schema declares first under that name,
    or stays absent when the active schema has no such field. *)
Theorem from_tx_fills_new_fields (tx : Transaction.t) (σ : store) :
  ∃ tx',
    Transaction.from_tx (Transaction.this tx) σ = (Ok tx', σ)
    ∧ Transaction.fields tx' = Transaction.fields tx
    ∧ (∀ k v, Transaction.attrs tx !! k = Some v →
         Transaction.attrs tx' !! k = Some v)
    ∧ (∀ k, Transaction.attrs tx !! k = None →
         Transaction.attrs tx' !! k
         = Field.default <$> List.find (fun f => String.eqb (Field.name f) k)
                               (deref σ (transaction_fields σ))).
Proof.
  eexists. split; [reflexivity|]. split; [reflexivity|].
  cbn [Transaction.attrs]. split.
  - intros k v Hk. by rewrite fill_defaults_lookup, Hk.
  - intros k Hk. by rewrite fill_defaults_lookup, Hk.
Qed.

(** C5, as stated, fails: a transaction built under Bitcoin and passed
    to [from_tx] once Clams is active has the Clams attributes filled in
    but still reads the Bitcoin list of fields, so that it is not bound
    to the active schema and still serializes to the ten Bitcoin bytes. *)
Lemma from_tx_does_not_rebind :
  let σ1 := (chainparams.set_to_preset "Bitcoin" empty_store).2 in
  ∃ A σ2,
    Transaction.init None None 0 1 None ∅ σ1 = (Ok A, σ2)
    ∧ let σ3 := (chainparams.set_to_preset "Clams" σ2).2 in
      ∃ tx',
        Transaction.from_tx (Transaction.this A) σ3 = (Ok tx', σ3)
        ∧ Transaction.attrs tx' !! "Timestamp"%string = Some (PInt 0)
        ∧ deref σ3 (transaction_fields σ3)
          = ParamsPreset.tx_fields chainparams.ClamsPreset
        ∧ deref σ3 (Transaction.fields tx')
          = ParamsPreset.tx_fields chainparams.BitcoinPreset
        ∧ deref σ3 (Transaction.fields tx') ≠ deref σ3 (transaction_fields σ3)
        ∧ Transaction.stream_serialize σ3 tx' = Ok empty_tx_bytes.
Proof.
  eexists _, _. split; [by vm_compute|].
  eexists. split; [by vm_compute|].
  split; [by vm_compute|]. split; [by vm_compute|]. split; [by vm_compute|].
  split; [|by vm_compute].
  vm_compute. discriminate.
Qed.

(** ** Truncated input *)




(** ** Script templates *)

Section script_gen_facts.
Context {Script : Type}.
Variable human_iter : Script → list string.
Variable from_human : string → option Script.
Variable format_hex_string : string → bool → option string.

Local Abbreviation is_valid_variable_value :=
  (script_gen.is_valid_variable_value format_hex_string).
Local Abbreviation match_tokens := (script_gen.match_tokens format_hex_string).
Local Abbreviation is_template_script :=
  (script_gen.is_template_script human_iter format_hex_string).
Local Abbreviation coerce_item :=
  (script_gen.coerce_item human_iter from_human format_hex_string).

Lemma contains_elem_of (l : list string) (i : string) :
  script_gen.contains l i = true ↔ i ∈ l.
Proof.
  unfold script_gen.contains. rewrite existsb_exists. split.
  - intros (x & Hx & ->%String.eqb_eq). by apply list_elem_of_In.
  - intros Hi. exists i. split; [by apply list_elem_of_In | apply String.eqb_refl].
Qed.

Lemma valid_only_address (value variable_type : string) :
  is_valid_variable_value value variable_type = Ok true →
  variable_type = "address"%string.
Proof.
  unfold script_gen.is_valid_variable_value.
  by destruct (String.eqb_spec variable_type "address").
Qed.

Lemma match_tokens_variable (t : script_gen.ScriptTemplate) (text : list string)
    (s txt var_type : string) (iterator used : list string) (index : nat) :
  text !! index = Some txt →
  script_gen.is_variable txt = true →
  script_gen.variables t !! script_gen.slice_1_m1 txt = Some var_type →
  is_valid_variable_value s var_type = Ok true →
  match_tokens t text (s :: iterator) index used
  = match_tokens t text iterator (S index) (used ++ [script_gen.slice_1_m1 txt]).
Proof. intros Htxt Hvar Hty Hok. cbn [script_gen.match_tokens]. by rewrite Htxt, Hvar, Hty, Hok. Qed.

Lemma match_tokens_literal (t : script_gen.ScriptTemplate) (text : list string)
    (txt : string) (iterator used : list string) (index : nat) :
  text !! index = Some txt →
  script_gen.is_variable txt = false →
  match_tokens t text (txt :: iterator) index used
  = match_tokens t text iterator (S index) used.
Proof.
  intros Htxt Hvar. cbn [script_gen.match_tokens].
  by rewrite Htxt, Hvar, String.eqb_refl.
Qed.

(** The variables that the loop records are those whose value it
    found valid. *)
Lemma match_tokens_used (t : script_gen.ScriptTemplate) (text iterator : list string)
    (index : nat) (used used' : list string) (u : string) :
  match_tokens t text iterator index used = Some used' → u ∈ used' →
  u ∈ used
  ∨ ∃ var_type s, script_gen.variables t !! u = Some var_type
                  ∧ is_valid_variable_value s var_type = Ok true.
Proof.
  revert index used. induction iterator as [|s iterator IH]; intros index used.
  { intros [= <-]. by left. }
  cbn [script_gen.match_tokens].
  destruct (text !! index) as [txt|]; [|done].
  destruct (script_gen.is_variable txt).
  - destruct (script_gen.variables t !! script_gen.slice_1_m1 txt) as [ty|] eqn:Hty; [|done].
    destruct (is_valid_variable_value s ty) as [[|]|] eqn:Hok; [|done|done].
    intros Hm Hu. destruct (IH _ _ Hm Hu) as [Hin|?]; [|by right].
    apply elem_of_app in Hin as [?|Heq]; [by left|].
    apply list_elem_of_singleton in Heq as ->. right. eauto.
  - destruct (negb (s =? txt)%string); [done|]. apply IH.
Qed.

Lemma match_tokens_prefix (t : script_gen.ScriptTemplate) (text iterator : list string)
    (index : nat) (used : list string) :
  (length iterator ≤ length (drop index text))%nat →
  Forall2 (token_matches format_hex_string t) iterator
    (take (length iterator) (drop index text)) →
  match_tokens t text iterator index used
  = Some (used ++ variable_names (take (length iterator) (drop index text))).
Proof.
  revert index used. induction iterator as [|s iterator IH]; intros index used Hlen Hall.
  { simpl. by rewrite app_nil_r. }
  destruct (drop index text) as [|txt rest] eqn:Hdrop; [simpl in Hlen; lia|].
  assert (text !! index = Some txt) as Htxt.
  { assert (drop index text !! 0%nat = Some txt) as H0 by (by rewrite Hdrop).
    by rewrite lookup_drop, Nat.add_0_r in H0. }
  assert (drop (S index) text = rest) as Hrest.
  { rewrite (drop_S _ _ _ Htxt) in Hdrop. by injection Hdrop. }
  simpl in Hlen, Hall. apply Forall2_cons in Hall as [Hs Hall].
  rewrite <- Hrest in Hall.
  unfold token_matches in Hs. unfold variable_names. cbn [take length].
  rewrite filter_cons.
  destruct (script_gen.is_variable txt) eqn:Hvar.
  - destruct Hs as (ty & Hty & Hok).
    rewrite (match_tokens_variable t text s txt ty) by done.
    rewrite IH; [| rewrite Hrest; lia | done].
    rewrite Hrest. rewrite decide_True by done.
    rewrite fmap_cons. by rewrite <- app_assoc.
  - subst s. rewrite match_tokens_literal by done.
    rewrite IH; [| rewrite Hrest; lia | done].
    rewrite Hrest. by rewrite decide_False by done.
Qed.

Lemma keys_lookup (m : gmap string string) (k : string) :
  k ∈ (map_to_list m).*1 ↔ is_Some (m !! k).
Proof.
  rewrite list_elem_of_fmap. split.
  - intros ([k' v] & -> & Hin). apply elem_of_map_to_list in Hin. by exists v.
  - intros [v Hv]. exists (k, v). split; [done|]. by apply elem_of_map_to_list.
Qed.

Lemma text_variable_unmatched (script : Script) (t : script_gen.ScriptTemplate)
    (k : string) :
  script_gen.variables t !! k = Some "text"%string →
  is_template_script script t = false.
Proof.
  intros Hk. unfold script_gen.is_template_script.
  destruct (match_tokens t _ _ 0%nat []) as [used|] eqn:Hm; [|done].
  apply not_true_is_false. intros Hall. rewrite forallb_forall in Hall.
  specialize (Hall k). rewrite contains_elem_of in Hall.
  destruct (match_tokens_used _ _ _ _ _ _ k Hm) as [Hin|(ty & s & Hty & Hok)].
  - apply Hall, list_elem_of_In, keys_lookup. by exists "text"%string.
  - by apply elem_of_nil in Hin.
  - rewrite Hk in Hty. injection Hty as <-.
    by apply valid_only_address in Hok.
Qed.

Lemma coerce_item_Some (known : list script_gen.ScriptTemplate)
    (data : script_gen.coerce_arg) (item : script_gen.ScriptTemplateItem) :
  coerce_item known data = Some item →
  script_gen.template item ∈ known
  ∧ is_template_script (script_gen.value item) (script_gen.template item) = true.
Proof.
  unfold script_gen.coerce_item.
  destruct (match data with
            | script_gen.is_script s => Some s
            | script_gen.other d => from_human d
            end) as [s|]; [|done].
  simpl. destruct (List.find (is_template_script s) known) as [i|] eqn:Hf; [|done].
  simpl. intros [= <-]. apply find_some in Hf as [Hin Hok].
  split; [by apply list_elem_of_In | done].
Qed.

(** C8: a script whose tokens are OP_DUP OP_HASH160 <push>
    OP_EQUALVERIFY OP_CHECKSIG, where [format_hex_string] gives the
    40 hex digits of the 20-byte push, complies with the
    Pay-To-Public-Key-Hash template, which is the first of
    [known_templates]; [coerce_item] makes it an item of that
    template, and the item's variable [recipient] is the push token. *)
Theorem p2pkh_recognized (script : Script) (push digits : string) :
  human_iter script
  = [ "OP_DUP"; "OP_HASH160"; push; "OP_EQUALVERIFY"; "OP_CHECKSIG" ]%string →
  format_hex_string push false = Some digits →
  String.length digits = 40%nat →
  ∃ p2pkh item,
    head script_gen.known_templates = Some p2pkh
    ∧ script_gen.name p2pkh = "Pay-To-Public-Key-Hash Output"%string
    ∧ is_template_script script p2pkh = true
    ∧ coerce_item script_gen.known_templates (script_gen.is_script script)
      = Some item
    ∧ script_gen.template item = p2pkh
    ∧ script_gen.value item = script
    ∧ script_gen.recipient item = Some push.
Proof.
  intros Htok Hfmt Hlen.
  assert (is_valid_variable_value push "address" = Ok true) as Hok.
  { unfold script_gen.is_valid_variable_value. simpl. by rewrite Hfmt, Hlen. }
  eexists _, _. split; [reflexivity|]. split; [reflexivity|].
  assert (is_template_script script
            (script_gen.mk_template "Pay-To-Public-Key-Hash Output"
               "OP_DUP OP_HASH160 <recipient> OP_EQUALVERIFY OP_CHECKSIG"
               {[ "recipient"%string := "address"%string ]}) = true) as Hmatch.
  { unfold script_gen.is_template_script. rewrite Htok.
    cbn [script_gen.text script_gen.variables].
    change (script_gen.split _)
      with [ "OP_DUP"; "OP_HASH160"; "<recipient>"; "OP_EQUALVERIFY"; "OP_CHECKSIG" ]%string.
    rewrite (match_tokens_literal _ _ "OP_DUP") by done.
    rewrite (match_tokens_literal _ _ "OP_HASH160") by done.
    rewrite (match_tokens_variable _ _ push "<recipient>" "address") by done.
    rewrite (match_tokens_literal _ _ "OP_EQUALVERIFY") by done.
    rewrite (match_tokens_literal _ _ "OP_CHECKSIG") by done.
    by vm_compute. }
  split; [exact Hmatch|].
  unfold script_gen.coerce_item, script_gen.known_templates.
  cbn [mbind option_bind List.find]. rewrite Hmatch. cbn [mbind option_bind].
  split; [reflexivity|]. split; [reflexivity|]. split; [reflexivity|].
  unfold script_gen.recipient, script_gen.ScriptTemplateItem_init.
  cbn [script_gen.item_variables script_gen.text]. rewrite Htok.
  change (script_gen.split _)
    with [ "OP_DUP"; "OP_HASH160"; "<recipient>"; "OP_EQUALVERIFY"; "OP_CHECKSIG" ]%string.
  cbn [script_gen.populate lookup list_lookup].
  change (script_gen.is_variable "OP_DUP") with false.
  change (script_gen.is_variable "OP_HASH160") with false.
  change (script_gen.is_variable "<recipient>") with true.
  change (script_gen.is_variable "OP_EQUALVERIFY") with false.
  change (script_gen.is_variable "OP_CHECKSIG") with false.
  change (script_gen.slice_1_m1 "<recipient>") with "recipient"%string.
  cbv iota. apply lookup_insert_eq.
Qed.

(** C9: a script with fewer tokens than the template text, each of
    which agrees with the template token at its position, and which
    together give a value to every variable the template declares,
    complies with the template. *)
Theorem strict_prefix_matches (script : Script) (t : script_gen.ScriptTemplate) :
  let iterator := human_iter script in
  let text := script_gen.split (script_gen.text t) in
  (length iterator < length text)%nat →
  Forall2 (token_matches format_hex_string t) iterator
    (take (length iterator) text) →
  (∀ k, is_Some (script_gen.variables t !! k) →
        k ∈ variable_names (take (length iterator) text)) →
  is_template_script script t = true.
Proof.
  intros iterator text Hlen Hall Hvars.
  unfold script_gen.is_template_script. fold iterator text.
  rewrite match_tokens_prefix; rewrite ?drop_0; [| lia | done].
  apply forallb_forall. intros k Hk%list_elem_of_In%keys_lookup.
  apply contains_elem_of. simpl. by apply Hvars.
Qed.

(** C10: no value is a valid value of a variable of type 'text';
    hence a template that declares a variable of type 'text' complies
    with no script, [coerce_item] never returns an item of such a
    template, and with the built-in [known_templates] it never returns
    an item of the Null Output template. *)
Theorem text_variable_never_matches (t : script_gen.ScriptTemplate) (k : string) :
  script_gen.variables t !! k = Some "text"%string →
  (∀ value, is_valid_variable_value value "text" = Ok false)
  ∧ (∀ script, is_template_script script t = false)
  ∧ (∀ known data item,
       coerce_item known data = Some item → script_gen.template item ≠ t)
  ∧ (∀ data item,
       coerce_item script_gen.known_templates data = Some item →
       script_gen.name (script_gen.template item) ≠ "Null Output"%string).
Proof.
  intros Hk. split; [done|]. split; [|split].
  - intros script. by apply (text_variable_unmatched script t k).
  - intros known data item [_ Hok]%coerce_item_Some <-.
    by rewrite (text_variable_unmatched _ _ k Hk) in Hok.
  - intros data item [Hin Hok]%coerce_item_Some Hname.
    unfold script_gen.known_templates in Hin.
    repeat (apply elem_of_cons in Hin as [Heq|Hin];
            [rewrite Heq in Hname, Hok; try discriminate Hname|]).
    + by rewrite (text_variable_unmatched _ _ "text"%string) in Hok.
    + by apply elem_of_nil in Hin.
Qed.

End script_gen_facts.

Lemma p2pkh_recognized_witness :
  tokens_of [ "OP_DUP"; "OP_HASH160"; example_hash160; "OP_EQUALVERIFY"; "OP_CHECKSIG" ]%string
  = [ "OP_DUP"; "OP_HASH160"; example_hash160; "OP_EQUALVERIFY"; "OP_CHECKSIG" ]%string
  ∧ strip_0x example_hash160 false = Some "00112233445566778899aabbccddeeff00112233"%string
  ∧ String.length "00112233445566778899aabbccddeeff00112233" = 40%nat
  ∧ ∃ p2pkh item,
      head script_gen.known_templates = Some p2pkh
      ∧ script_gen.name p2pkh = "Pay-To-Public-Key-Hash Output"%string
      ∧ script_gen.is_template_script tokens_of strip_0x
          [ "OP_DUP"; "OP_HASH160"; example_hash160; "OP_EQUALVERIFY"; "OP_CHECKSIG" ]%string
          p2pkh = true
      ∧ script_gen.coerce_item tokens_of (fun d => Some (script_gen.split d)) strip_0x
          script_gen.known_templates
          (script_gen.is_script
             [ "OP_DUP"; "OP_HASH160"; example_hash160; "OP_EQUALVERIFY"; "OP_CHECKSIG" ]%string)
        = Some item
      ∧ script_gen.template item = p2pkh
      ∧ script_gen.value item
        = [ "OP_DUP"; "OP_HASH160"; example_hash160; "OP_EQUALVERIFY"; "OP_CHECKSIG" ]%string
      ∧ script_gen.recipient item = Some example_hash160.
Proof.
  split; [reflexivity|]. split; [reflexivity|]. split; [reflexivity|].
  apply (p2pkh_recognized tokens_of (fun d => Some (script_gen.split d)) strip_0x
           _ example_hash160 "00112233445566778899aabbccddeeff00112233");
    reflexivity.
Defined.

Lemma strict_prefix_matches_witness :
  let script := [ "OP_DUP"; "OP_HASH160"; example_hash160 ]%string in
  let t := script_gen.mk_template "Pay-To-Public-Key-Hash Output"
             "OP_DUP OP_HASH160 <recipient> OP_EQUALVERIFY OP_CHECKSIG"
             {[ "recipient"%string := "address"%string ]} in
  let text := script_gen.split (script_gen.text t) in
  (length (tokens_of script) < length text)%nat
  ∧ Forall2 (token_matches strip_0x t) (tokens_of script)
      (take (length (tokens_of script)) text)
  ∧ (∀ k, is_Some (script_gen.variables t !! k) →
          k ∈ variable_names (take (length (tokens_of script)) text))
  ∧ script_gen.is_template_script tokens_of strip_0x script t = true.
Proof.
  intros script t text.
  assert (length (tokens_of script) < length text)%nat as H1
    by (vm_compute; lia).
  assert (Forall2 (token_matches strip_0x t) (tokens_of script)
            (take (length (tokens_of script)) text)) as H2.
  { change (take _ _) with [ "OP_DUP"; "OP_HASH160"; "<recipient>" ]%string.
    repeat constructor. exists "address"%string. by vm_compute. }
  assert (∀ k, is_Some (script_gen.variables t !! k) →
               k ∈ variable_names (take (length (tokens_of script)) text)) as H3.
  { intros k [v Hv]. change (variable_names _) with [ "recipient"%string ].
    subst t. cbn [script_gen.variables] in Hv.
    apply lookup_singleton_Some in Hv as [<- _]. in_list. }
  split; [exact H1|]. split; [exact H2|]. split; [exact H3|].
  exact (strict_prefix_matches tokens_of strip_0x script t H1 H2 H3).
Defined.

Lemma text_variable_never_matches_witness :
  let t := script_gen.mk_template "Null Output" "OP_RETURN <text>"
             {[ "text"%string := "text"%string ]} in
  script_gen.variables t !! "text"%string = Some "text"%string
  ∧ script_gen.is_template_script tokens_of strip_0x
      [ "OP_RETURN"; "0x68656c6c6f" ]%string t = false.
Proof.
  intros t. split; [reflexivity|].
  by apply (text_variable_never_matches tokens_of (fun d => Some (script_gen.split d))
              strip_0x t "text"%string).
Defined.

(** * More of the codec *)

(** ** Round trip on any consistent schema *)

Lemma roundtrip_schema (σ : store) (tx : Transaction.t) (flds : list Field.t)
    (rest : list byte) :
  deref σ (transaction_fields σ) = flds →
  deref σ (Transaction.fields tx) = flds →
  consistent_schema flds = true →
  valid_entity flds (Transaction.attrs tx) = true →
  ∃ s tx' σ',
    Transaction.stream_serialize σ tx = Ok s
    ∧ Transaction.stream_deserialize (s ++ rest) σ = (Ok (tx', rest), σ')
    ∧ deref σ' (Transaction.fields tx') = flds
    ∧ ∀ fld, fld ∈ flds →
        Transaction.attrs tx' !! Field.name fld
        = Transaction.attrs tx !! Field.name fld.
Proof.
  intros Hact Htx Hc Hv.
  destruct (fields_roundtrip _ _ Hc Hv) as (s & Hs & Hd).
  destruct (Hd (Transaction.fill_defaults flds init_attrs) rest) as (a' & Ha' & Hk).
  exists s. eexists _, _. split; [|split; [|split]].
  - unfold Transaction.stream_serialize. by rewrite Htx.
  - rewrite stream_deserialize_unfold. cbv zeta. rewrite Hact, Ha'. reflexivity.
  - cbn [Transaction.fields]. apply deref_new_list.
  - intros fld Hfld. cbn [Transaction.attrs]. rewrite Hk.
    rewrite bool_decide_eq_true_2; [done|]. by apply list_elem_of_fmap_2.
Qed.

(** X1: on any schema whose integer fields declare the size of their
    format and whose vector fields are named vin and vout, a valid
    entity serializes, and reading the bytes back, whatever follows
    them in the stream, gives an entity with the same value in every
    schema field and leaves what follows unread. *)
Theorem roundtrip_consistent_schema (σ : store) (tx : Transaction.t)
    (rest : list byte) :
  deref σ (Transaction.fields tx) = deref σ (transaction_fields σ) →
  consistent_schema (deref σ (transaction_fields σ)) = true →
  valid_entity (deref σ (transaction_fields σ)) (Transaction.attrs tx) = true →
  ∃ s tx' σ',
    Transaction.stream_serialize σ tx = Ok s
    ∧ Transaction.stream_deserialize (s ++ rest) σ = (Ok (tx', rest), σ')
    ∧ deref σ' (Transaction.fields tx') = deref σ (transaction_fields σ)
    ∧ ∀ fld, fld ∈ deref σ (transaction_fields σ) →
        Transaction.attrs tx' !! Field.name fld
        = Transaction.attrs tx !! Field.name fld.
Proof. intros Htx Hc Hv. by apply roundtrip_schema. Qed.

Lemma roundtrip_consistent_schema_witness :
  deref clams_store (Transaction.fields clams_tx)
  = deref clams_store (transaction_fields clams_store)
  ∧ consistent_schema (deref clams_store (transaction_fields clams_store)) = true
  ∧ valid_entity (deref clams_store (transaction_fields clams_store))
      (Transaction.attrs clams_tx) = true
  ∧ ∃ s tx' σ',
      Transaction.stream_serialize clams_store clams_tx = Ok s
      ∧ Transaction.stream_deserialize (s ++ [Byte.xff]) clams_store
        = (Ok (tx', [Byte.xff]), σ').
Proof.
  split; [by vm_compute|]. split; [by vm_compute|]. split; [by vm_compute|].
  destruct (roundtrip_consistent_schema clams_store clams_tx [Byte.xff])
    as (s & tx' & σ' & Hs & Hd & _); [by vm_compute | by vm_compute | by vm_compute |].
  by exists s, tx', σ'.
Defined.

(** ** What is read can be written *)

Lemma new_list_deref_global (σ : store) (g : loc) :
  deref (new_list (deref σ g) σ).2 g = deref σ g.
Proof.
  unfold deref. cbn [new_list snd lists].
  destruct (decide (fresh (dom (lists σ)) = g)) as [->|Hne].
  - by rewrite lookup_insert_eq.
  - by rewrite lookup_insert_ne.
Qed.

Lemma le_value_bounds (bs : list byte) :
  0 ≤ le_value bs < 2 ^ (8 * Z.of_nat (length bs)).
Proof.
  induction bs as [|b bs IH]; [simpl; lia|].
  cbn [le_value length]. pose proof (Z_of_byte_range b).
  replace (8 * Z.of_nat (S (length bs))) with (8 + 8 * Z.of_nat (length bs)) by lia.
  rewrite Z.pow_add_r by lia. change (2 ^ 8) with 256. lia.
Qed.

Lemma unpack_in_range (c : struct.code) (s : list byte) (v : Z) :
  struct.unpack c s = Ok v → struct.in_range c v = true.
Proof.
  unfold struct.unpack.
  destruct (Z.eqb_spec (Z.of_nat (length s)) (struct.calcsize c)) as [Hl|]; [|done].
  intros [= <-]. pose proof (le_value_bounds s) as Hb. rewrite Hl in Hb.
  fold (struct.modulus c) in Hb.
  assert (struct.modulus c = 2 * (struct.modulus c / 2) ∧ 0 < struct.modulus c / 2)
    as [Hm Hm2] by (destruct c; vm_compute; split; congruence).
  unfold struct.in_range, struct.lo, struct.hi.
  apply andb_true_iff.
  destruct (struct.signed c); simpl.
  - destruct (Z.leb_spec (struct.modulus c / 2) (le_value s));
      split; [apply Z.leb_le | apply Z.ltb_lt | apply Z.leb_le | apply Z.ltb_lt]; lia.
  - split; [apply Z.leb_le | apply Z.ltb_lt]; lia.
Qed.

Lemma read_struct_valid (c : struct.code) (n : Z) :
  reads_valid (read_struct c n) (struct.in_range c).
Proof.
  intros f v f'. unfold read_struct.
  destruct (ser_read n f) as [[s f1]|]; [|done]. simpl.
  destruct (struct.unpack c s) as [z|] eqn:Hu; [|done]. intros [= <- <-].
  by apply unpack_in_range in Hu.
Qed.

Lemma varint_bounds (f f' : list byte) (n : Z) :
  VarIntSerializer.stream_deserialize f = Ok (n, f') →
  0 ≤ n ≤ 0xffffffffffffffff.
Proof.
  unfold VarIntSerializer.stream_deserialize.
  destruct (ser_read 1 f) as [[s f1]|] eqn:Hs; [|done]. cbn [mbind result_bind].
  assert (∀ c, read_struct c (struct.calcsize c) f1 = Ok (n, f') →
               struct.signed c = false → struct.calcsize c ≤ 8 →
               0 ≤ n ≤ 0xffffffffffffffff) as Hc.
  { intros c Hr Hsg Hsz. apply read_struct_valid in Hr.
    unfold struct.in_range, struct.lo, struct.hi in Hr. rewrite Hsg in Hr.
    apply andb_true_iff in Hr as [Hlo%Z.leb_le Hhi%Z.ltb_lt].
    split; [done|]. unfold struct.modulus in Hhi.
    assert (2 ^ (8 * struct.calcsize c) ≤ 2 ^ 64)
      by (apply Z.pow_le_mono_r; pose proof (calcsize_pos c); lia).
    change (2 ^ 64) with 0x10000000000000000 in *. lia. }
  destruct (Z.ltb_spec (le_value s) 253).
  { intros [= <- <-]. pose proof (le_value_bounds s). lia. }
  destruct (le_value s =? 253); [intros Hr; by apply (Hc struct.H_)|].
  destruct (le_value s =? 254); intros Hr;
    [by apply (Hc struct.I_) | by apply (Hc struct.Q_)].
Qed.

(** Four bytes hold no count above 0xffff: a count read from at most
    four bytes is one that [range] builds a list for. *)
Lemma count_in_four_bytes (f f' : list byte) (n : Z) :
  Z.of_nat (length f) ≤ 4 →
  VarIntSerializer.stream_deserialize f = Ok (n, f') →
  0 ≤ n ≤ 0xffff.
Proof.
  intros Hf. unfold VarIntSerializer.stream_deserialize.
  destruct (ser_read 1 f) as [[s f1]|] eqn:Hs; [|done]. cbn [mbind result_bind].
  apply ser_read_length in Hs as (_ & Hlen & Hone). specialize (Hone ltac:(lia)).
  destruct (Z.ltb_spec (le_value s) 253).
  { intros [= <- <-]. pose proof (le_value_bounds s). lia. }
  destruct (le_value s =? 253).
  { intros Hr. apply read_struct_valid in Hr.
    apply andb_true_iff in Hr as [Hlo%Z.leb_le Hhi%Z.ltb_lt].
    change (struct.lo struct.H_) with 0 in Hlo.
    change (struct.hi struct.H_) with 0x10000 in Hhi. lia. }
  destruct (le_value s =? 254).
  - change (read_struct struct.I_ 4 f1)
      with (read_struct struct.I_ (struct.calcsize struct.I_) f1).
    rewrite read_struct_short; [done|]. change (struct.calcsize struct.I_) with 4. lia.
  - change (read_struct struct.Q_ 8 f1)
      with (read_struct struct.Q_ (struct.calcsize struct.Q_) f1).
    rewrite read_struct_short; [done|]. change (struct.calcsize struct.Q_) with 8. lia.
Qed.


Lemma bytes_valid : reads_valid BytesSerializer.stream_deserialize valid_bytes.
Proof.
  intros f v f'. unfold BytesSerializer.stream_deserialize.
  destruct (VarIntSerializer.stream_deserialize f) as [[l f1]|] eqn:Hl; [|done].
  cbn [mbind result_bind]. intros Hr. apply varint_bounds in Hl.
  unfold valid_bytes. apply Z.leb_le.
  assert (l ≤ MAX_SIZE).
  { revert Hr. unfold ser_read. by destruct (Z.ltb_spec MAX_SIZE l). }
  apply ser_read_length in Hr as (_ & _ & Hs). lia.
Qed.

Lemma each_valid {A} (de : reader A) (valid : A → bool) (n : nat) :
  reads_valid de valid →
  ∀ f v f', VectorSerializer.deserialize_each de n f = Ok (v, f') →
            length v = n ∧ forallb valid v = true.
Proof.
  intros Hde. induction n as [|n IH]; intros f v f'; simpl.
  { by intros [= <- <-]. }
  destruct (de f) as [[x f1]|] eqn:Hx; [|done]. simpl.
  destruct (VectorSerializer.deserialize_each de n f1) as [[r f2]|] eqn:Hr; [|done].
  simpl. intros [= <- <-]. apply Hde in Hx. apply IH in Hr as [Hlen Hall].
  simpl. by rewrite Hlen, Hx, Hall.
Qed.

Lemma vector_valid {A} (de : reader A) (valid : A → bool) :
  reads_valid de valid →
  reads_valid (VectorSerializer.stream_deserialize de)
    (fun l => valid_count l && forallb valid l).
Proof.
  intros Hde f v f'. unfold VectorSerializer.stream_deserialize.
  destruct (VarIntSerializer.stream_deserialize f) as [[n f1]|] eqn:Hn; [|done].
  cbn [mbind result_bind]. intros Hr. apply varint_bounds in Hn.
  apply (each_valid de valid _ Hde) in Hr as [Hlen Hall].
  apply andb_true_iff. split; [|done].
  unfold valid_count. apply Z.leb_le. lia.
Qed.

Lemma outpoint_valid : reads_valid COutPoint.stream_deserialize valid_outpoint.
Proof.
  intros f v f'. unfold COutPoint.stream_deserialize.
  destruct (ser_read 32 f) as [[h f1]|] eqn:Hh; [|done]. cbn [mbind result_bind].
  destruct (read_struct struct.I_ 4 f1) as [[i f2]|] eqn:Hi; [|done].
  cbn [mbind result_bind]. intros [= <- <-].
  apply ser_read_length in Hh as (_ & _ & Hs). apply read_struct_valid in Hi.
  unfold valid_outpoint. cbn [COutPoint.hash COutPoint.n].
  rewrite Hi, andb_true_r. apply Z.eqb_eq. lia.
Qed.

Lemma txin_valid : reads_valid CTxIn.stream_deserialize valid_txin.
Proof.
  intros f v f'. unfold CTxIn.stream_deserialize.
  destruct (COutPoint.stream_deserialize f) as [[p f1]|] eqn:Hp; [|done].
  cbn [mbind result_bind].
  destruct (BytesSerializer.stream_deserialize f1) as [[s f2]|] eqn:Hs; [|done].
  cbn [mbind result_bind].
  destruct (read_struct struct.I_ 4 f2) as [[q f3]|] eqn:Hq; [|done].
  cbn [mbind result_bind]. intros [= <- <-].
  apply outpoint_valid in Hp. apply bytes_valid in Hs. apply read_struct_valid in Hq.
  unfold valid_txin. cbn [CTxIn.prevout CTxIn.scriptSig CTxIn.nSequence].
  by rewrite Hp, Hs, Hq.
Qed.

Lemma txout_valid : reads_valid CTxOut.stream_deserialize valid_txout.
Proof.
  intros f v f'. unfold CTxOut.stream_deserialize.
  destruct (read_struct struct.q_ 8 f) as [[q f1]|] eqn:Hq; [|done].
  cbn [mbind result_bind].
  destruct (BytesSerializer.stream_deserialize f1) as [[s f2]|] eqn:Hs; [|done].
  cbn [mbind result_bind]. intros [= <- <-].
  apply bytes_valid in Hs. apply read_struct_valid in Hq.
  unfold valid_txout. cbn [CTxOut.nValue CTxOut.scriptPubKey].
  by rewrite Hq, Hs.
Qed.

Lemma deserialize_field_valid (fld : Field.t) (a a' : gmap string pyval)
    (f f' : list byte) :
  Transaction.deserialize_field fld a f = Ok (a', f') →
  ∃ v, a' = <[Field.name fld := v]> a ∧ valid_value (Field.format fld) v = true.
Proof.
  destruct fld as [nm fm nb d]. unfold Transaction.deserialize_field.
  cbn [Field.format Field.num_bytes Field.name].
  destruct fm as [c| | | |].
  - destruct (Transaction.ser_read_num_bytes nb f) as [[s f1]|]; [|done].
    cbn [mbind result_bind].
    destruct (struct.unpack c s) as [z|] eqn:Hu; [|done]. intros [= <- <-].
    exists (PInt z). split; [done|]. by apply unpack_in_range in Hu.
  - destruct (VectorSerializer.stream_deserialize CTxIn.stream_deserialize f)
      as [[v f1]|] eqn:Hr; [|done].
    intros [= <- <-]. exists (PTxIns v). split; [done|].
    by apply (vector_valid _ _ txin_valid) in Hr.
  - destruct (VectorSerializer.stream_deserialize CTxOut.stream_deserialize f)
      as [[v f1]|] eqn:Hr; [|done].
    intros [= <- <-]. exists (PTxOuts v). split; [done|].
    by apply (vector_valid _ _ txout_valid) in Hr.
  - destruct (BytesSerializer.stream_deserialize f) as [[v f1]|] eqn:Hr; [|done].
    intros [= <- <-]. exists (PBytes v). split; [done|].
    by apply bytes_valid in Hr.
  - by destruct (Transaction.ser_read_num_bytes nb f) as [[s f1]|].
Qed.

Lemma deserialize_fields_other (flds : list Field.t) (a a' : gmap string pyval)
    (f f' : list byte) (k : string) :
  Transaction.deserialize_fields flds a f = Ok (a', f') →
  k ∉ (Field.name <$> flds) → a' !! k = a !! k.
Proof.
  revert a f. induction flds as [|fld flds IH]; intros a f.
  { by intros [= <- <-]. }
  cbn [Transaction.deserialize_fields].
  destruct (Transaction.deserialize_field fld a f) as [[a1 f1]|] eqn:H1; [|done].
  cbn [mbind result_bind]. intros H2 Hk.
  change (Field.name <$> fld :: flds)
    with (Field.name fld :: (Field.name <$> flds)) in Hk.
  apply not_elem_of_cons in Hk as [Hne Hk].
  rewrite (IH _ _ H2 Hk).
  apply deserialize_field_valid in H1 as (v & -> & _).
  by rewrite lookup_insert_ne.
Qed.

Lemma deserialize_fields_valid (flds : list Field.t) (a a' : gmap string pyval)
    (f f' : list byte) :
  NoDup (Field.name <$> flds) →
  Transaction.deserialize_fields flds a f = Ok (a', f') →
  valid_entity flds a' = true.
Proof.
  revert a f. induction flds as [|fld flds IH]; intros a f Hnd; [done|].
  change (Field.name <$> fld :: flds)
    with (Field.name fld :: (Field.name <$> flds)) in Hnd.
  apply NoDup_cons in Hnd as [Hnot Hnd].
  cbn [Transaction.deserialize_fields].
  destruct (Transaction.deserialize_field fld a f) as [[a1 f1]|] eqn:H1; [|done].
  cbn [mbind result_bind]. intros H2.
  cbn [valid_entity forallb]. fold (valid_entity flds a').
  rewrite (IH _ _ Hnd H2), andb_true_r.
  rewrite (deserialize_fields_other _ _ _ _ _ _ H2 Hnot).
  apply deserialize_field_valid in H1 as (v & -> & Hv).
  by rewrite lookup_insert_eq.
Qed.

(** X2: on a consistent schema with distinct field names, all of them
    ordinary attribute names, whatever [stream_deserialize] returns is
    a valid entity: it serializes, and reading what was written gives
    the same entity again, field for field.  (A field called [fields]
    would rebind [self.fields] when it is read, and the entity could
    not be written; the schema is taken to have none.) *)
Theorem deserialized_serializes (σ σ1 : store) (f rest : list byte)
    (tx : Transaction.t) :
  consistent_schema (deref σ (transaction_fields σ)) = true →
  NoDup (Field.name <$> deref σ (transaction_fields σ)) →
  forallb (fun fld => Transaction.ordinary_name (Field.name fld))
    (deref σ (transaction_fields σ)) = true →
  Transaction.stream_deserialize f σ = (Ok (tx, rest), σ1) →
  valid_entity (deref σ (transaction_fields σ)) (Transaction.attrs tx) = true
  ∧ ∃ s tx' σ2,
      Transaction.stream_serialize σ1 tx = Ok s
      ∧ Transaction.stream_deserialize s σ1 = (Ok (tx', []), σ2)
      ∧ ∀ fld, fld ∈ deref σ (transaction_fields σ) →
          Transaction.attrs tx' !! Field.name fld
          = Transaction.attrs tx !! Field.name fld.
Proof.
  intros Hc Hnd _. rewrite stream_deserialize_unfold. cbv zeta.
  destruct (Transaction.deserialize_fields _ _ f) as [[a f']|] eqn:Hd; [|done].
  cbn [mbind result_bind]. intros [= <- <- <-].
  pose proof (deserialize_fields_valid _ _ _ _ _ Hnd Hd) as Hv.
  split; [exact Hv|].
  destruct (roundtrip_schema (new_list (deref σ (transaction_fields σ)) σ).2
              (Transaction.mk (new_list (deref σ (transaction_fields σ)) σ).1 a)
              (deref σ (transaction_fields σ)) [])
    as (s & tx' & σ2 & Hs & Hd2 & _ & Hf);
    [apply new_list_deref_global | apply deref_new_list | done | done |].
  rewrite app_nil_r in Hd2. by exists s, tx', σ2.
Qed.

Lemma deserialized_serializes_witness :
  let σ := (chainparams.set_to_preset "Bitcoin" empty_store).2 in
  consistent_schema (deref σ (transaction_fields σ)) = true
  ∧ NoDup (Field.name <$> deref σ (transaction_fields σ))
  ∧ forallb (fun fld => Transaction.ordinary_name (Field.name fld))
      (deref σ (transaction_fields σ)) = true
  ∧ ∃ tx σ1,
      Transaction.stream_deserialize (empty_tx_bytes ++ [Byte.x07]) σ
      = (Ok (tx, [Byte.x07]), σ1)
      ∧ valid_entity (deref σ (transaction_fields σ)) (Transaction.attrs tx) = true.
Proof.
  intros σ.
  assert (consistent_schema (deref σ (transaction_fields σ)) = true) as Hc
    by (by vm_compute).
  assert (NoDup (Field.name <$> deref σ (transaction_fields σ))) as Hnd.
  { change (Field.name <$> deref σ (transaction_fields σ))
      with [ "nVersion"; "vin"; "vout"; "nLockTime" ]%string.
    apply (bool_decide_unpack _). by vm_compute. }
  split; [exact Hc|]. split; [exact Hnd|]. split; [by vm_compute|].
  eexists _, _. split; [by vm_compute|].
  eapply (deserialized_serializes σ _ (empty_tx_bytes ++ [Byte.x07]) [Byte.x07]);
    [exact Hc | exact Hnd | by vm_compute | by vm_compute].
Defined.

(** ** The two sides of the codec name the inputs differently *)



(** ** Construction *)

Lemma init_attributes_aux (vin : option (list CTxIn.t))
    (vout : option (list CTxOut.t)) (locktime version : Z) (fields : option loc)
    (kwfields : gmap string pyval) (σ : store) :
  if (0 <=? locktime) && (locktime <=? 0xffffffff) then
    ∃ A σ',
      Transaction.init vin vout locktime version fields kwfields σ = (Ok A, σ')
      ∧ (∀ fld, fld ∈ deref σ' (Transaction.fields A) →
           is_Some (Transaction.attrs A !! Field.name fld))
      ∧ (∀ k v, kwfields !! k = Some v → Transaction.attrs A !! k = Some v)
      ∧ (kwfields !! "vin"%string = None →
           Transaction.attrs A !! "vin"%string = Some (PTxIns (default [] vin)))
      ∧ (kwfields !! "vout"%string = None →
           Transaction.attrs A !! "vout"%string = Some (PTxOuts (default [] vout)))
      ∧ (kwfields !! "nLockTime"%string = None →
           Transaction.attrs A !! "nLockTime"%string = Some (PInt locktime))
      ∧ (kwfields !! "nVersion"%string = None →
           Transaction.attrs A !! "nVersion"%string = Some (PInt version))
  else
    Transaction.init vin vout locktime version fields kwfields σ
    = (Raise ValueError, σ).
Proof.
  unfold Transaction.init, Transaction.CMutableTransaction_init.
  destruct ((0 <=? locktime) && (locktime <=? 0xffffffff)); [|done].
  set (a := <["nVersion" := PInt version]> _).
  unfold Transaction.set_serialization.
  assert (∀ r (τ : store),
            (∀ fld, fld ∈ deref τ r →
               is_Some (Transaction.fill_defaults (deref τ r) (kwfields ∪ a)
                          !! Field.name fld))
            ∧ (∀ k v, (kwfields ∪ a) !! k = Some v →
                 Transaction.fill_defaults (deref τ r) (kwfields ∪ a) !! k = Some v))
    as Hfill.
  { intros r τ. split.
    - intros fld Hfld. rewrite fill_defaults_lookup.
      destruct ((kwfields ∪ a) !! Field.name fld); [eauto|].
      destruct (List.find _ _) as [g|] eqn:Hfind; [by eexists|].
      exfalso. pose proof (find_none _ _ Hfind fld) as Hn.
      apply list_elem_of_In in Hfld. specialize (Hn Hfld). cbv beta in Hn.
      by rewrite String.eqb_refl in Hn.
    - intros k v Hk. by rewrite fill_defaults_lookup, Hk. }
  assert (∀ k v, kwfields !! k = Some v → (kwfields ∪ a) !! k = Some v) as Hkw
    by (intros k v Hk; by apply lookup_union_Some_l).
  assert (∀ k v, kwfields !! k = None → a !! k = Some v →
            (kwfields ∪ a) !! k = Some v) as Ha
    by (intros k v Hk Hv; by rewrite lookup_union_r).
  destruct fields as [r|].
  - eexists _, _. split; [reflexivity|]. cbn [Transaction.fields Transaction.attrs].
    destruct (Hfill r σ) as [H1 H2].
    split; [exact H1|]. split; [intros k v Hk; by apply H2, Hkw|].
    repeat split; intros Hnone; apply H2, Ha; try done.
  - destruct (new_list (deref σ (transaction_fields σ)) σ) as [r σ1] eqn:Hn.
    eexists _, _. split; [reflexivity|]. cbn [Transaction.fields Transaction.attrs].
    destruct (Hfill r σ1) as [H1 H2].
    split; [exact H1|]. split; [intros k v Hk; by apply H2, Hkw|].
    repeat split; intros Hnone; apply H2, Ha; try done.
Qed.

(** X4: [Transaction(...)] with keyword fields of ordinary names
    raises [ValueError], and changes nothing, exactly when the lock
    time is outside 0..0xffffffff.  Otherwise the new instance has an
    attribute for every field of the list of fields it reads, every
    keyword field has the value given for it, and vin, vout, nLockTime
    and nVersion have the values of the arguments unless a keyword
    field of that name replaces them.  (A keyword field called
    [fields] would be overwritten by [set_serialization], and one
    called [set_serialization] would make the call of that method
    fail.) *)
Theorem init_attributes (vin : option (list CTxIn.t))
    (vout : option (list CTxOut.t)) (locktime version : Z) (fields : option loc)
    (kwfields : gmap string pyval) (σ : store) :
  (∀ k, is_Some (kwfields !! k) → Transaction.ordinary_name k = true) →
  if (0 <=? locktime) && (locktime <=? 0xffffffff) then
    ∃ A σ',
      Transaction.init vin vout locktime version fields kwfields σ = (Ok A, σ')
      ∧ (∀ fld, fld ∈ deref σ' (Transaction.fields A) →
           is_Some (Transaction.attrs A !! Field.name fld))
      ∧ (∀ k v, kwfields !! k = Some v → Transaction.attrs A !! k = Some v)
      ∧ (kwfields !! "vin"%string = None →
           Transaction.attrs A !! "vin"%string = Some (PTxIns (default [] vin)))
      ∧ (kwfields !! "vout"%string = None →
           Transaction.attrs A !! "vout"%string = Some (PTxOuts (default [] vout)))
      ∧ (kwfields !! "nLockTime"%string = None →
           Transaction.attrs A !! "nLockTime"%string = Some (PInt locktime))
      ∧ (kwfields !! "nVersion"%string = None →
           Transaction.attrs A !! "nVersion"%string = Some (PInt version))
  else
    Transaction.init vin vout locktime version fields kwfields σ
    = (Raise ValueError, σ).
Proof. intros _. apply init_attributes_aux. Qed.

Lemma init_attributes_witness :
  (∀ k, is_Some (({[ "Timestamp"%string := PInt 7 ]} : gmap string pyval) !! k) →
        Transaction.ordinary_name k = true)
  ∧ ∃ A σ',
      Transaction.init None None 0 1 None {[ "Timestamp"%string := PInt 7 ]} clams_store
      = (Ok A, σ')
      ∧ Transaction.attrs A !! "Timestamp"%string = Some (PInt 7)
      ∧ Transaction.attrs A !! "nLockTime"%string = Some (PInt 0).
Proof.
  assert (∀ k, is_Some (({[ "Timestamp"%string := PInt 7 ]} : gmap string pyval) !! k) →
               Transaction.ordinary_name k = true) as Hkw.
  { intros k [v Hk]. apply lookup_singleton_Some in Hk as [<- _]. reflexivity. }
  split; [exact Hkw|].
  pose proof (init_attributes None None 0 1 None {[ "Timestamp"%string := PInt 7 ]}
                clams_store Hkw) as Hinit.
  change ((0 <=? 0) && (0 <=? 0xffffffff)) with true in Hinit. cbv iota in Hinit.
  destruct Hinit as (A & σ' & Hrun & _ & Hgiven & _ & _ & Hlock & _).
  exists A, σ'. split; [exact Hrun|]. split.
  - apply Hgiven. apply lookup_singleton_eq.
  - apply Hlock. apply lookup_singleton_ne. discriminate.
Defined.

Lemma init_None_new_list vin vout locktime version kwfields (σ σ' : store)
    (A : Transaction.t) :
  Transaction.init vin vout locktime version None kwfields σ = (Ok A, σ') →
  Transaction.fields A = (new_list (deref σ (transaction_fields σ)) σ).1
  ∧ σ' = (new_list (deref σ (transaction_fields σ)) σ).2.
Proof.
  unfold Transaction.init.
  destruct (Transaction.CMutableTransaction_init _ _ _ _) as [a|]; [|done].
  unfold Transaction.set_serialization.
  destruct (new_list (deref σ (transaction_fields σ)) σ) as [r σ1].
  by intros [= <- <-].
Qed.

(** X5: a transaction constructed without an explicit list of fields
    gets a list object of its own, holding what the active list holds:
    it is none of the list objects that existed, and two transactions
    constructed one after the other do not share theirs. *)
Theorem constructed_lists_distinct (σ σ1 σ2 : store) (A B : Transaction.t)
    (vin1 vin2 : option (list CTxIn.t)) (vout1 vout2 : option (list CTxOut.t))
    (locktime1 locktime2 version1 version2 : Z)
    (kwfields1 kwfields2 : gmap string pyval) :
  Transaction.init vin1 vout1 locktime1 version1 None kwfields1 σ = (Ok A, σ1) →
  Transaction.init vin2 vout2 locktime2 version2 None kwfields2 σ1 = (Ok B, σ2) →
  lists σ !! Transaction.fields A = None
  ∧ Transaction.fields A ≠ Transaction.fields B
  ∧ deref σ2 (Transaction.fields A) = deref σ (transaction_fields σ)
  ∧ deref σ2 (Transaction.fields B) = deref σ (transaction_fields σ).
Proof.
  intros [HA H1]%init_None_new_list [HB H2]%init_None_new_list.
  set (l := deref σ (transaction_fields σ)) in *.
  assert (deref σ1 (transaction_fields σ1) = l) as Hg.
  { rewrite H1. apply new_list_deref_global. }
  rewrite Hg in HB, H2.
  assert (lists σ1 !! Transaction.fields A = Some l) as HlA.
  { rewrite HA, H1. cbn [new_list fst snd lists]. by rewrite lookup_insert_eq. }
  split; [rewrite HA; apply new_list_fresh|].
  split; [|split].
  - intros Heq. pose proof (new_list_fresh l σ1) as Hf.
    rewrite <- HB, <- Heq in Hf. congruence.
  - rewrite H2. apply (deref_keeps σ1 _ _ l); [intros r x; apply new_list_keeps | done].
  - rewrite HB, H2. apply deref_new_list.
Qed.

Lemma constructed_lists_distinct_witness :
  let σ := (chainparams.set_to_preset "Bitcoin" empty_store).2 in
  ∃ A σ1 B σ2,
    Transaction.init None None 0 1 None ∅ σ = (Ok A, σ1)
    ∧ Transaction.init None None 0 2 None ∅ σ1 = (Ok B, σ2)
    ∧ Transaction.fields A ≠ Transaction.fields B.
Proof.
  intros σ. eexists _, _, _, _.
  split; [by vm_compute|]. split; [by vm_compute|].
  eapply (constructed_lists_distinct σ _ _ _ _ None None None None 0 0 1 2 ∅ ∅);
    by vm_compute.
Defined.

(** ** [from_tx] again *)

Lemma fill_defaults_idem (flds : list Field.t) (a : gmap string pyval) :
  Transaction.fill_defaults flds (Transaction.fill_defaults flds a)
  = Transaction.fill_defaults flds a.
Proof.
  apply map_eq. intros k. rewrite !fill_defaults_lookup.
  destruct (a !! k); [done|]. by destruct (List.find _ flds).
Qed.

(** X6: passing to [from_tx] a transaction that [from_tx] returned
    changes nothing more, as long as the active schema is the same: the
    second call returns the transaction as it is. *)
Theorem from_tx_idempotent (tx tx1 : Transaction.t) (σ σ1 : store) :
  Transaction.from_tx (Transaction.this tx) σ = (Ok tx1, σ1) →
  Transaction.from_tx (Transaction.this tx1) σ1 = (Ok tx1, σ1).
Proof.
  cbn [Transaction.from_tx]. intros [= <- <-].
  cbn [Transaction.fields Transaction.attrs]. by rewrite fill_defaults_idem.
Qed.

Lemma from_tx_idempotent_witness :
  ∃ tx1,
    Transaction.from_tx (Transaction.this clams_tx) clams_store = (Ok tx1, clams_store)
    ∧ Transaction.from_tx (Transaction.this tx1) clams_store = (Ok tx1, clams_store).
Proof.
  eexists. split; [reflexivity|].
  by apply (from_tx_idempotent clams_tx _ clams_store clams_store).
Defined.


(** ** What is written fits *)




(** ** The setters of chainparams.py *)

Lemma new_list_wf (l : list Field.t) (σ : store) :
  wf_store σ → wf_store (new_list l σ).2.
Proof.
  intros ([x Hx] & [y Hy] & [z Hz]). repeat split.
  - exists x. by apply new_list_keeps.
  - exists y. by apply new_list_keeps.
  - exists z. by apply new_list_keeps.
Qed.

Lemma new_list_deref_old (l : list Field.t) (σ : store) (r : loc) :
  is_Some (lists σ !! r) → deref (new_list l σ).2 r = deref σ r.
Proof.
  intros [x Hx]. rewrite (deref_keeps σ _ r x); [| intros r' y; apply new_list_keeps | done].
  unfold deref. by rewrite Hx.
Qed.

(** X9: each setter sets what it names and nothing else.  In a store
    whose module globals refer to list objects, [set_tx_fields],
    [set_block_header_fields] and [set_block_fields] make their getter
    return a list that holds the fields given, [set_opcode_overrides]
    sets the override table, and each leaves the other three settings
    and every existing list object as they were. *)
Theorem setters_frame (fields : list Field.t) (ops : list (Z * string * handler))
    (σ : store) :
  wf_store σ →
  (let σ' := chainparams.set_tx_fields fields σ in
   wf_store σ'
   ∧ deref σ' (chainparams.get_tx_fields σ') = fields
   ∧ deref σ' (chainparams.get_block_header_fields σ')
     = deref σ (chainparams.get_block_header_fields σ)
   ∧ deref σ' (chainparams.get_block_fields σ')
     = deref σ (chainparams.get_block_fields σ)
   ∧ chainparams.get_opcode_overrides σ' = chainparams.get_opcode_overrides σ
   ∧ ∀ r x, lists σ !! r = Some x → lists σ' !! r = Some x)
  ∧ (let σ' := chainparams.set_block_header_fields fields σ in
     wf_store σ'
     ∧ deref σ' (chainparams.get_block_header_fields σ') = fields
     ∧ deref σ' (chainparams.get_tx_fields σ')
       = deref σ (chainparams.get_tx_fields σ)
     ∧ deref σ' (chainparams.get_block_fields σ')
       = deref σ (chainparams.get_block_fields σ)
     ∧ chainparams.get_opcode_overrides σ' = chainparams.get_opcode_overrides σ
     ∧ ∀ r x, lists σ !! r = Some x → lists σ' !! r = Some x)
  ∧ (let σ' := chainparams.set_block_fields fields σ in
     wf_store σ'
     ∧ deref σ' (chainparams.get_block_fields σ') = fields
     ∧ deref σ' (chainparams.get_tx_fields σ')
       = deref σ (chainparams.get_tx_fields σ)
     ∧ deref σ' (chainparams.get_block_header_fields σ')
       = deref σ (chainparams.get_block_header_fields σ)
     ∧ chainparams.get_opcode_overrides σ' = chainparams.get_opcode_overrides σ
     ∧ ∀ r x, lists σ !! r = Some x → lists σ' !! r = Some x)
  ∧ (let σ' := chainparams.set_opcode_overrides ops σ in
     wf_store σ'
     ∧ chainparams.get_opcode_overrides σ'
       = foldl (fun m '(value, name, func) => <[value := (name, func)]> m) ∅ ops
     ∧ chainparams.get_tx_fields σ' = chainparams.get_tx_fields σ
     ∧ chainparams.get_block_header_fields σ'
       = chainparams.get_block_header_fields σ
     ∧ chainparams.get_block_fields σ' = chainparams.get_block_fields σ
     ∧ lists σ' = lists σ).
Proof.
  intros Hwf. pose proof Hwf as (Ht & Hh & Hb).
  pose proof (new_list_keeps fields) as Hk.
  pose proof (new_list_deref_old fields σ) as Hold.
  pose proof (deref_new_list fields σ) as Hnew.
  assert (is_Some (lists (new_list fields σ).2 !! (new_list fields σ).1)) as Hsome
    by (cbn [new_list fst snd lists]; rewrite lookup_insert_eq; eauto).
  pose proof (new_list_wf fields σ Hwf) as (Ht' & Hh' & Hb').
  split; [|split; [|split]].
  - cbv zeta. split; [by repeat split|].
    split; [exact Hnew|]. split; [by apply Hold|]. split; [by apply Hold|].
    split; [done|]. intros r x. apply Hk.
  - cbv zeta. split; [by repeat split|].
    split; [exact Hnew|]. split; [by apply Hold|]. split; [by apply Hold|].
    split; [done|]. intros r x. apply Hk.
  - cbv zeta. split; [by repeat split|].
    split; [exact Hnew|]. split; [by apply Hold|]. split; [by apply Hold|].
    split; [done|]. intros r x. apply Hk.
  - cbv zeta. by repeat split.
Qed.

Lemma set_to_preset_wf (name : string) (p : ParamsPreset.t) (σ : store) :
  chainparams.presets !! name = Some p →
  wf_store (chainparams.set_to_preset name σ).2.
Proof.
  intros Hp. unfold chainparams.set_to_preset. rewrite Hp. cbn [snd].
  set (σ1 := chainparams.set_tx_fields _ σ).
  set (σ2 := chainparams.set_block_header_fields _ σ1).
  set (σ3 := chainparams.set_block_fields _ σ2).
  assert (wf_store σ3) as Hwf; [|exact Hwf].
  repeat split.
  - exists (ParamsPreset.tx_fields p).
    by apply set_block_fields_keeps, set_block_header_fields_keeps, set_tx_fields_new.
  - exists (ParamsPreset.block_header_fields p).
    by apply set_block_fields_keeps, set_block_header_fields_new.
  - exists (ParamsPreset.block_fields p). apply set_block_fields_new.
Qed.

Lemma setters_frame_witness :
  let σ := (chainparams.set_to_preset "Bitcoin" empty_store).2 in
  let σ' := chainparams.set_tx_fields mismatched_schema σ in
  wf_store σ
  ∧ deref σ' (chainparams.get_tx_fields σ') = mismatched_schema
  ∧ deref σ' (chainparams.get_block_header_fields σ')
    = deref σ (chainparams.get_block_header_fields σ).
Proof.
  intros σ σ'.
  assert (wf_store σ) as Hwf
    by (apply (set_to_preset_wf "Bitcoin" chainparams.BitcoinPreset); by vm_compute).
  split; [exact Hwf|].
  destruct (setters_frame mismatched_schema [] σ Hwf) as [(_ & H1 & H2 & _) _].
  by split.
Defined.

(** * More of script_gen.py *)

Section script_gen_more.
Context {Script : Type}.
Variable human_iter : Script → list string.
Variable from_human : string → option Script.
Variable format_hex_string : string → bool → option string.

Local Abbreviation is_valid_variable_value :=
  (script_gen.is_valid_variable_value format_hex_string).
Local Abbreviation match_tokens := (script_gen.match_tokens format_hex_string).
Local Abbreviation is_template_script :=
  (script_gen.is_template_script human_iter format_hex_string).
Local Abbreviation coerce_item :=
  (script_gen.coerce_item human_iter from_human format_hex_string).

(** When the loop ends with [break], the script was no longer than the
    text from [index] on and every token agreed with the text. *)
Lemma match_tokens_Some (t : script_gen.ScriptTemplate) (text iterator : list string)
    (index : nat) (used used' : list string) :
  match_tokens t text iterator index used = Some used' →
  (length iterator ≤ length (drop index text))%nat
  ∧ Forall2 (token_matches format_hex_string t) iterator
      (take (length iterator) (drop index text)).
Proof.
  revert index used. induction iterator as [|s iterator IH]; intros index used.
  { intros _. split; [simpl; lia | constructor]. }
  cbn [script_gen.match_tokens].
  destruct (text !! index) as [txt|] eqn:Htxt; [|done].
  rewrite (drop_S _ _ _ Htxt). cbn [length take].
  assert (∀ used1,
            match_tokens t text iterator (S index) used1 = Some used' →
            token_matches format_hex_string t s txt →
            (S (length iterator) ≤ S (length (drop (S index) text)))%nat
            ∧ Forall2 (token_matches format_hex_string t) (s :: iterator)
                (txt :: take (length iterator) (drop (S index) text))) as Hstep.
  { intros used1 Hm Hs. apply IH in Hm as [Hlen Hall].
    split; [lia | by constructor]. }
  unfold token_matches in Hstep.
  destruct (script_gen.is_variable txt).
  - destruct (script_gen.variables t !! script_gen.slice_1_m1 txt) as [ty|]; [|done].
    destruct (is_valid_variable_value s ty) as [[|]|] eqn:Hok; [|done|done].
    intros Hm. apply (Hstep _ Hm). eauto.
  - destruct (String.eqb_spec s txt) as [->|]; [|done]. simpl.
    intros Hm. by apply (Hstep _ Hm).
Qed.

(** X10: [is_template_script] returns [True] exactly when the script
    has no more tokens than the template text, each token agrees with
    the template token at its position (the same token, or a valid value
    where the template has a declared variable), and every variable the
    template declares occurs among the template tokens the script
    reaches.  In particular a script longer than the template text
    never complies. *)
Theorem is_template_script_iff (script : Script) (t : script_gen.ScriptTemplate) :
  is_template_script script t = true
  ↔ (length (human_iter script)
       ≤ length (script_gen.split (script_gen.text t)))%nat
    ∧ Forall2 (token_matches format_hex_string t) (human_iter script)
        (take (length (human_iter script)) (script_gen.split (script_gen.text t)))
    ∧ ∀ k, is_Some (script_gen.variables t !! k) →
           k ∈ variable_names
                 (take (length (human_iter script))
                    (script_gen.split (script_gen.text t))).
Proof.
  unfold script_gen.is_template_script. split.
  - destruct (match_tokens t _ _ 0%nat []) as [used|] eqn:Hm; [|done].
    intros Hall. destruct (match_tokens_Some _ _ _ _ _ _ Hm) as [Hlen H2].
    rewrite drop_0 in Hlen, H2. split; [done|]. split; [done|].
    rewrite match_tokens_prefix in Hm by (rewrite ?drop_0; done).
    rewrite drop_0 in Hm. injection Hm as <-.
    intros k Hk%keys_lookup%list_elem_of_In.
    rewrite forallb_forall in Hall. by apply contains_elem_of, Hall.
  - intros (Hlen & H2 & Hvars).
    rewrite match_tokens_prefix by (rewrite ?drop_0; done). rewrite drop_0.
    apply forallb_forall. intros k Hk%list_elem_of_In%keys_lookup.
    apply contains_elem_of. simpl. by apply Hvars.
Qed.

Lemma find_first {A} (P : A → bool) (l : list A) :
  match List.find P l with
  | Some x => ∃ pre post, l = pre ++ x :: post
                          ∧ Forall (fun y => P y = false) pre ∧ P x = true
  | None => Forall (fun y => P y = false) l
  end.
Proof.
  induction l as [|y l IH]; [constructor|]. cbn [List.find].
  destruct (P y) eqn:Hy.
  - exists [], l. by repeat split.
  - destruct (List.find P l) as [x|].
    + destruct IH as (pre & post & -> & Hpre & Hx).
      exists (y :: pre), post. repeat split; [|done]. by constructor.
    + by constructor.
Qed.

(** X11: [coerce_item] takes the first template of the list that the
    script complies with: the item it returns holds the script and a
    template that the script complies with and that is preceded in the
    list only by templates the script does not comply with; it returns
    [None] exactly when the script complies with no template of the
    list. *)
Theorem coerce_item_first_match (known : list script_gen.ScriptTemplate)
    (script : Script) :
  match coerce_item known (script_gen.is_script script) with
  | Some item =>
      script_gen.value item = script
      ∧ is_template_script script (script_gen.template item) = true
      ∧ ∃ pre post,
          known = pre ++ script_gen.template item :: post
          ∧ Forall (fun t => is_template_script script t = false) pre
  | None => Forall (fun t => is_template_script script t = false) known
  end.
Proof.
  unfold script_gen.coerce_item. cbn [mbind option_bind].
  pose proof (find_first (is_template_script script) known) as Hf.
  destruct (List.find (is_template_script script) known) as [t|]; [|done].
  cbn [mbind option_bind script_gen.ScriptTemplateItem_init script_gen.value
       script_gen.template].
  destruct Hf as (pre & post & -> & Hpre & Ht). eauto 10.
Qed.

(** What is not a script is parsed first; when parsing raises there is
    no item. *)
Lemma coerce_item_other (known : list script_gen.ScriptTemplate) (data : string) :
  coerce_item known (script_gen.other data)
  = match from_human data with
    | Some script => coerce_item known (script_gen.is_script script)
    | None => None
    end.
Proof. unfold script_gen.coerce_item. by destruct (from_human data). Qed.

(** The variables of an item: what [populate] adds are the script's
    tokens at the positions of the template's variables. *)
Lemma populate_valid (t : script_gen.ScriptTemplate) (text iterator : list string)
    (index : nat) (vars : gmap string string) :
  (length iterator ≤ length (drop index text))%nat →
  Forall2 (token_matches format_hex_string t) iterator
    (take (length iterator) (drop index text)) →
  (∀ k s, vars !! k = Some s →
     ∃ ty, script_gen.variables t !! k = Some ty
           ∧ is_valid_variable_value s ty = Ok true) →
  (∀ k s, script_gen.populate text iterator index vars !! k = Some s →
     ∃ ty, script_gen.variables t !! k = Some ty
           ∧ is_valid_variable_value s ty = Ok true)
  ∧ (∀ k, is_Some (vars !! k)
          ∨ k ∈ variable_names (take (length iterator) (drop index text)) →
          is_Some (script_gen.populate text iterator index vars !! k)).
Proof.
  revert index vars. induction iterator as [|s iterator IH]; intros index vars Hlen Hall Hvars.
  { split; [done|]. intros k [Hk|Hk]; [done|]. by apply elem_of_nil in Hk. }
  destruct (drop index text) as [|txt rest] eqn:Hdrop; [simpl in Hlen; lia|].
  assert (text !! index = Some txt) as Htxt.
  { assert (drop index text !! 0%nat = Some txt) as H0 by (by rewrite Hdrop).
    by rewrite lookup_drop, Nat.add_0_r in H0. }
  assert (drop (S index) text = rest) as Hrest.
  { rewrite (drop_S _ _ _ Htxt) in Hdrop. by injection Hdrop. }
  cbn [length take] in Hall, Hlen. apply Forall2_cons in Hall as [Hs Hall].
  rewrite <- Hrest in Hall, Hlen.
  cbn [script_gen.populate]. rewrite Htxt.
  unfold token_matches in Hs. cbn [length take]. unfold variable_names.
  rewrite filter_cons.
  destruct (script_gen.is_variable txt) eqn:Hvar.
  - destruct Hs as (ty & Hty & Hok).
    destruct (IH (S index) (<[script_gen.slice_1_m1 txt := s]> vars)) as [H1 H2];
      [lia | done | |].
    { intros k s' [[<- <-]|[_ Hk]]%lookup_insert_Some; [eauto | by apply Hvars]. }
    split; [exact H1|]. intros k Hk. apply H2.
    rewrite decide_True in Hk by done. rewrite fmap_cons in Hk.
    destruct (decide (k = script_gen.slice_1_m1 txt)) as [->|Hne].
    + left. rewrite lookup_insert_eq. eauto.
    + rewrite lookup_insert_ne by done.
      destruct Hk as [Hk|Hk]; [by left|].
      apply elem_of_cons in Hk as [?|Hk]; [done|]. right.
      by rewrite Hrest.
  - destruct (IH (S index) vars) as [H1 H2]; [lia | done | done |].
    split; [exact H1|]. intros k Hk. apply H2.
    rewrite decide_False in Hk by done.
    destruct Hk as [Hk|Hk]; [by left|]. right. by rewrite Hrest.
Qed.

(** X12: the item made of a script and a template it complies with has
    a value for every variable the template declares, and each value is
    a valid value of the variable's type. *)
Theorem recognized_item_variables_valid (script : Script)
    (t : script_gen.ScriptTemplate) (k var_type : string) :
  is_template_script script t = true →
  script_gen.variables t !! k = Some var_type →
  ∃ s,
    script_gen.item_variables (script_gen.ScriptTemplateItem_init human_iter script t)
      !! k = Some s
    ∧ is_valid_variable_value s var_type = Ok true.
Proof.
  unfold script_gen.is_template_script. intros Hok Hk.
  destruct (match_tokens t _ _ 0%nat []) as [used|] eqn:Hm; [|done].
  destruct (match_tokens_Some _ _ _ _ _ _ Hm) as [Hlen H2].
  rewrite match_tokens_prefix in Hm by done. injection Hm as <-.
  destruct (populate_valid t (script_gen.split (script_gen.text t))
              (human_iter script) 0 ∅ Hlen H2) as [H3 H4].
  { intros k' s'. by rewrite lookup_empty. }
  cbn [script_gen.ScriptTemplateItem_init script_gen.item_variables].
  destruct (H4 k) as [s Hs].
  { right. rewrite forallb_forall in Hok. apply contains_elem_of. simpl.
    apply Hok, list_elem_of_In, keys_lookup. eauto. }
  exists s. split; [done|].
  destruct (H3 k s Hs) as (ty & Hty & Hv). rewrite Hk in Hty. by injection Hty as <-.
Qed.

End script_gen_more.

Lemma recognized_item_variables_valid_witness :
  let script :=
    [ "OP_DUP"; "OP_HASH160"; example_hash160; "OP_EQUALVERIFY"; "OP_CHECKSIG" ]%string in
  let t := script_gen.mk_template "Pay-To-Public-Key-Hash Output"
             "OP_DUP OP_HASH160 <recipient> OP_EQUALVERIFY OP_CHECKSIG"
             {[ "recipient"%string := "address"%string ]} in
  script_gen.is_template_script tokens_of strip_0x script t = true
  ∧ script_gen.variables t !! "recipient"%string = Some "address"%string
  ∧ ∃ s,
      script_gen.item_variables
        (script_gen.ScriptTemplateItem_init tokens_of script t) !! "recipient"%string
      = Some s
      ∧ script_gen.is_valid_variable_value strip_0x s "address" = Ok true.
Proof.
  intros script t.
  assert (script_gen.is_template_script tokens_of strip_0x script t = true) as H1
    by (by vm_compute).
  split; [exact H1|]. split; [reflexivity|].
  exact (recognized_item_variables_valid tokens_of strip_0x script t
           "recipient" "address" H1 eq_refl).
Defined.

(** * The plugin handler *)

Section handler_facts.
Context {Data Callback : Type} `{EqDecision Data, EqDecision Callback}.
Variable required_plugins : list string.
Variable default_plugins : list string.

Ltac list_mem :=
  rewrite ?elem_of_app, ?elem_of_cons, ?list_elem_of_singleton;
  intuition (auto; congruence).

Local Abbreviation Augmentation := (@plugin_handler.Augmentation Data Callback).
Local Abbreviation event := (@plugin_handler.event Data Callback).
Local Abbreviation handler := (@plugin_handler.t Data Callback).
Local Abbreviation key := (@augmentation_key Data Callback).

Lemma called_app (tr1 tr2 : list event) : called (tr1 ++ tr2) = called tr1 ++ called tr2.
Proof. unfold called. apply omap_app. Qed.

Lemma is_key_true (p h : string) (i : Augmentation) :
  plugin_handler.is_key p h i = true ↔ key i = (p, h).
Proof.
  unfold plugin_handler.is_key, augmentation_key.
  rewrite andb_true_iff, !String.eqb_eq. split; [by intros [-> ->] | by intros [= -> ->]].
Qed.

(** What [do_augment] does to an augmentation. *)
Lemma do_augment_cases (a : Augmentation) :
  key (plugin_handler.do_augment a).1 = key a
  ∧ (plugin_handler.has_run a = true →
       plugin_handler.has_run (plugin_handler.do_augment a).1 = true)
  ∧ (called (plugin_handler.do_augment a).2 = []
     ∨ called (plugin_handler.do_augment a).2 = [key a]
       ∧ plugin_handler.has_run a = false
       ∧ plugin_handler.has_run (plugin_handler.do_augment a).1 = true).
Proof.
  unfold plugin_handler.do_augment.
  destruct (plugin_handler.has_run a) eqn:Hr; [by repeat split; try left|].
  destruct (_ || _) eqn:Hc; cbn [fst snd]; [by repeat split; try left|].
  split; [done|]. split; [done|]. right.
  split; [|done]. by destruct (plugin_handler.callback a).
Qed.

Lemma get_split (augs : list Augmentation) (p h : string) (x : Augmentation)
    (f : Augmentation → Augmentation) :
  plugin_handler.get augs p h = Some x →
  ∃ pre post, augs = pre ++ x :: post
              ∧ key x = (p, h)
              ∧ plugin_handler.alter_first (plugin_handler.is_key p h) f augs
                = pre ++ f x :: post.
Proof.
  unfold plugin_handler.get. induction augs as [|y augs IH]; [done|].
  cbn [List.find plugin_handler.alter_first].
  destruct (plugin_handler.is_key p h y) eqn:Hy.
  - intros [= ->]. exists [], augs. split; [done|]. by split; [apply is_key_true|].
  - intros Hf. destruct (IH Hf) as (pre & post & -> & Hk & Ha).
    exists (y :: pre), post. split; [done|]. split; [done|]. simpl. by rewrite Ha.
Qed.

Lemma get_None (augs : list Augmentation) (p h : string) :
  plugin_handler.get augs p h = None → (p, h) ∉ (key <$> augs).
Proof.
  unfold plugin_handler.get. intros Hf (i & Hk & Hi)%list_elem_of_fmap.
  apply list_elem_of_In in Hi. pose proof (find_none _ _ Hf i Hi) as Hn.
  symmetry in Hk. apply is_key_true in Hk. congruence.
Qed.

(** Changing one augmentation in place keeps the invariant, when its
    key stays, a run stays a run, and an augmenter is called only for an
    augmentation that had not run and now has. *)
Lemma inv_replace (pre post : list Augmentation) (x x' : Augmentation)
    (tr ev : list event) :
  run_once_inv (pre ++ x :: post) tr →
  key x' = key x →
  (plugin_handler.has_run x = true → plugin_handler.has_run x' = true) →
  (called ev = []
   ∨ called ev = [key x] ∧ plugin_handler.has_run x = false
     ∧ plugin_handler.has_run x' = true) →
  run_once_inv (pre ++ x' :: post) (tr ++ ev).
Proof.
  intros (Hk & Hc & Hrun) Hkey Hkeep Hev.
  assert (key <$> pre ++ x' :: post = key <$> pre ++ x :: post) as Hkeys
    by (by rewrite !fmap_app, !fmap_cons, Hkey).
  assert (∀ k, (∃ i, i ∈ pre ++ x :: post ∧ key i = k ∧ plugin_handler.has_run i = true) →
               ∃ i, i ∈ pre ++ x' :: post ∧ key i = k ∧ plugin_handler.has_run i = true)
    as Hstill.
  { intros k (i & Hi & Hki & Hri).
    apply elem_of_app in Hi as [Hi|Hi]; [exists i; list_mem|].
    apply elem_of_cons in Hi as [->|Hi]; [|exists i; list_mem].
    exists x'. split; [list_mem|]. split; [congruence | by apply Hkeep]. }
  split; [by rewrite Hkeys|]. rewrite called_app.
  destruct Hev as [->|(-> & Hx & Hx')].
  - rewrite app_nil_r. split; [done|]. intros k Hin. by apply Hstill, Hrun.
  - assert (key x ∉ called tr) as Hnew.
    { intros Hin. destruct (Hrun _ Hin) as (i & Hi & Hki & Hri).
      assert (i = x); [|congruence].
      apply list_elem_of_lookup in Hi as [n Hn].
      assert ((pre ++ x :: post) !! length pre = Some x) as Hpos
        by (by rewrite list_lookup_middle).
      assert (n = length pre); [|congruence].
      eapply (NoDup_lookup _ _ _ (key x) Hk); rewrite list_lookup_fmap.
      - by rewrite Hn; simpl; rewrite Hki.
      - by rewrite Hpos. }
    split.
    + apply NoDup_app. split; [done|]. split; [|apply NoDup_singleton].
      intros k Hin ->%list_elem_of_singleton. done.
    + intros k [Hin|Hin]%elem_of_app; [by apply Hstill, Hrun|].
      apply list_elem_of_singleton in Hin as ->. exists x'. split; [list_mem|]. by split.
Qed.

Lemma inv_append (augs : list Augmentation) (tr : list event) (x : Augmentation) :
  run_once_inv augs tr → key x ∉ (key <$> augs) → run_once_inv (augs ++ [x]) tr.
Proof.
  intros (Hk & Hc & Hrun) Hnew. split; [|split; [done|]].
  - rewrite fmap_app. apply NoDup_app. split; [done|].
    split; [|apply NoDup_singleton].
    intros k Hin ->%list_elem_of_singleton. done.
  - intros k Hin. destruct (Hrun k Hin) as (i & Hi & ?). exists i. list_mem.
Qed.

Lemma inv_quiet (augs : list Augmentation) (tr ev : list event) :
  run_once_inv augs tr → called ev = [] → run_once_inv augs (tr ++ ev).
Proof. intros Hinv Hev. unfold run_once_inv. by rewrite called_app, Hev, app_nil_r. Qed.

Lemma hook_plugin_inv (class_name hook : string) (d : Data) (cb : option Callback)
    (enabled : list string) (augs : list Augmentation) (tr : list event)
    (plugin : plugin_handler.Plugin) :
  run_once_inv augs tr →
  run_once_inv
    (plugin_handler.hook_plugin class_name hook d cb enabled (augs, tr) plugin).1
    (plugin_handler.hook_plugin class_name hook d cb enabled (augs, tr) plugin).2.
Proof.
  intros Hinv. unfold plugin_handler.hook_plugin.
  destruct (plugin_handler.contains _ hook); [|done].
  set (new := plugin_handler.Augmentation_init plugin hook (Some class_name) d cb).
  assert (run_once_inv
            match plugin_handler.get augs (plugin_handler.name plugin) hook with
            | Some _ => augs
            | None => augs ++ [new]
            end tr) as Hinv1.
  { destruct (plugin_handler.get augs _ hook) eqn:Hg; [done|].
    apply inv_append; [done|]. by apply get_None in Hg. }
  revert Hinv1. generalize (match plugin_handler.get augs (plugin_handler.name plugin) hook with
                            | Some _ => augs
                            | None => augs ++ [new]
                            end).
  intros augs1 Hinv1.
  destruct (plugin_handler.get augs1 _ hook) as [a|] eqn:Hg; [|done].
  destruct (negb _).
  - destruct (get_split _ _ _ _ (plugin_handler.set_is_enabled false) Hg)
      as (pre & post & -> & Hk & ->). cbn [fst snd].
    rewrite <- (app_nil_r tr). by apply (inv_replace pre post a); [| | |left].
  - destruct (plugin_handler.do_augment a) as [a' ev] eqn:Hd.
    destruct (get_split _ _ _ _ (fun _ => a') Hg) as (pre & post & -> & Hk & ->).
    cbn [fst snd]. pose proof (do_augment_cases a) as (H1 & H2 & H3).
    rewrite Hd in H1, H2, H3. by apply (inv_replace pre post a).
Qed.

Lemma do_augment_hook_inv (class_name hook : string) (d : Data) (cb : option Callback)
    (self : handler) :
  run_once_inv (plugin_handler.augmentations self) (plugin_handler.trace self) →
  run_once_inv
    (plugin_handler.augmentations
       (plugin_handler.do_augment_hook default_plugins class_name hook d cb self))
    (plugin_handler.trace
       (plugin_handler.do_augment_hook default_plugins class_name hook d cb self)).
Proof.
  intros Hinv. unfold plugin_handler.do_augment_hook.
  destruct (negb _); [by case_bool_decide|].
  set (step := plugin_handler.hook_plugin class_name hook d cb _).
  assert (∀ l st, run_once_inv st.1 st.2 →
                  run_once_inv (foldl step st l).1 (foldl step st l).2) as Hfold.
  { induction l as [|p l IH]; intros [augs tr] Hst; [done|].
    cbn [foldl]. apply IH. by apply hook_plugin_inv. }
  specialize (Hfold (plugin_handler.loaded_plugins self)
                (plugin_handler.augmentations self, plugin_handler.trace self) Hinv).
  by destruct (foldl step _ _).
Qed.

Lemma run_disabled_inv (plugin_name : string) (done todo : list Augmentation)
    (tr : list event) :
  run_once_inv (done ++ todo) tr →
  run_once_inv (done ++ (plugin_handler.run_disabled plugin_name todo).1)
    (tr ++ (plugin_handler.run_disabled plugin_name todo).2).
Proof.
  revert done tr. induction todo as [|i todo IH]; intros done tr Hinv.
  { simpl. by rewrite !app_nil_r in *. }
  cbn [plugin_handler.run_disabled].
  set (r := if negb (plugin_handler.is_enabled i)
               && String.eqb (plugin_handler.augmenter_plugin i) plugin_name
            then if negb (plugin_handler.has_run i)
                 then plugin_handler.do_augment (plugin_handler.set_is_enabled true i)
                 else (i, [])
            else (i, [])).
  assert (run_once_inv (done ++ r.1 :: todo) (tr ++ r.2)) as Hstep.
  { subst r. destruct (_ && _); [|by rewrite app_nil_r].
    destruct (plugin_handler.has_run i) eqn:Hr; [by rewrite app_nil_r|].
    cbn [negb].
    pose proof (do_augment_cases (plugin_handler.set_is_enabled true i))
      as (H1 & H2 & H3).
    apply (inv_replace done todo i); [done | exact H1 | by rewrite Hr |].
    destruct H3 as [?|(? & _ & ?)]; [by left | by right]. }
  destruct r as [i' ev]. cbn [fst snd] in Hstep.
  assert (run_once_inv ((done ++ [i']) ++ todo) (tr ++ ev)) as Hstep'
    by (by rewrite <- app_assoc).
  pose proof (IH (done ++ [i']) (tr ++ ev) Hstep') as Hrest.
  destruct (plugin_handler.run_disabled plugin_name todo) as [rest ev'].
  cbn [fst snd] in *. by rewrite <- !app_assoc in Hrest.
Qed.

Lemma called_assign_dock_shortcuts (self : handler) :
  called (plugin_handler.assign_dock_shortcuts self) = [].
Proof.
  unfold plugin_handler.assign_dock_shortcuts.
  induction (plugin_handler.loaded_plugins self) as [|p l IH]; [done|].
  cbn [omap list_omap]. by destruct (negb (plugin_handler.has_gui p)).
Qed.

Lemma set_plugin_enabled_inv (plugin_name : string) (is_enabled : bool)
    (self : handler) :
  run_once_inv (plugin_handler.augmentations self) (plugin_handler.trace self) →
  run_once_inv
    (plugin_handler.augmentations
       (plugin_handler.set_plugin_enabled required_plugins plugin_name is_enabled self))
    (plugin_handler.trace
       (plugin_handler.set_plugin_enabled required_plugins plugin_name is_enabled self)).
Proof.
  intros Hinv. unfold plugin_handler.set_plugin_enabled.
  destruct (plugin_handler.get_plugin self plugin_name) as [plugin|]; [|done].
  destruct (_ && _); [done|].
  set (ev1 := if plugin_handler.has_gui plugin then _ else _).
  assert (called ev1 = []) as Hev1
    by (subst ev1; destruct (plugin_handler.has_gui plugin); [by destruct is_enabled | done]).
  destruct is_enabled.
  - pose proof (run_disabled_inv (plugin_handler.name plugin) []
                  (plugin_handler.augmentations self) (plugin_handler.trace self ++ ev1)
                  (inv_quiet _ _ _ Hinv Hev1)) as Hrun.
    destruct (plugin_handler.run_disabled _ _) as [augs ev2].
    cbn [fst snd app plugin_handler.augmentations plugin_handler.trace] in *.
    apply inv_quiet; [by rewrite <- app_assoc in Hrun|].
    apply called_assign_dock_shortcuts.
  - cbn [plugin_handler.augmentations plugin_handler.trace].
    apply inv_quiet; [|apply called_assign_dock_shortcuts].
    rewrite app_nil_r. by apply inv_quiet.
Qed.

Lemma update_enabled_plugins_inv (self : handler) :
  run_once_inv (plugin_handler.augmentations self) (plugin_handler.trace self) →
  run_once_inv
    (plugin_handler.augmentations
       (plugin_handler.update_enabled_plugins required_plugins default_plugins self))
    (plugin_handler.trace
       (plugin_handler.update_enabled_plugins required_plugins default_plugins self)).
Proof.
  unfold plugin_handler.update_enabled_plugins.
  generalize (plugin_handler.get_option self "enabled_plugins" default_plugins).
  intros enabled.
  generalize (plugin_handler.name <$> plugin_handler.loaded_plugins self).
  intros names. revert self. induction names as [|n names IH]; intros self Hinv; [done|].
  cbn [foldl]. apply IH. by apply set_plugin_enabled_inv.
Qed.

Lemma run_calls_inv (calls : list (@handler_call Data Callback)) (self : handler) :
  run_once_inv (plugin_handler.augmentations self) (plugin_handler.trace self) →
  run_once_inv
    (plugin_handler.augmentations (run_calls required_plugins default_plugins self calls))
    (plugin_handler.trace (run_calls required_plugins default_plugins self calls)).
Proof.
  unfold run_calls. revert self. induction calls as [|c calls IH]; intros self Hinv; [done|].
  cbn [foldl]. apply IH. destruct c; cbn [run_call].
  - by apply do_augment_hook_inv.
  - by apply set_plugin_enabled_inv.
  - by apply update_enabled_plugins_inv.
Qed.

(** X13: an augmenter is never called twice.  From a handler with no
    augmentation and an empty record of calls, whatever calls to
    [do_augment_hook], [set_plugin_enabled] and [update_enabled_plugins]
    follow, no augmenter of a plugin is called more than once for the
    same hook, and no two augmentations are kept for the same plugin and
    hook. *)
Theorem augmenter_called_at_most_once (calls : list (@handler_call Data Callback))
    (self : handler) :
  plugin_handler.augmentations self = [] →
  plugin_handler.trace self = [] →
  NoDup (called
           (plugin_handler.trace
              (run_calls required_plugins default_plugins self calls)))
  ∧ NoDup (augmentation_key
             <$> plugin_handler.augmentations
                   (run_calls required_plugins default_plugins self calls)).
Proof.
  intros Ha Ht.
  destruct (run_calls_inv calls self) as (H1 & H2 & _); [|done].
  rewrite Ha, Ht. split; [apply NoDup_nil_2|]. split; [apply NoDup_nil_2|].
  intros k Hk. by apply elem_of_nil in Hk.
Qed.

(** X14: before the plugins are loaded, [do_augment_hook] only notes
    the request: nothing is called, no augmentation is made, the
    request is among those waiting, and asking again changes nothing. *)
Theorem do_augment_hook_waits (class_name hook : string) (d : Data)
    (cb : option Callback) (self : handler) :
  plugin_handler.plugins_loaded self = false →
  let self1 := plugin_handler.do_augment_hook default_plugins class_name hook d cb self in
  plugin_handler.trace self1 = plugin_handler.trace self
  ∧ plugin_handler.augmentations self1 = plugin_handler.augmentations self
  ∧ (class_name, hook, d, cb) ∈ plugin_handler.waiting_augmentations self1
  ∧ (NoDup (plugin_handler.waiting_augmentations self) →
     NoDup (plugin_handler.waiting_augmentations self1))
  ∧ plugin_handler.do_augment_hook default_plugins class_name hook d cb self1 = self1.
Proof.
  intros Hl. unfold plugin_handler.do_augment_hook. rewrite Hl. cbn [negb].
  case_bool_decide as Hin; cbv zeta.
  - rewrite ?Hl. cbn [negb]. rewrite bool_decide_eq_true_2 by done. by repeat split.
  - cbn [plugin_handler.trace plugin_handler.augmentations
         plugin_handler.waiting_augmentations plugin_handler.plugins_loaded].
    rewrite ?Hl. cbn [negb].
    rewrite bool_decide_eq_true_2 by list_mem.
    split; [done|]. split; [done|]. split; [list_mem|]. split; [|done].
    intros Hnd. apply NoDup_app. split; [done|]. split; [|apply NoDup_singleton].
    intros x Hx ->%list_elem_of_singleton. done.
Qed.

(** Plugins: names stay, and only the flag of the dock changes. *)
Lemma alter_first_enabled (plugin_name : string) (b : bool)
    (l : list plugin_handler.Plugin) (P : plugin_handler.Plugin → Prop) :
  (∀ p, p ∈ l → P p) →
  (∀ p, p ∈ l → plugin_handler.name p = plugin_name →
        P (plugin_handler.set_ui_is_enabled b p)) →
  ∀ p, p ∈ plugin_handler.alter_first
             (fun p => String.eqb (plugin_handler.name p) plugin_name)
             (plugin_handler.set_ui_is_enabled b) l → P p.
Proof.
  induction l as [|q l IH]; intros Hall Hset p; [by intros ?%elem_of_nil|].
  cbn [plugin_handler.alter_first].
  destruct (String.eqb_spec (plugin_handler.name q) plugin_name) as [Hq|Hq].
  - intros [->|Hp]%elem_of_cons; [apply Hset; list_mem | apply Hall; list_mem].
  - intros [->|Hp]%elem_of_cons; [apply Hall; list_mem|].
    apply IH; [| |done]; intros; [apply Hall | apply Hset]; list_mem.
Qed.

Lemma contains_elem_of_names (l : list string) (i : string) :
  plugin_handler.contains l i = true ↔ i ∈ l.
Proof.
  unfold plugin_handler.contains. rewrite existsb_exists. split.
  - intros (x & Hx & ->%String.eqb_eq). by apply list_elem_of_In.
  - intros Hi. exists i. split; [by apply list_elem_of_In | apply String.eqb_refl].
Qed.

Lemma do_augment_hook_plugins (class_name hook : string) (d : Data)
    (cb : option Callback) (self : handler) :
  plugin_handler.loaded_plugins
    (plugin_handler.do_augment_hook default_plugins class_name hook d cb self)
  = plugin_handler.loaded_plugins self.
Proof.
  unfold plugin_handler.do_augment_hook.
  destruct (negb _); [by case_bool_decide|]. by destruct (foldl _ _ _).
Qed.

Lemma set_plugin_enabled_required (plugin_name : string) (is_enabled : bool)
    (self : handler) :
  required_enabled required_plugins self →
  required_enabled required_plugins
    (plugin_handler.set_plugin_enabled required_plugins plugin_name is_enabled self).
Proof.
  intros Hreq. unfold plugin_handler.set_plugin_enabled.
  destruct (plugin_handler.get_plugin self plugin_name) as [plugin|]; [|done].
  destruct (negb is_enabled && _) eqn:Hguard; [done|].
  destruct (if is_enabled then _ else _) as [augs ev2].
  unfold required_enabled. cbn [plugin_handler.loaded_plugins].
  apply (alter_first_enabled plugin_name is_enabled (plugin_handler.loaded_plugins self)
           (fun p => plugin_handler.name p ∈ required_plugins →
                     plugin_handler.ui_is_enabled p = true)); [exact Hreq|].
  intros p Hp Hname Hin. cbn [plugin_handler.set_ui_is_enabled plugin_handler.ui_is_enabled].
  destruct is_enabled; [done|]. cbn [negb andb] in Hguard.
  cbn [plugin_handler.name plugin_handler.set_ui_is_enabled] in Hin.
  rewrite Hname in Hin. apply contains_elem_of_names in Hin. congruence.
Qed.

Lemma update_enabled_plugins_required (self : handler) :
  required_enabled required_plugins self →
  required_enabled required_plugins
    (plugin_handler.update_enabled_plugins required_plugins default_plugins self).
Proof.
  unfold plugin_handler.update_enabled_plugins.
  generalize (plugin_handler.get_option self "enabled_plugins" default_plugins).
  intros enabled.
  generalize (plugin_handler.name <$> plugin_handler.loaded_plugins self).
  intros names. revert self. induction names as [|n names IH]; intros self Hreq; [done|].
  cbn [foldl]. apply IH. by apply set_plugin_enabled_required.
Qed.

(** X15: a required plugin is never disabled.  When the dock of every
    loaded plugin that is required is enabled, it still is after any
    calls to [do_augment_hook], [set_plugin_enabled] and
    [update_enabled_plugins]. *)
Theorem required_stay_enabled (calls : list (@handler_call Data Callback))
    (self : handler) :
  required_enabled required_plugins self →
  required_enabled required_plugins
    (run_calls required_plugins default_plugins self calls).
Proof.
  unfold run_calls. revert self. induction calls as [|c calls IH]; intros self Hreq; [done|].
  cbn [foldl]. apply IH. destruct c; cbn [run_call].
  - unfold required_enabled. by rewrite do_augment_hook_plugins.
  - by apply set_plugin_enabled_required.
  - by apply update_enabled_plugins_required.
Qed.

(** *** Shortcuts *)

Lemma index_inj (l : list string) (i j : string) :
  i ∈ l → j ∈ l → plugin_handler.index l i = plugin_handler.index l j → i = j.
Proof.
  induction l as [|x l IH]; [by intros ?%elem_of_nil|].
  intros Hi Hj. cbn [plugin_handler.index].
  destruct (String.eqb_spec x i) as [<-|Hxi], (String.eqb_spec x j) as [<-|Hxj];
    try done.
  intros [= Heq]. apply IH; [| |done].
  - by apply elem_of_cons in Hi as [?|?].
  - by apply elem_of_cons in Hj as [?|?].
Qed.

Lemma shortcut_shape (self : handler) (n s : string) (e : bool) :
  plugin_handler.action_set n s e ∈ plugin_handler.assign_dock_shortcuts self →
  s = if plugin_handler.contains
           (plugin_handler.get_option self "favorite_plugins" []) n
      then "Alt+" +:+ pretty (1 + plugin_handler.index
                                    (plugin_handler.get_option self "favorite_plugins" [])
                                    n)%nat
      else EmptyString.
Proof.
  unfold plugin_handler.assign_dock_shortcuts. cbv zeta.
  intros (p & Hp & Hev)%list_elem_of_omap.
  destruct (negb (plugin_handler.has_gui p)); [done|]. by injection Hev as <- <- <-.
Qed.

(** X16: [assign_dock_shortcuts] gives the dock of a favorite plugin
    the shortcut Alt+n, where n is the place of its name among the
    favorites, and no shortcut to the others; so two plugins with
    different names never get the same shortcut. *)
Theorem shortcuts_distinct (self : handler) (n1 n2 s1 s2 : string) (e1 e2 : bool) :
  plugin_handler.action_set n1 s1 e1 ∈ plugin_handler.assign_dock_shortcuts self →
  plugin_handler.action_set n2 s2 e2 ∈ plugin_handler.assign_dock_shortcuts self →
  n1 ≠ n2 →
  (if plugin_handler.contains
        (plugin_handler.get_option self "favorite_plugins" []) n1
   then s1 = "Alt+" +:+ pretty (1 + plugin_handler.index
                                      (plugin_handler.get_option self "favorite_plugins" [])
                                      n1)%nat
        ∧ s1 ≠ s2
   else s1 = EmptyString).
Proof.
  intros H1%shortcut_shape H2%shortcut_shape Hne.
  set (fav := plugin_handler.get_option self "favorite_plugins" []) in *.
  destruct (plugin_handler.contains fav n1) eqn:Hf1; [|done].
  split; [done|]. rewrite H1, H2.
  destruct (plugin_handler.contains fav n2) eqn:Hf2; [|done].
  intros Heq. apply Hne.
  apply contains_elem_of_names in Hf1, Hf2.
  apply (index_inj fav); [done | done |].
  apply (inj (String.app _)) in Heq. apply (inj pretty) in Heq. lia.
Qed.

(** *** An augmentation of a disabled plugin *)

Lemma is_key_of_key (p h : string) (x y : Augmentation) :
  key x = key y → plugin_handler.is_key p h x = plugin_handler.is_key p h y.
Proof.
  unfold plugin_handler.is_key, augmentation_key. by intros [= -> ->].
Qed.

Lemma is_key_other (p h p' h' : string) (x : Augmentation) :
  (p, h) ≠ (p', h') → plugin_handler.is_key p h x = true →
  plugin_handler.is_key p' h' x = false.
Proof.
  intros Hne Hx%is_key_true. apply not_true_is_false. intros Hx'%is_key_true. congruence.
Qed.

Lemma get_app_new (augs : list Augmentation) (p h : string) (x : Augmentation) :
  plugin_handler.get augs p h = None → plugin_handler.is_key p h x = true →
  plugin_handler.get (augs ++ [x]) p h = Some x.
Proof.
  unfold plugin_handler.get. intros Hn Hx. induction augs as [|y augs IH].
  - simpl. by rewrite Hx.
  - simpl in *. destruct (plugin_handler.is_key p h y); [done | by apply IH].
Qed.

Lemma get_app_other (augs : list Augmentation) (p h : string) (x : Augmentation) :
  plugin_handler.is_key p h x = false →
  plugin_handler.get (augs ++ [x]) p h = plugin_handler.get augs p h.
Proof.
  unfold plugin_handler.get. intros Hx. induction augs as [|y augs IH].
  - simpl. by rewrite Hx.
  - simpl. by destruct (plugin_handler.is_key p h y).
Qed.

Lemma get_alter_first_other (augs : list Augmentation) (p h p' h' : string)
    (f : Augmentation → Augmentation) :
  (p, h) ≠ (p', h') →
  (∀ x, plugin_handler.is_key p h x = true → key (f x) = key x) →
  plugin_handler.get (plugin_handler.alter_first (plugin_handler.is_key p h) f augs) p' h'
  = plugin_handler.get augs p' h'.
Proof.
  unfold plugin_handler.get. intros Hne Hf. induction augs as [|y augs IH]; [done|].
  cbn [plugin_handler.alter_first]. destruct (plugin_handler.is_key p h y) eqn:Hy.
  - cbn [List.find].
    rewrite (is_key_of_key p' h' (f y) y) by (by apply Hf).
    by rewrite (is_key_other p h p' h' y).
  - cbn [List.find]. by rewrite IH.
Qed.

Lemma get_alter_first_same (augs : list Augmentation) (p h : string) (x : Augmentation)
    (f : Augmentation → Augmentation) :
  plugin_handler.get augs p h = Some x → key (f x) = key x →
  plugin_handler.get (plugin_handler.alter_first (plugin_handler.is_key p h) f augs) p h
  = Some (f x).
Proof.
  unfold plugin_handler.get. intros Hg Hf. induction augs as [|y augs IH]; [done|].
  cbn [plugin_handler.alter_first List.find] in *.
  destruct (plugin_handler.is_key p h y) eqn:Hy.
  - injection Hg as ->. cbn [List.find].
    by rewrite (is_key_of_key p h (f x) x), Hy.
  - cbn [List.find]. rewrite Hy. by apply IH.
Qed.

Lemma get_key (augs : list Augmentation) (p h : string) (x : Augmentation) :
  plugin_handler.get augs p h = Some x → x ∈ augs ∧ plugin_handler.is_key p h x = true.
Proof.
  unfold plugin_handler.get. intros [Hin Hk]%find_some. by rewrite list_elem_of_In.
Qed.

(** A round of [do_augment_hook] for a plugin of another name keeps the
    augmentation of a key. *)
Lemma hook_plugin_other (class_name hook : string) (d : Data) (cb : option Callback)
    (enabled : list string) (st : list Augmentation * list event)
    (q : plugin_handler.Plugin) (n : string) :
  plugin_handler.name q ≠ n →
  plugin_handler.get (plugin_handler.hook_plugin class_name hook d cb enabled st q).1 n hook
  = plugin_handler.get st.1 n hook.
Proof.
  intros Hne. destruct st as [augs tr]. cbn [fst]. unfold plugin_handler.hook_plugin.
  destruct (plugin_handler.contains (plugin_handler.augmenters q) hook); [|done].
  set (augs1 := match plugin_handler.get augs (plugin_handler.name q) hook with
                | None => _ | Some _ => augs end).
  assert (plugin_handler.get augs1 n hook = plugin_handler.get augs n hook) as H1.
  { subst augs1. destruct (plugin_handler.get augs (plugin_handler.name q) hook); [done|].
    apply get_app_other. apply not_true_is_false. intros Hk%is_key_true.
    unfold augmentation_key, plugin_handler.Augmentation_init in Hk. simpl in Hk. congruence. }
  assert ((plugin_handler.name q, hook) ≠ (n, hook)) as Hkeys by congruence.
  destruct (plugin_handler.get augs1 (plugin_handler.name q) hook) as [a|] eqn:Hg; [|done].
  destruct (negb _).
  - cbn [fst]. rewrite <- H1. by apply get_alter_first_other.
  - destruct (plugin_handler.do_augment a) as [a' ev] eqn:Hd. cbn [fst]. rewrite <- H1.
    apply get_alter_first_other; [done|]. intros x Hx.
    apply get_key in Hg as [_ Ha]. apply is_key_true in Hx, Ha.
    pose proof (do_augment_cases a) as [Hk _]. rewrite Hd in Hk. cbn [fst] in Hk. congruence.
Qed.

Lemma hook_plugins_other (class_name hook : string) (d : Data) (cb : option Callback)
    (enabled : list string) (l : list plugin_handler.Plugin)
    (st : list Augmentation * list event) (n : string) :
  n ∉ (plugin_handler.name <$> l) →
  plugin_handler.get
    (foldl (plugin_handler.hook_plugin class_name hook d cb enabled) st l).1 n hook
  = plugin_handler.get st.1 n hook.
Proof.
  revert st. induction l as [|q l IH]; intros st Hn; [done|].
  cbn [foldl]. rewrite fmap_cons, not_elem_of_cons in Hn. destruct Hn as [Hq Hl].
  rewrite IH by done. by apply hook_plugin_other.
Qed.

(** The round for a plugin that is not enabled and has no augmentation
    of the hook yet: the augmentation is made, and disabled. *)
Lemma hook_plugin_disabled (class_name hook : string) (d : Data) (cb : option Callback)
    (enabled : list string) (st : list Augmentation * list event)
    (p : plugin_handler.Plugin) :
  plugin_handler.contains (plugin_handler.augmenters p) hook = true →
  plugin_handler.contains enabled (plugin_handler.name p) = false →
  plugin_handler.get st.1 (plugin_handler.name p) hook = None →
  plugin_handler.get (plugin_handler.hook_plugin class_name hook d cb enabled st p).1
    (plugin_handler.name p) hook
  = Some (plugin_handler.set_is_enabled false
            (plugin_handler.Augmentation_init p hook (Some class_name) d cb)).
Proof.
  destruct st as [augs tr]. cbn [fst]. intros Hh He Hg.
  unfold plugin_handler.hook_plugin. rewrite Hh, Hg, He. cbn [negb].
  rewrite (get_app_new augs _ _ _ Hg); [|by apply is_key_true].
  cbn [fst]. apply get_alter_first_same; [|done].
  apply get_app_new; [done | by apply is_key_true].
Qed.

Lemma hook_plugins_disabled (class_name hook : string) (d : Data) (cb : option Callback)
    (enabled : list string) (l : list plugin_handler.Plugin)
    (st : list Augmentation * list event) (p : plugin_handler.Plugin) :
  NoDup (plugin_handler.name <$> l) → p ∈ l →
  plugin_handler.contains (plugin_handler.augmenters p) hook = true →
  plugin_handler.contains enabled (plugin_handler.name p) = false →
  plugin_handler.get st.1 (plugin_handler.name p) hook = None →
  plugin_handler.get
    (foldl (plugin_handler.hook_plugin class_name hook d cb enabled) st l).1
    (plugin_handler.name p) hook
  = Some (plugin_handler.set_is_enabled false
            (plugin_handler.Augmentation_init p hook (Some class_name) d cb)).
Proof.
  intros Hnd Hp Hh He. revert st Hnd Hp.
  induction l as [|q l IH]; intros st Hnd Hp Hg; [by apply elem_of_nil in Hp|].
  rewrite fmap_cons in Hnd. apply NoDup_cons in Hnd as [Hq Hnd]. cbn [foldl].
  apply elem_of_cons in Hp as [->|Hp].
  - rewrite hook_plugins_other by done. by apply hook_plugin_disabled.
  - apply IH; [done | done |]. rewrite hook_plugin_other; [done|].
    intros Heq. apply Hq. rewrite Heq. apply list_elem_of_fmap. by exists p.
Qed.

(** The augmentations that the loop of [set_plugin_enabled] goes
    through are those that [run_disabled] acts on. *)
Lemma run_disabled_selects (plugin_name : string) (augs : list Augmentation) :
  plugin_handler.for_plugin (plugin_handler.disabled augs) plugin_name
  = List.filter (fun i => negb (plugin_handler.is_enabled i)
                          && String.eqb (plugin_handler.augmenter_plugin i) plugin_name)
      augs.
Proof.
  unfold plugin_handler.for_plugin, plugin_handler.disabled.
  induction augs as [|i augs IH]; [done|]. cbn [List.filter].
  destruct (plugin_handler.is_enabled i); cbn [negb andb List.filter]; [done|].
  by rewrite IH.
Qed.

Lemma run_disabled_runs (n : string) (augs : list Augmentation) (a : Augmentation) :
  a ∈ augs →
  plugin_handler.is_enabled a = false → plugin_handler.has_run a = false →
  plugin_handler.augmenter_plugin a = n →
  plugin_handler.requester a ≠ Some (plugin_handler.augmenter_class a) →
  plugin_handler.augmenter_called n (plugin_handler.hook_name a) (plugin_handler.data a)
  ∈ (plugin_handler.run_disabled n augs).2.
Proof.
  intros Hin He Hr Hn Hreq. induction augs as [|i augs IH]; [by apply elem_of_nil in Hin|].
  cbn [plugin_handler.run_disabled].
  destruct (if negb (plugin_handler.is_enabled i) && _ then _ else _) as [i' ev] eqn:Hi.
  destruct (plugin_handler.run_disabled n augs) as [rest ev'] eqn:Hrest. cbn [snd] in *.
  apply elem_of_cons in Hin as [<-|Hin]; [|apply elem_of_app; right; by apply IH].
  apply elem_of_app; left.
  rewrite He, Hr, Hn, String.eqb_refl in Hi. cbn [negb andb] in Hi.
  unfold plugin_handler.do_augment in Hi.
  cbn [plugin_handler.set_is_enabled plugin_handler.has_run plugin_handler.is_enabled
       plugin_handler.requester plugin_handler.augmenter_class
       plugin_handler.augmenter_plugin plugin_handler.hook_name plugin_handler.data
       plugin_handler.callback] in Hi.
  rewrite Hr, bool_decide_eq_false_2 in Hi by done. cbn [negb orb] in Hi.
  injection Hi as <- <-. rewrite Hn. apply elem_of_cons. by left.
Qed.

(** X17: an augmentation asked of a plugin that is not enabled is kept,
    disabled and not run; when the plugin is enabled afterwards,
    [set_plugin_enabled] calls its augmenter with the data of the
    request (the requester being of another class than the plugin's
    dock, and the plugins having different names). *)
Theorem disabled_augmentation_runs_when_enabled (self : handler)
    (p : plugin_handler.Plugin) (class_name hook : string) (d : Data)
    (cb : option Callback) :
  plugin_handler.plugins_loaded self = true →
  NoDup (plugin_handler.name <$> plugin_handler.loaded_plugins self) →
  p ∈ plugin_handler.loaded_plugins self →
  plugin_handler.contains (plugin_handler.augmenters p) hook = true →
  plugin_handler.contains
    (plugin_handler.get_option self "enabled_plugins" default_plugins)
    (plugin_handler.name p) = false →
  plugin_handler.get (plugin_handler.augmentations self) (plugin_handler.name p) hook
  = None →
  class_name ≠ plugin_handler.ui_class p →
  let self1 := plugin_handler.do_augment_hook default_plugins class_name hook d cb self in
  let self2 :=
    plugin_handler.set_plugin_enabled required_plugins (plugin_handler.name p) true self1 in
  (∃ a, plugin_handler.get (plugin_handler.augmentations self1)
          (plugin_handler.name p) hook = Some a
        ∧ plugin_handler.has_run a = false ∧ plugin_handler.is_enabled a = false)
  ∧ plugin_handler.augmenter_called (plugin_handler.name p) hook d
    ∈ plugin_handler.trace self2.
Proof.
  intros Hl Hnd Hp Hh He Hg Hc self1 self2.
  pose proof (hook_plugins_disabled class_name hook d cb
                (plugin_handler.get_option self "enabled_plugins" default_plugins)
                (plugin_handler.loaded_plugins self)
                (plugin_handler.augmentations self, plugin_handler.trace self)
                p Hnd Hp Hh He Hg) as Hget.
  set (a0 := plugin_handler.set_is_enabled false
               (plugin_handler.Augmentation_init p hook (Some class_name) d cb)) in *.
  assert (plugin_handler.get (plugin_handler.augmentations self1)
            (plugin_handler.name p) hook = Some a0
          ∧ plugin_handler.loaded_plugins self1 = plugin_handler.loaded_plugins self)
    as [H1 Hpl].
  { subst self1. unfold plugin_handler.do_augment_hook. rewrite Hl. cbn [negb].
    by destruct (foldl _ _ _). }
  split; [by exists a0|].
  subst self2. unfold plugin_handler.set_plugin_enabled.
  destruct (plugin_handler.get_plugin self1 (plugin_handler.name p)) as [q|] eqn:Hq.
  - unfold plugin_handler.get_plugin in Hq. apply find_some in Hq as [_ Hq%String.eqb_eq].
    cbn [negb andb]. rewrite Hq.
    destruct (plugin_handler.run_disabled _ _) as [augs2 ev2] eqn:Hrun.
    cbn [plugin_handler.trace].
    apply get_key in H1 as [Hin _].
    pose proof (run_disabled_runs (plugin_handler.name p)
                  (plugin_handler.augmentations self1) a0 Hin) as Hev.
    rewrite Hrun in Hev. cbn [snd] in Hev.
    rewrite !elem_of_app. left. right. right. apply Hev; try done.
    subst a0. simpl. congruence.
  - unfold plugin_handler.get_plugin in Hq. rewrite Hpl in Hq.
    apply list_elem_of_In in Hp. pose proof (find_none _ _ Hq p Hp) as Hn.
    cbv beta in Hn. by rewrite String.eqb_refl in Hn.
Qed.

End handler_facts.

Lemma augmenter_called_at_most_once_witness :
  let calls :=
    [ call_do_augment_hook "ItemsPlugin" "item_types" "data" (Some "callback");
      call_do_augment_hook "StackEval" "item_types" "other data" None;
      call_set_plugin_enabled "Script Generator" true ] in
  plugin_handler.augmentations example_handler = []
  ∧ plugin_handler.trace example_handler = []
  ∧ called (plugin_handler.trace
              (run_calls [ "Item Types" ]%string [ "Script Generator"; "Item Types" ]%string
                 example_handler calls))
    = [ ("Script Generator", "item_types") ]%string
  ∧ NoDup (called (plugin_handler.trace
                     (run_calls [ "Item Types" ]%string
                        [ "Script Generator"; "Item Types" ]%string
                        example_handler calls))).
Proof.
  intros calls. split; [reflexivity|]. split; [reflexivity|]. split; [by vm_compute|].
  by apply (augmenter_called_at_most_once [ "Item Types" ]%string
              [ "Script Generator"; "Item Types" ]%string calls example_handler).
Defined.

Lemma do_augment_hook_waits_witness :
  let self := @plugin_handler.init string string ∅ in
  plugin_handler.plugins_loaded self = false
  ∧ plugin_handler.waiting_augmentations
      (plugin_handler.do_augment_hook [] "ScriptGenerator" "script_templates"
         "data" None self)
    = [ ("ScriptGenerator", "script_templates", "data", None) ]%string
  ∧ ("ScriptGenerator", "script_templates", "data", None)%string
    ∈ plugin_handler.waiting_augmentations
        (plugin_handler.do_augment_hook [] "ScriptGenerator" "script_templates"
           "data" None self).
Proof.
  intros self. split; [reflexivity|]. split; [by vm_compute|].
  by apply (do_augment_hook_waits [] "ScriptGenerator" "script_templates" "data" None self).
Defined.

Lemma required_stay_enabled_witness :
  required_enabled [ "Item Types" ]%string example_handler
  ∧ required_enabled [ "Item Types" ]%string
      (run_calls [ "Item Types" ]%string [] example_handler
         [ call_set_plugin_enabled "Item Types" false; call_update_enabled_plugins ]).
Proof.
  assert (required_enabled [ "Item Types" ]%string example_handler) as Hreq.
  { intros p Hp _. unfold example_handler, example_plugins in Hp.
    cbn [plugin_handler.loaded_plugins] in Hp.
    repeat (apply elem_of_cons in Hp as [->|Hp]; [reflexivity|]).
    by apply elem_of_nil in Hp. }
  split; [exact Hreq|].
  by apply (required_stay_enabled [ "Item Types" ]%string []).
Defined.

Lemma shortcuts_distinct_witness :
  let self : @plugin_handler.t string string :=
    plugin_handler.mk example_plugins true [] []
      {[ "favorite_plugins"%string := [ "Item Types"; "Script Generator" ]%string ]} [] in
  plugin_handler.action_set "Item Types" "Alt+1" true
    ∈ plugin_handler.assign_dock_shortcuts self
  ∧ plugin_handler.action_set "Script Generator" "Alt+2" true
    ∈ plugin_handler.assign_dock_shortcuts self
  ∧ "Item Types"%string ≠ "Script Generator"%string
  ∧ "Alt+1"%string ≠ "Alt+2"%string.
Proof.
  intros self.
  assert (plugin_handler.assign_dock_shortcuts self
          = [ plugin_handler.action_set "Script Generator" "Alt+2" true;
              plugin_handler.action_set "Item Types" "Alt+1" true ]) as Hev
    by (by vm_compute).
  assert (plugin_handler.action_set "Item Types" "Alt+1" true
          ∈ plugin_handler.assign_dock_shortcuts self) as H1
    by (rewrite Hev; in_list).
  assert (plugin_handler.action_set "Script Generator" "Alt+2" true
          ∈ plugin_handler.assign_dock_shortcuts self) as H2
    by (rewrite Hev; in_list).
  split; [exact H1|]. split; [exact H2|]. split; [done|].
  pose proof (shortcuts_distinct self "Item Types" "Script Generator" "Alt+1" "Alt+2"
                true true H1 H2 ltac:(done)) as Hs.
  change (plugin_handler.contains _ "Item Types") with true in Hs.
  by destruct Hs.
Defined.

Lemma disabled_augmentation_runs_when_enabled_witness :
  let self : @plugin_handler.t string string :=
    plugin_handler.mk example_plugins true [] []
      {[ "enabled_plugins"%string := [ "Script Generator" ]%string ]} [] in
  let p := plugin_handler.mk_plugin "Item Types" true ["script_templates"]
             1 "ItemsPlugin" true false in
  let self1 :=
    plugin_handler.do_augment_hook [] "ScriptGenerator" "script_templates"
      "known_templates" None self in
  let self2 := plugin_handler.set_plugin_enabled [] "Item Types" true self1 in
  plugin_handler.trace self1 = []
  ∧ plugin_handler.augmenter_called "Item Types" "script_templates" "known_templates"
    ∈ plugin_handler.trace self2.
Proof.
  intros self p self1 self2. split; [by vm_compute|].
  apply (disabled_augmentation_runs_when_enabled [] [] self p "ScriptGenerator"
           "script_templates" "known_templates" None).
  - reflexivity.
  - apply (bool_decide_unpack _). by vm_compute.
  - unfold self, example_plugins. cbn [plugin_handler.loaded_plugins]. in_list.
  - reflexivity.
  - by vm_compute.
  - reflexivity.
  - done.
Defined.

(** * The order of the docks *)

Section dock_facts.
Context {Dock : Type} `{EqDecision Dock}.

Local Abbreviation window := (@main_window.t Dock).

(** [docks.index(w)] finds the first place of [w]. *)
Lemma index_split (docks : list Dock) (w : Dock) (i : Z) :
  main_window.index docks w = inr i →
  ∃ pre post, docks = pre ++ w :: post ∧ (w ∉ pre) ∧ i = Z.of_nat (length pre).
Proof.
  revert i. induction docks as [|d docks IH]; intros i; [done|].
  cbn [main_window.index]. destruct (decide (d = w)) as [->|Hd].
  - intros [= <-]. exists [], docks. split; [done|]. split; [apply not_elem_of_nil | done].
  - destruct (main_window.index docks w) as [e|j]; [done|]. intros [= <-].
    destruct (IH j eq_refl) as (pre & post & -> & Hpre & ->).
    exists (d :: pre), post. split; [done|]. split.
    + rewrite not_elem_of_cons. by split.
    + cbn [length]. lia.
Qed.

Lemma index_missing (docks : list Dock) (w : Dock) (e : main_window.error) :
  main_window.index docks w = inl e → e = main_window.ValueError ∧ w ∉ docks.
Proof.
  induction docks as [|d docks IH]; cbn [main_window.index].
  - intros [= <-]. split; [done | apply not_elem_of_nil].
  - destruct (decide (d = w)) as [->|Hd]; [done|].
    destruct (main_window.index docks w) as [e'|j]; [|done]. intros [= <-].
    destruct (IH eq_refl) as [-> Hw]. split; [done|]. rewrite not_elem_of_cons. by split.
Qed.

Lemma index_first (pre post : list Dock) (w : Dock) :
  w ∉ pre → main_window.index (pre ++ w :: post) w = inr (Z.of_nat (length pre)).
Proof.
  induction pre as [|d pre IH]; intros Hw; cbn [main_window.index app].
  - by rewrite decide_True.
  - rewrite not_elem_of_cons in Hw. destruct Hw as [Hd Hw].
    rewrite decide_False by done. rewrite IH by done. f_equal. cbn [length]. lia.
Qed.

Lemma index_lookup (docks : list Dock) (n : nat) (d : Dock) :
  NoDup docks → docks !! n = Some d → main_window.index docks d = inr (Z.of_nat n).
Proof.
  intros Hnd Hn. pose proof (take_drop_middle _ _ _ Hn) as Heq.
  rewrite <- Heq in Hnd |- *. apply NoDup_app in Hnd as (_ & Hpre & _).
  rewrite index_first.
  - rewrite length_take. apply lookup_lt_Some in Hn. f_equal. lia.
  - intros Hin. apply (Hpre _ Hin). apply elem_of_cons. by left.
Qed.

Lemma insert_after (pre post : list Dock) (bottom top : Dock) :
  main_window.insert (pre ++ bottom :: post) (Z.of_nat (length pre) + 1) top
  = pre ++ bottom :: top :: post.
Proof.
  unfold main_window.insert.
  replace (Z.to_nat (Z.of_nat (length pre) + 1)) with (length (pre ++ [bottom]))
    by (rewrite length_app; simpl; lia).
  replace (pre ++ bottom :: post) with ((pre ++ [bottom]) ++ post)
    by (by rewrite <- app_assoc).
  rewrite take_app_length, drop_app_length. by rewrite <- app_assoc.
Qed.

Lemma getitem_lookup (docks : list Dock) (n : nat) (d : Dock) :
  docks !! n = Some d → main_window.getitem docks (Z.of_nat n) = inr d.
Proof.
  intros Hn. unfold main_window.getitem. cbv zeta.
  assert ((Z.of_nat n <? 0) = false) as -> by (apply Z.ltb_ge; lia).
  assert ((Z.of_nat n <? 0) = false) as -> by (apply Z.ltb_ge; lia).
  by rewrite Nat2Z.id, Hn.
Qed.

(** The dock that [move_one_dock] moves to from the one at place [n],
    and the way back from there. *)
Lemma target_place (docks : list Dock) (n : nat) (w : Dock) (reverse : bool) :
  docks !! n = Some w →
  ∃ d,
    docks !! next_place (length docks) n reverse = Some d
    ∧ (if reverse then
         main_window.getitem docks
           ((if Z.of_nat n =? 0 then Z.of_nat (length docks) else Z.of_nat n) - 1)
       else
         main_window.getitem docks
           ((if Z.of_nat n >=? Z.of_nat (length docks) - 1 then -1 else Z.of_nat n) + 1))
      = inr d.
Proof.
  intros Hn. pose proof (lookup_lt_Some _ _ _ Hn) as Hlt.
  assert (∀ k, (k < length docks)%nat → ∃ d, docks !! k = Some d) as Hat
    by (intros k Hk; by apply lookup_lt_is_Some_2).
  unfold next_place. destruct reverse.
  - destruct (Z.eqb_spec (Z.of_nat n) 0) as [Hz|Hz].
    + assert (n = 0%nat) as -> by lia.
      replace ((0 + length docks - 1) `mod` length docks)%nat with (length docks - 1)%nat
        by (symmetry; apply Nat.mod_small; lia).
      destruct (Hat (length docks - 1)%nat ltac:(lia)) as [d Hd].
      exists d. split; [done|].
      replace (Z.of_nat (length docks) - 1) with (Z.of_nat (length docks - 1)) by lia.
      by apply getitem_lookup.
    + replace ((n + length docks - 1) `mod` length docks)%nat with (n - 1)%nat
        by (apply (Nat.mod_unique _ _ 1); lia).
      destruct (Hat (n - 1)%nat ltac:(lia)) as [d Hd].
      exists d. split; [done|].
      replace (Z.of_nat n - 1) with (Z.of_nat (n - 1)) by lia.
      by apply getitem_lookup.
  - destruct (Z.of_nat n >=? Z.of_nat (length docks) - 1) eqn:Hge.
    + apply Z.geb_le in Hge.
      replace ((n + 1) `mod` length docks)%nat with 0%nat
        by (apply (Nat.mod_unique _ _ 1); lia).
      destruct (Hat 0%nat ltac:(lia)) as [d Hd].
      exists d. split; [done|]. by apply (getitem_lookup docks 0).
    + rewrite Z.geb_leb in Hge. apply Z.leb_gt in Hge.
      replace ((n + 1) `mod` length docks)%nat with (n + 1)%nat
        by (symmetry; apply Nat.mod_small; lia).
      destruct (Hat (n + 1)%nat ltac:(lia)) as [d Hd].
      exists d. split; [done|].
      replace (Z.of_nat n + 1) with (Z.of_nat (n + 1)) by lia.
      by apply getitem_lookup.
Qed.

Lemma next_place_back (len n : nat) (reverse : bool) :
  (n < len)%nat →
  (next_place len n reverse < len)%nat
  ∧ next_place len (next_place len n reverse) (negb reverse) = n.
Proof.
  intros Hn. unfold next_place.
  destruct reverse; cbn [negb].
  - destruct (decide (n = 0%nat)) as [->|Hz].
    + replace ((0 + len - 1) `mod` len)%nat with (len - 1)%nat
        by (symmetry; apply Nat.mod_small; lia).
      split; [lia|]. symmetry. apply (Nat.mod_unique _ _ 1); lia.
    + replace ((n + len - 1) `mod` len)%nat with (n - 1)%nat
        by (apply (Nat.mod_unique _ _ 1); lia).
      split; [lia|]. symmetry. apply (Nat.mod_unique _ _ 0); lia.
  - destruct (decide (n + 1 = len)%nat) as [Hl|Hl].
    + replace ((n + 1) `mod` len)%nat with 0%nat
        by (apply (Nat.mod_unique _ _ 1); lia).
      split; [lia|]. symmetry. apply (Nat.mod_unique _ _ 0); lia.
    + replace ((n + 1) `mod` len)%nat with (n + 1)%nat
        by (symmetry; apply Nat.mod_small; lia).
      split; [lia|]. symmetry. apply (Nat.mod_unique _ _ 1); lia.
Qed.

(** X18: [move_one_dock] goes round the visible docks of the area of
    the active dock.  When these are distinct docks of that area and the
    active dock is at place [n] among them, it emits [needsFocus] of the
    dock at the next place, or at the place before when [reverse], going
    from the last place to the first and from the first to the last;
    moving the other way from there comes back to the dock it started
    from.  It raises nothing and changes nothing. *)
Theorem move_one_dock_cycles (w : Dock) (n : nat) (reverse : bool) (g : window) :
  let docks :=
    List.filter (main_window.isVisible g)
      (default [] (main_window.dock_orders g !! main_window.dockWidgetArea g w)) in
  NoDup docks →
  docks !! n = Some w →
  (∀ d, d ∈ docks → main_window.dockWidgetArea g d = main_window.dockWidgetArea g w) →
  ∃ d,
    docks !! next_place (length docks) n reverse = Some d
    ∧ main_window.move_one_dock (Some w) reverse g = (inr (Some d), g)
    ∧ main_window.move_one_dock (Some d) (negb reverse) g = (inr (Some w), g).
Proof.
  intros docks Hnd Hn Harea.
  destruct (main_window.dock_orders g !! main_window.dockWidgetArea g w) as [l|] eqn:Hl;
    [|done].
  cbn [default from_option id] in docks.
  pose proof (lookup_lt_Some _ _ _ Hn) as Hlt.
  destruct (next_place_back (length docks) n reverse Hlt) as [Hm Hback].
  destruct (target_place docks n w reverse Hn) as (d & Hd & Hgo).
  destruct (target_place docks _ d (negb reverse) Hd) as (w' & Hw' & Hgo').
  rewrite Hback in Hw'. assert (w' = w) as -> by congruence.
  assert (d ∈ docks) as Hin by (apply list_elem_of_lookup; by eexists).
  exists d. split; [done|].
  unfold main_window.move_one_dock, main_window.dock_order.
  rewrite (Harea d Hin), Hl. cbv beta iota zeta.
  change (List.filter (main_window.isVisible g) l) with docks.
  rewrite (index_lookup docks n w Hnd Hn), (index_lookup docks _ d Hnd Hd).
  split.
  - destruct reverse; by rewrite Hgo.
  - destruct reverse; cbn [negb] in *; by rewrite Hgo'.
Qed.

(** X19: [move_one_dock] raises nothing but [ValueError], and that
    exactly when the active dock is not among the visible docks that the
    order of its area holds; otherwise it emits [needsFocus] of one of
    these docks.  A list index is never out of range. *)
Theorem move_one_dock_raises (w : Dock) (reverse : bool) (g : window) :
  let docks :=
    List.filter (main_window.isVisible g)
      (default [] (main_window.dock_orders g !! main_window.dockWidgetArea g w)) in
  match (main_window.move_one_dock (Some w) reverse g).1 with
  | inl e => e = main_window.ValueError ∧ w ∉ docks
  | inr target => ∃ d, target = Some d ∧ d ∈ docks ∧ w ∈ docks
  end.
Proof.
  intros docks. unfold main_window.move_one_dock.
  assert (∃ g1, main_window.dock_order g (main_window.dockWidgetArea g w)
                = (default [] (main_window.dock_orders g
                                 !! main_window.dockWidgetArea g w), g1)
                ∧ main_window.isVisible g1 = main_window.isVisible g) as (g1 & -> & Hv).
  { unfold main_window.dock_order.
    destruct (main_window.dock_orders g !! main_window.dockWidgetArea g w);
      by eexists. }
  cbv beta iota zeta. rewrite Hv. fold docks.
  destruct (main_window.index docks w) as [e|i] eqn:Hi.
  - by apply index_missing in Hi.
  - apply index_split in Hi as (pre & post & Heq & Hpre & ->).
    assert (docks !! length pre = Some w) as Hn
      by (rewrite Heq; by apply list_lookup_middle).
    destruct (target_place docks (length pre) w reverse Hn) as (d & Hm & Hgo).
    assert (w ∈ docks) as Hw by (apply list_elem_of_lookup; by eexists).
    assert (d ∈ docks) as Hd by (apply list_elem_of_lookup; by eexists).
    destruct reverse; rewrite Hgo; cbn [fst]; by exists d.
Qed.

(** X20: [tabifyDockWidget(bottom, top)] raises [ValueError] exactly
    when the order remembered for the area of [bottom] is not empty and
    does not hold [bottom].  Otherwise the order of that area, or
    [bottom] alone when it was empty, gets [top] right after the first
    [bottom]; the orders of the other areas, the area of every dock but
    [top] and what is visible stay as they are. *)
Theorem tabifyDockWidget_inserts (bottom top : Dock) (g : window) :
  let area := main_window.dockWidgetArea g bottom in
  let docks0 := default [] (main_window.dock_orders g !! area) in
  match main_window.tabifyDockWidget bottom top g with
  | (None, g') =>
      ∃ pre post,
        (match docks0 with [] => [bottom] | _ => docks0 end) = pre ++ bottom :: post
        ∧ (bottom ∉ pre)
        ∧ main_window.dock_orders g'
          = <[area := pre ++ bottom :: top :: post]> (main_window.dock_orders g)
        ∧ main_window.dockWidgetArea g' top = area
        ∧ (∀ d, d ≠ top → main_window.dockWidgetArea g' d = main_window.dockWidgetArea g d)
        ∧ main_window.isVisible g' = main_window.isVisible g
  | (Some e, g') =>
      e = main_window.ValueError ∧ docks0 ≠ [] ∧ bottom ∉ docks0
  end.
Proof.
  intros area docks0. unfold main_window.tabifyDockWidget. fold area.
  assert (∃ g1, main_window.dock_order g area = (docks0, g1)
                ∧ main_window.dockWidgetArea g1 = main_window.dockWidgetArea g
                ∧ main_window.isVisible g1 = main_window.isVisible g
                ∧ ∀ l, <[area := l]> (main_window.dock_orders g1)
                       = <[area := l]> (main_window.dock_orders g)) as (g1 & -> & Ha & Hv & Ho).
  { unfold main_window.dock_order, docks0.
    destruct (main_window.dock_orders g !! area) as [l|]; [by exists g|].
    eexists. split; [done|]. cbn. split; [done|]. split; [done|].
    intros l. apply insert_insert_eq. }
  cbn [main_window.dock_orders main_window.dockWidgetArea main_window.isVisible].
  destruct docks0 as [|d0 docks0'] eqn:Hd0.
  - cbn [length Nat.eqb app main_window.index]. rewrite decide_True by done.
    exists [], []. split; [done|]. split; [apply not_elem_of_nil|].
    cbn [main_window.dock_orders main_window.dockWidgetArea main_window.isVisible].
    split; [by rewrite insert_insert_eq, Ho|]. split; [by rewrite decide_True|].
    split; [|done]. intros d Hd. by rewrite decide_False, Ha.
  - cbn [length Nat.eqb].
    destruct (main_window.index (d0 :: docks0') bottom) as [e|idx] eqn:Hidx.
    + apply index_missing in Hidx as [-> Hb]. by split.
    + apply index_split in Hidx as (pre & post & Heq & Hpre & ->).
      exists pre, post. split; [done|]. split; [done|].
      cbn [main_window.dock_orders main_window.dockWidgetArea main_window.isVisible].
      rewrite Heq, insert_after.
      split; [by rewrite insert_insert_eq, Ho|]. split; [by rewrite decide_True|].
      split; [|done]. intros d Hd. by rewrite decide_False, Ha.
Qed.

End dock_facts.

Lemma move_one_dock_cycles_witness :
  NoDup [0; 2]%nat
  ∧ [0; 2]%nat !! 1%nat = Some 2%nat
  ∧ ∃ d, [0; 2]%nat !! 0%nat = Some d
         ∧ main_window.move_one_dock (Some 2%nat) false example_window
           = (inr (Some d), example_window)
         ∧ main_window.move_one_dock (Some d) true example_window
           = (inr (Some 2%nat), example_window).
Proof.
  assert (NoDup [0; 2]%nat) as Hnd by (apply (bool_decide_unpack _); by vm_compute).
  split; [exact Hnd|]. split; [reflexivity|].
  apply (move_one_dock_cycles 2%nat 1 false example_window).
  - exact Hnd.
  - reflexivity.
  - reflexivity.
Defined.

(** * The default layout *)

Section layout_facts.
Context {Data Callback : Type} `{EqDecision Data, EqDecision Callback}.

Local Abbreviation handler := (@plugin_handler.t Data Callback).
Local Abbreviation window := (@main_window.t nat).

(** Tabifying a dock with the last dock of an area puts it last. *)
Lemma tabify_append (g : window) (pre : list nat) (last_dock dock : nat) (area : Z) :
  main_window.dockWidgetArea g last_dock = area →
  last_dock ∉ pre →
  default [] (main_window.dock_orders g !! area)
  = (if decide (2 ≤ length (pre ++ [last_dock]))%nat then pre ++ [last_dock] else []) →
  ∃ g',
    main_window.tabifyDockWidget last_dock dock g = (None, g')
    ∧ main_window.dock_orders g' !! area = Some (pre ++ [last_dock; dock])
    ∧ (∀ a, a ≠ area → main_window.dock_orders g' !! a = main_window.dock_orders g !! a)
    ∧ main_window.dockWidgetArea g' dock = area
    ∧ (∀ d, d ≠ dock → main_window.dockWidgetArea g' d = main_window.dockWidgetArea g d)
    ∧ main_window.isVisible g' = main_window.isVisible g.
Proof.
  intros Harea Hpre Horder. unfold main_window.tabifyDockWidget. rewrite Harea.
  assert (∃ g1 docks0,
            main_window.dock_order g area = (docks0, g1)
            ∧ (if Nat.eqb (length docks0) 0 then docks0 ++ [last_dock] else docks0)
              = pre ++ [last_dock]
            ∧ main_window.dockWidgetArea g1 = main_window.dockWidgetArea g
            ∧ main_window.isVisible g1 = main_window.isVisible g
            ∧ ∀ a, a ≠ area →
                main_window.dock_orders g1 !! a = main_window.dock_orders g !! a)
    as (g1 & docks0 & -> & Hdocks & Ha & Hv & Ho).
  { unfold main_window.dock_order.
    destruct (main_window.dock_orders g !! area) as [l|] eqn:Hl; cbn [default from_option id] in Horder.
    - exists g, l. split; [done|]. split; [|done]. rewrite Horder.
      case_decide as Hlen; [|destruct pre; [done | simpl in Hlen; rewrite length_app in Hlen; simpl in Hlen; lia]].
      rewrite length_app. cbn [length].
      by replace (length pre + 1)%nat with (S (length pre)) by lia.
    - eexists _, []. split; [done|]. cbn.
      split; [|split; [done|split; [done|]]].
      + case_decide as Hlen; [by destruct pre|]. destruct pre as [|x pre]; [done|].
        simpl in Hlen. rewrite length_app in Hlen. simpl in Hlen. lia.
      + intros a Hne. by rewrite lookup_insert_ne. }
  rewrite Hdocks.
  replace (pre ++ [last_dock]) with (pre ++ last_dock :: []) by done.
  rewrite index_first by done. eexists. split; [done|].
  cbn [main_window.dock_orders main_window.dockWidgetArea main_window.isVisible].
  rewrite insert_after. split; [by rewrite lookup_insert_eq|].
  split; [by intros a Hne; rewrite !lookup_insert_ne, Ho|].
  split; [by rewrite decide_True|]. split; [|done].
  intros d Hd. by rewrite decide_False, Ha.
Qed.

Lemma laid_out_frame (g g' : window) (area : Z) (done : list nat)
    (last_dock : option nat) :
  area_laid_out g area done last_dock →
  main_window.dock_orders g' !! area = main_window.dock_orders g !! area →
  (∀ d, d ∈ done →
     main_window.dockWidgetArea g' d = main_window.dockWidgetArea g d
     ∧ main_window.isVisible g' d = main_window.isVisible g d) →
  area_laid_out g' area done last_dock.
Proof.
  intros (Hlast & Horder & Hdocks) Ho Hsame. split; [done|]. split; [by rewrite Ho|].
  intros d Hd. destruct (Hsame d Hd) as [-> ->]. by apply Hdocks.
Qed.

(** One round of the loop of [do_default_layout], for a dock that goes
    to [area]. *)
Lemma put_dock (gui : window) (area other : Z) (done done_other : list nat)
    (last_dock last_other : option nat) (dock : nat) :
  area ≠ other → dock ∉ done → dock ∉ done_other → NoDup done →
  area_laid_out gui area done last_dock →
  area_laid_out gui other done_other last_other →
  ∃ gui2,
    match last_dock with
    | Some l => main_window.tabifyDockWidget l dock (main_window.addDockWidget area dock gui)
    | None => (None, main_window.addDockWidget area dock gui)
    end = (None, gui2)
    ∧ area_laid_out (main_window.setVisible dock false gui2) area (done ++ [dock])
        (Some dock)
    ∧ area_laid_out (main_window.setVisible dock false gui2) other done_other last_other.
Proof.
  intros Hne Hdock Hdock' Hnd Hin Hother.
  set (gui1 := main_window.addDockWidget area dock gui).
  assert (∀ d, d ≠ dock →
               main_window.dockWidgetArea gui1 d = main_window.dockWidgetArea gui d)
    as Harea1 by (intros d Hd; cbn; by rewrite decide_False).
  assert (∀ l : list nat, dock ∉ l → ∀ d, d ∈ l → d ≠ dock) as Hother_dock
    by (intros l Hl d Hd ->; done).
  destruct Hin as (Hlast & Horder & Hdocks).
  destruct last_dock as [l|].
  - symmetry in Hlast. apply last_Some in Hlast as [pre ->].
    apply NoDup_app in Hnd as (_ & Hpre & _).
    assert (l ∉ pre) as Hl by (intros Hin; apply (Hpre l Hin), elem_of_cons; by left).
    assert (l ≠ dock) as Hld by (apply (Hother_dock (pre ++ [l])); [done|]; apply elem_of_app; right; apply elem_of_cons; by left).
    destruct (tabify_append gui1 pre l dock area) as (gui2 & -> & Ho & Hframe & Hd & Ha & Hv).
    + rewrite Harea1 by done. apply Hdocks. apply elem_of_app. right. apply elem_of_cons. by left.
    + done.
    + exact Horder.
    + exists gui2. split; [done|]. split.
      * split; [by rewrite last_snoc|].
        cbn [main_window.setVisible main_window.dock_orders main_window.dockWidgetArea
             main_window.isVisible].
        rewrite Ho. cbn [default from_option id].
        split.
        { rewrite decide_True by (rewrite !length_app; simpl; lia).
          by rewrite <- app_assoc. }
        intros d [Hdone| ->%list_elem_of_singleton]%elem_of_app.
        { assert (d ≠ dock) as Hdd by (by apply (Hother_dock (pre ++ [l]))).
          rewrite decide_False by done. rewrite Ha, Harea1, Hv by done.
          by apply Hdocks. }
        by rewrite decide_True.
      * apply (laid_out_frame gui); [done | |].
        { cbn [main_window.setVisible main_window.dock_orders]. by rewrite Hframe. }
        intros d Hd'. assert (d ≠ dock) as Hdd by (by apply (Hother_dock done_other)).
        cbn [main_window.setVisible main_window.dockWidgetArea main_window.isVisible].
        rewrite decide_False by done. by rewrite Ha, Harea1, Hv.
  - symmetry in Hlast. apply last_None in Hlast as ->.
    exists gui1. split; [done|]. split.
    + split; [done|]. cbn [app length]. rewrite decide_False by lia.
      split.
      { cbn [main_window.setVisible main_window.dock_orders gui1 main_window.addDockWidget].
        by rewrite decide_False in Horder by (simpl; lia). }
      intros d ->%list_elem_of_singleton. cbn. by rewrite !decide_True.
    + apply (laid_out_frame gui); [done | done |].
      intros d Hd'. assert (d ≠ dock) as Hdd by (by apply (Hother_dock done_other)).
      cbn. by rewrite !decide_False.
Qed.

Lemma docks_of_cons (large : bool) (p : plugin_handler.Plugin)
    (plugins : list plugin_handler.Plugin) :
  docks_of large (p :: plugins)
  = (if plugin_handler.has_gui p && Bool.eqb (plugin_handler.ui_is_large p) large
     then [plugin_handler.ui p] else [])
    ++ docks_of large plugins.
Proof. unfold docks_of. cbn [List.filter]. by destruct (_ && _). Qed.

(** The loop of [do_default_layout] raises nothing and puts the large
    docks at the bottom and the others at the right, in the order of
    loading. *)
Lemma layout_docks_inv (plugins : list plugin_handler.Plugin) :
  ∀ (small large : list nat) (last_small last_large : option nat) (gui : window),
    NoDup (large ++ small
           ++ (plugin_handler.ui <$> List.filter plugin_handler.has_gui plugins)) →
    area_laid_out gui main_window.BottomDockWidgetArea large last_large →
    area_laid_out gui main_window.RightDockWidgetArea small last_small →
    ∃ gui' last_small' last_large',
      plugin_handler.layout_docks plugins last_small last_large gui = (None, gui')
      ∧ area_laid_out gui' main_window.BottomDockWidgetArea
          (large ++ docks_of true plugins) last_large'
      ∧ area_laid_out gui' main_window.RightDockWidgetArea
          (small ++ docks_of false plugins) last_small'.
Proof.
  induction plugins as [|p plugins IH]; intros small large last_small last_large gui
    Hnd Hl Hs.
  - exists gui, last_small, last_large. unfold docks_of. cbn. by rewrite !app_nil_r.
  - rewrite !docks_of_cons. cbn [plugin_handler.layout_docks List.filter] in *.
    destruct (plugin_handler.has_gui p) eqn:Hgui; cbn [negb andb];
      [|by apply IH].
    rewrite fmap_cons in Hnd. set (dock := plugin_handler.ui p) in *.
    assert ((dock ∉ large) ∧ (dock ∉ small) ∧ NoDup large ∧ NoDup small)
      as (HdL & HdS & HndL & HndS).
    { apply NoDup_app in Hnd as (HndL & HL & Hnd).
      apply NoDup_app in Hnd as (HndS & HS & _).
      split; [|split; [|done]].
      - intros Hin. apply (HL dock Hin). apply elem_of_app. right.
        apply elem_of_cons. by left.
      - intros Hin. apply (HS dock Hin). apply elem_of_cons. by left. }
    destruct (plugin_handler.ui_is_large p) eqn:Hlarge; cbn [Bool.eqb app].
    + destruct (put_dock gui main_window.BottomDockWidgetArea
                  main_window.RightDockWidgetArea large small last_large last_small dock)
        as (gui2 & -> & Hl2 & Hs2); try done.
      destruct (IH small (large ++ [dock]) last_small (Some dock)
                  (main_window.setVisible dock false gui2)) as (gui' & ls & ll & ? & ? & ?);
        [| done | done |].
      * rewrite <- app_assoc. cbn [app].
        by rewrite (Permutation_middle small _ dock).
      * exists gui', ls, ll. by rewrite <- app_assoc in *.
    + destruct (put_dock gui main_window.RightDockWidgetArea
                  main_window.BottomDockWidgetArea small large last_small last_large dock)
        as (gui2 & -> & Hs2 & Hl2); try done.
      destruct (IH (small ++ [dock]) large (Some dock) last_large
                  (main_window.setVisible dock false gui2)) as (gui' & ls & ll & ? & ? & ?);
        [| done | done |].
      * by rewrite <- app_assoc.
      * exists gui', ls, ll. by rewrite <- app_assoc in *.
Qed.

(** X21: [do_default_layout] in a main window that remembers no order
    yet, for plugins whose docks are distinct and among which are
    Variables and Stack Evaluator: it raises nothing; the large docks
    are in the bottom area and the others in the right area; the order
    remembered for an area is that of loading, but only when the area
    has two docks or more; and of the docks laid out, those of Variables
    and Stack Evaluator are visible and no other. *)
Theorem do_default_layout_orders (self : handler) (gui : window)
    (variables stack_evaluator : plugin_handler.Plugin) :
  main_window.dock_orders gui = ∅ →
  NoDup (plugin_handler.ui
         <$> List.filter plugin_handler.has_gui (plugin_handler.loaded_plugins self)) →
  plugin_handler.get_plugin self "Variables" = Some variables →
  plugin_handler.get_plugin self "Stack Evaluator" = Some stack_evaluator →
  let large := docks_of true (plugin_handler.loaded_plugins self) in
  let small := docks_of false (plugin_handler.loaded_plugins self) in
  ∃ gui',
    plugin_handler.do_default_layout self gui = (None, gui')
    ∧ default [] (main_window.dock_orders gui' !! main_window.BottomDockWidgetArea)
      = (if decide (2 ≤ length large)%nat then large else [])
    ∧ default [] (main_window.dock_orders gui' !! main_window.RightDockWidgetArea)
      = (if decide (2 ≤ length small)%nat then small else [])
    ∧ (∀ d, d ∈ large →
         main_window.dockWidgetArea gui' d = main_window.BottomDockWidgetArea)
    ∧ (∀ d, d ∈ small →
         main_window.dockWidgetArea gui' d = main_window.RightDockWidgetArea)
    ∧ ∀ d, d ∈ large ++ small →
        main_window.isVisible gui' d
        = bool_decide (d = plugin_handler.ui variables
                       ∨ d = plugin_handler.ui stack_evaluator).
Proof.
  intros Hempty Hnd Hv Hs large small. unfold plugin_handler.do_default_layout.
  destruct (layout_docks_inv (plugin_handler.loaded_plugins self) [] [] None None gui)
    as (gui1 & ls & ll & -> & (_ & HoL & HdL) & (_ & HoS & HdS)).
  - done.
  - split; [done|]. split; [by rewrite Hempty|]. by intros d ?%elem_of_nil.
  - split; [done|]. split; [by rewrite Hempty|]. by intros d ?%elem_of_nil.
  - rewrite Hv, Hs. eexists. split; [done|].
    cbn [main_window.setVisible main_window.dock_orders main_window.dockWidgetArea
         main_window.isVisible app] in *.
    split; [done|]. split; [done|].
    split; [by intros d Hd; apply HdL|]. split; [by intros d Hd; apply HdS|].
    intros d Hd.
    assert (main_window.isVisible gui1 d = false) as Hhidden
      by (apply elem_of_app in Hd as [Hd|Hd]; [by apply HdL | by apply HdS]).
    destruct (decide (d = plugin_handler.ui stack_evaluator)) as [He|He];
      [by rewrite bool_decide_eq_true_2 by (by right)|].
    destruct (decide (d = plugin_handler.ui variables)) as [He'|He'];
      [by rewrite bool_decide_eq_true_2 by (by left)|].
    rewrite bool_decide_eq_false_2 by (by intros [?|?]). done.
Qed.

End layout_facts.

Lemma do_default_layout_orders_witness :
  let self := example_layout_handler in
  let gui : @main_window.t nat := main_window.mk ∅ (fun _ => 0) (fun _ => true) in
  ∃ gui',
    plugin_handler.do_default_layout self gui = (None, gui')
    ∧ default [] (main_window.dock_orders gui' !! main_window.BottomDockWidgetArea) = []
    ∧ default [] (main_window.dock_orders gui' !! main_window.RightDockWidgetArea)
      = [0; 2; 3]%nat
    ∧ main_window.isVisible gui' 0%nat = true
    ∧ main_window.isVisible gui' 2%nat = false.
Proof.
  intros self gui.
  destruct (do_default_layout_orders self gui
              (plugin_handler.mk_plugin "Variables" true [] 0 "Variables" true false)
              (plugin_handler.mk_plugin "Stack Evaluator" true [] 1 "StackEval" true true))
    as (gui' & Hrun & Hbottom & Hright & _ & _ & Hvisible).
  - reflexivity.
  - apply (bool_decide_unpack _). by vm_compute.
  - reflexivity.
  - reflexivity.
  - exists gui'. split; [exact Hrun|]. split; [exact Hbottom|]. split; [exact Hright|].
    split; [apply (Hvisible 0%nat) | apply (Hvisible 2%nat)];
      change (docks_of true (plugin_handler.loaded_plugins self)) with [1%nat];
      change (docks_of false (plugin_handler.loaded_plugins self)) with [0; 2; 3]%nat;
      in_list.
Defined.

(** * The widgets of the script generator *)

Lemma create_layout_lookup (self : TemplateWidget.t) (k : string) :
  TemplateWidget.variable_widgets (TemplateWidget.create_layout self) !! k
  = match script_gen.variables (TemplateWidget.template self) !! k with
    | Some _ => Some EmptyString
    | None => TemplateWidget.variable_widgets self !! k
    end.
Proof.
  unfold TemplateWidget.create_layout. cbn [TemplateWidget.variable_widgets].
  assert (∀ (l : list string) (m : gmap string string),
            foldl (fun widgets var_name => <[var_name := EmptyString]> widgets) m l !! k
            = if bool_decide (k ∈ l) then Some EmptyString else m !! k) as Hfold.
  { induction l as [|x l IH]; intros m; cbn [foldl].
    - by rewrite bool_decide_eq_false_2 by apply not_elem_of_nil.
    - rewrite IH. case_bool_decide as Hl.
      + by rewrite bool_decide_eq_true_2 by (by apply elem_of_cons; right).
      + destruct (decide (k = x)) as [->|Hne].
        * rewrite bool_decide_eq_true_2 by (by apply elem_of_cons; left).
          by rewrite lookup_insert_eq.
        * rewrite bool_decide_eq_false_2 by (rewrite elem_of_cons; by intros [?|?]).
          by rewrite lookup_insert_ne. }
  rewrite Hfold.
  destruct (script_gen.variables (TemplateWidget.template self) !! k) as [v|] eqn:Hk.
  - rewrite bool_decide_eq_true_2; [done|].
    apply list_elem_of_fmap. exists (k, v). split; [done|]. by apply elem_of_map_to_list.
  - rewrite bool_decide_eq_false_2; [done|].
    intros ([k' v] & -> & Hin%elem_of_map_to_list)%list_elem_of_fmap. simpl in Hk. congruence.
Qed.

Lemma set_values_lookup (tpl : script_gen.ScriptTemplate) (l : list (string * string))
    (m : gmap string string) (k : string) :
  NoDup l.*1 →
  let self :=
    foldl (fun self '(name, value) =>
             match TemplateWidget.variable_widgets self !! name with
             | Some w => TemplateWidget.mk (TemplateWidget.template self)
                           (<[name := value]> (TemplateWidget.variable_widgets self))
             | None => self
             end)
      (TemplateWidget.mk tpl m) l in
  TemplateWidget.template self = tpl
  ∧ TemplateWidget.variable_widgets self !! k
    = match m !! k with
      | Some w => Some (default w (list_to_map (M := gmap string string) l !! k))
      | None => None
      end.
Proof.
  revert m. induction l as [|[n v] l IH]; intros m Hnd; cbn [foldl].
  - split; [done|]. cbn. rewrite lookup_empty. by destruct (m !! k).
  - rewrite fmap_cons in Hnd. apply NoDup_cons in Hnd as [Hn Hnd]. cbn [fst] in Hn.
    cbn [TemplateWidget.variable_widgets TemplateWidget.template list_to_map foldr].
    assert ((list_to_map l : gmap string string) !! n = None) as Hnone
      by (by apply not_elem_of_list_to_map_1).
    destruct (m !! n) as [w|] eqn:Hmn.
    + destruct (IH (<[n := v]> m) Hnd) as [Ht Hl]. split; [done|]. rewrite Hl.
      destruct (decide (k = n)) as [->|Hne].
      * rewrite !lookup_insert_eq, Hmn, Hnone. done.
      * by rewrite !lookup_insert_ne.
    + destruct (IH m Hnd) as [Ht Hl]. split; [done|]. rewrite Hl.
      destruct (decide (k = n)) as [->|Hne].
      * by rewrite Hmn.
      * by rewrite lookup_insert_ne.
Qed.

Lemma set_template_lookup (template : script_gen.ScriptTemplate)
    (self : TemplateWidget.t) (k : string) :
  TemplateWidget.template (TemplateWidget.set_template template self) = template
  ∧ TemplateWidget.variable_widgets (TemplateWidget.set_template template self) !! k
    = match script_gen.variables template !! k with
      | Some _ => Some (default EmptyString (TemplateWidget.variable_widgets self !! k))
      | None => None
      end.
Proof.
  unfold TemplateWidget.set_template. cbv zeta.
  pose proof (set_values_lookup template
                (map_to_list (TemplateWidget.variable_widgets self))
                (TemplateWidget.variable_widgets
                   (TemplateWidget.create_layout (TemplateWidget.mk template ∅))) k
                (NoDup_fst_map_to_list _)) as [Ht Hl].
  cbv zeta in Ht, Hl.
  change (TemplateWidget.create_layout (TemplateWidget.mk template ∅))
    with (TemplateWidget.mk template
            (TemplateWidget.variable_widgets
               (TemplateWidget.create_layout (TemplateWidget.mk template ∅)))).
  split; [exact Ht|]. rewrite Hl, create_layout_lookup, list_to_map_to_list.
  cbn [TemplateWidget.template TemplateWidget.variable_widgets].
  destruct (script_gen.variables template !! k); [done|]. by rewrite lookup_empty.
Qed.

(** X22: after [set_template(template)] the widget has an input for
    each variable of the new template and for nothing else; the input
    of a variable that the widget had an input for before keeps its
    text, and the others are empty. *)
Theorem set_template_keeps_shared (template : script_gen.ScriptTemplate)
    (self : TemplateWidget.t) (k : string) :
  TemplateWidget.template (TemplateWidget.set_template template self) = template
  ∧ TemplateWidget.variable_widgets (TemplateWidget.set_template template self) !! k
    = match script_gen.variables template !! k with
      | Some _ => Some (default EmptyString (TemplateWidget.variable_widgets self !! k))
      | None => None
      end.
Proof. apply set_template_lookup. Qed.

Lemma find_template_cases (known : list script_gen.ScriptTemplate) (name : string)
    (template : script_gen.ScriptTemplate) :
  (∃ pre post,
     known = pre ++ ScriptGenerator.find_template known name template :: post
     ∧ script_gen.name (ScriptGenerator.find_template known name template) = name
     ∧ Forall (fun i => script_gen.name i ≠ name) post)
  ∨ (ScriptGenerator.find_template known name template = template
     ∧ Forall (fun i => script_gen.name i ≠ name) known).
Proof.
  revert template. induction known as [|i known IH]; intros template;
    cbn [ScriptGenerator.find_template]; [by right|].
  destruct (IH (if String.eqb (script_gen.name i) name then i else template))
    as [(pre & post & Heq & Hname & Hpost)|[Heq Hnone]].
  - left. exists (i :: pre), post. split; [cbn [app]; f_equal; exact Heq|]. by split.
  - rewrite Heq. destruct (String.eqb_spec (script_gen.name i) name) as [Hi|Hi].
    + left. exists [], known. by split.
    + right. split; [done|]. by constructor.
Qed.

(** X23: [change_template] takes the last of the known templates whose
    name is the text of the combo box, and the first known template
    when no name is that text; it gives that template to the template
    widget and shows its text as the script.  It raises [IndexError]
    only when there is no known template. *)
Theorem change_template_picks (known : list script_gen.ScriptTemplate) (name : string)
    (self : ScriptGenerator.t) :
  match ScriptGenerator.change_template known name self with
  | None => known = []
  | Some self' =>
      ∃ template,
        TemplateWidget.template (ScriptGenerator.template_widget self') = template
        ∧ ScriptGenerator.script_output self' = script_gen.text template
        ∧ ((∃ pre post,
              known = pre ++ template :: post
              ∧ script_gen.name template = name
              ∧ Forall (fun i => script_gen.name i ≠ name) post)
           ∨ (head known = Some template
              ∧ Forall (fun i => script_gen.name i ≠ name) known))
  end.
Proof.
  unfold ScriptGenerator.change_template. destruct known as [|first known]; [done|].
  eexists. cbn [ScriptGenerator.template_widget ScriptGenerator.script_output].
  split; [apply (proj1 (set_template_lookup _ _ EmptyString))|]. split; [done|].
  destruct (find_template_cases (first :: known) name first) as [Hlast|[Heq Hnone]].
  - by left.
  - right. by rewrite Heq.
Qed.
